(** * kinda-tidy: a shallow embedding of the chained table helpers

    The development follows the Python sources

      - [kinda_tidy.py]          (mean_weighted, set_categorical,
                                  drop_unused_levels, reverse_categories,
                                  flatten_columns, select_columns,
                                  select_rows, equisample)
      - [kinda_tidy_fortify.py]  (fortify)
      - [plotnine_utils.py]      (kmgt_labels, quarter_labels)

    Numbers are exact rationals extended with the two infinities and
    not-a-number: rounding and overflow of binary floating point are not
    represented, and what is proved of computed numbers is what does not
    depend on them (comparisons, errors, not-a-number).  Tables are
    column-major, as in pandas; the objects the helpers copy and update in
    place live in an explicit store. *)

From Stdlib Require Import ZArith QArith Qabs Qround String Ascii List Lia.
From Stdlib Require Import Sorting.Sorted Sorting.Permutation.
From stdpp Require Import base list strings gmap pretty sorting.

Set Default Proof Using "Type".

(** ** Exceptions and results *)

Inductive exn :=
  | KeyError
  | ValueError
  | TypeError
  | Unmodelled.

Inductive Result (A : Type) :=
  | Ok (a : A)
  | Raise (e : exn).
Arguments Ok {A} a.
Arguments Raise {A} e.

#[global] Instance Result_ret : MRet Result := fun A a => Ok a.
#[global] Instance Result_bind : MBind Result := fun A B f m =>
  match m with
  | Ok a => f a
  | Raise e => Raise e
  end.
#[global] Instance Result_fmap : FMap Result := fun A B f m =>
  match m with
  | Ok a => Ok (f a)
  | Raise e => Raise e
  end.

Definition is_ok {A} (r : Result A) : bool :=
  match r with Ok _ => true | Raise _ => false end.

(** ** Numbers *)

Inductive num :=
  | Fin (q : Q)
  | PInf
  | NInf
  | NaN.

Definition Qsign_pos (q : Q) : bool := negb (Qle_bool q 0%Q).
Definition Qis_zero (q : Q) : bool := Qeq_bool q 0%Q.

Definition inf_of (positive : bool) : num := if positive then PInf else NInf.

Definition num_add (x y : num) : num :=
  match x, y with
  | NaN, _ | _, NaN => NaN
  | PInf, NInf | NInf, PInf => NaN
  | PInf, _ | _, PInf => PInf
  | NInf, _ | _, NInf => NInf
  | Fin a, Fin b => Fin (a + b)%Q
  end.

Definition num_mul (x y : num) : num :=
  match x, y with
  | NaN, _ | _, NaN => NaN
  | Fin a, Fin b => Fin (a * b)%Q
  | Fin a, PInf | PInf, Fin a =>
      if Qis_zero a then NaN else inf_of (Qsign_pos a)
  | Fin a, NInf | NInf, Fin a =>
      if Qis_zero a then NaN else inf_of (negb (Qsign_pos a))
  | PInf, PInf | NInf, NInf => PInf
  | PInf, NInf | NInf, PInf => NInf
  end.

Definition num_div (x y : num) : num :=
  match x, y with
  | NaN, _ | _, NaN => NaN
  | Fin a, Fin b =>
      if Qis_zero b then
        (if Qis_zero a then NaN else inf_of (Qsign_pos a))
      else Fin (a / b)%Q
  | Fin _, (PInf | NInf) => Fin 0%Q
  | PInf, Fin b => inf_of (Qsign_pos b || Qis_zero b)
  | NInf, Fin b => inf_of (negb (Qsign_pos b || Qis_zero b))
  | (PInf | NInf), (PInf | NInf) => NaN
  end.

(** [w < 0]; comparisons with not-a-number are false. *)
Definition num_lt0 (w : num) : bool :=
  match w with
  | Fin q => negb (Qle_bool 0%Q q)
  | NInf => true
  | PInf | NaN => false
  end.

Definition is_nan (x : num) : bool :=
  match x with NaN => true | _ => false end.

Definition is_fin (x : num) : bool :=
  match x with Fin _ => true | _ => false end.

Fixpoint num_sum (l : list num) : num :=
  match l with
  | [] => Fin 0%Q
  | x :: l => num_add x (num_sum l)
  end.

Fixpoint num_dot (xs ys : list num) : num :=
  match xs, ys with
  | x :: xs, y :: ys => num_add (num_mul x y) (num_dot xs ys)
  | _, _ => Fin 0%Q
  end.

(** ** mean_weighted *)

Module Weighted.

(** [statsmodels.stats.DescrStatsW(values, weights).mean]: the library
    computes [dot(values, weights) / sum(weights)] and rejects operands of
    different lengths.  It computes in double precision; the quotient here
    is the exact one, so only the error, the not-a-number and the zero
    cases are read off it. *)
Definition DescrStatsW_mean (values weights : list num) : Result num :=
  if Nat.eqb (length values) (length weights)
  then Ok (num_div (num_dot values weights) (num_sum weights))
  else Raise ValueError.

Definition mean_weighted (values weights : list num) : Result num :=
  if existsb num_lt0 weights
  then Raise ValueError
  else DescrStatsW_mean values weights.

(** Finite data, for stating the weighted mean over the rationals. *)
Fixpoint Qsum (l : list Q) : Q :=
  match l with
  | [] => 0%Q
  | x :: l => (x + Qsum l)%Q
  end.

Fixpoint Qdot (xs ys : list Q) : Q :=
  match xs, ys with
  | x :: xs, y :: ys => (x * y + Qdot xs ys)%Q
  | _, _ => 0%Q
  end.

End Weighted.

(** ** plotnine_utils: kmgt_labels *)

Module Plotnine.

Definition Qpow10 (k : Z) : Q := Qpower (10 # 1) k.

(** [np.ceil(np.log10(x))] for [x > 0]: the least [k] with [x <= 10^k].
    The search starts below [log10 x] and walks upwards. *)
Fixpoint ceil_log10_from (fuel : nat) (k : Z) (x : Q) : Z :=
  match fuel with
  | O => k
  | S fuel =>
      if Qle_bool x (Qpow10 k) then k else ceil_log10_from fuel (k + 1) x
  end.

Definition ceil_log10 (x : Q) : Z :=
  let lo := (- (Z.log2 (Zpos (Qden x)) + 1))%Z in
  let span := (Z.log2 (Z.abs (Qnum x)) + Z.log2 (Zpos (Qden x)) + 3)%Z in
  ceil_log10_from (Z.to_nat span) lo x.

(** The greatest [k] with [10^k <= x], for [x > 0]. *)
Definition floor_log10 (x : Q) : Z :=
  let c := ceil_log10 x in
  if Qeq_bool x (Qpow10 c) then c else (c - 1)%Z.

(** Round to the nearest integer, ties to even. *)
Definition round_half_even (x : Q) : Z :=
  let f := Qfloor x in
  match Qcompare (x - inject_Z f) (1 # 2) with
  | Lt => f
  | Gt => (f + 1)%Z
  | Eq => if Z.even f then f else (f + 1)%Z
  end.

Definition digit_char (d : Z) : ascii := ascii_of_nat (48 + Z.to_nat d).

Definition digits3 (n : Z) : string :=
  String (digit_char (n / 100))
    (String (digit_char (n / 10 mod 10))
       (String (digit_char (n mod 10)) EmptyString)).

Definition digits2 (n : Z) : string :=
  String (digit_char (n / 10 mod 10))
    (String (digit_char (n mod 10)) EmptyString).

(** Decimal digits of a natural number, at least two of them (the exponent
    field of the scientific notation). *)
Fixpoint exp_digits (fuel : nat) (n : Z) : string :=
  match fuel with
  | O => digits2 n
  | S fuel =>
      if (n <? 100)%Z then digits2 n
      else exp_digits fuel (n / 10) +:+ String (digit_char (n mod 10)) EmptyString
  end.

Fixpoint strip_trailing_zeros_rev (s : list ascii) : list ascii :=
  match s with
  | c :: s' => if Ascii.eqb c "0" then strip_trailing_zeros_rev s' else s
  | [] => []
  end.

Definition strip_trailing_zeros (s : string) : string :=
  string_of_list_ascii
    (rev (strip_trailing_zeros_rev (rev (list_ascii_of_string s)))).

Definition with_fraction (int_part frac : string) : string :=
  match strip_trailing_zeros frac with
  | EmptyString => int_part
  | f => int_part +:+ "." +:+ f
  end.

Fixpoint zeros (n : nat) : string :=
  match n with O => EmptyString | S n => String "0" (zeros n) end.

(** ['{:.3g}'.format(x)]: three significant digits, fixed notation when the
    decimal exponent of the rounded value lies in [-4, 3), scientific
    notation otherwise, trailing zeros removed. *)
Definition format_3g (x : Q) : string :=
  if Qeq_bool x 0 then "0"
  else
    let sign := if Qle_bool 0 x then EmptyString else "-" in
    let a := Qabs x in
    let e0 := floor_log10 a in
    let n0 := round_half_even (a * Qpow10 (2 - e0)) in
    let '(n, e) := if (n0 =? 1000)%Z then (100, e0 + 1)%Z else (n0, e0) in
    let ds := digits3 n in
    let body :=
      if ((-4 <=? e) && (e <? 3))%Z then
        if (0 <=? e)%Z then
          with_fraction (substring 0 (Z.to_nat (e + 1)) ds)
                        (substring (Z.to_nat (e + 1)) (Z.to_nat (2 - e)) ds)
        else with_fraction "0" (zeros (Z.to_nat (- e - 1)) +:+ ds)
      else
        with_fraction (substring 0 1 ds) (substring 1 2 ds)
          +:+ "e" +:+ (if (e <? 0)%Z then "-" else "+")
          +:+ exp_digits 4 (Z.abs e)
    in sign +:+ body.

(** The [power_map] dictionary of [label_one]. *)
Definition power_map : gmap Z string :=
  list_to_map
    [(0, ""); (1, "K"); (2, "M"); (3, "G"); (4, "T");
     (5, "P"); (6, "E"); (7, "Z"); (8, "Y")]%Z.

Section kmgt.
(** [str(num)], the text Python prints for the number as it was passed
    (an integer or a float). *)
Variable py_str : Q → string.

Variables prefix suffix : string.

Definition mille_scale_of (num : Q) : Z :=
  ((ceil_log10 (Qabs (num * (11 # 10))) - 1) / 3)%Z.

Definition label_one (num : Q) : Result string :=
  if Qeq_bool num 0 then Ok "0"
  else
    let mille_scale := mille_scale_of num in
    if (8 <? mille_scale)%Z then Ok (prefix +:+ py_str num +:+ suffix)
    else
      let mantissa := format_3g (num / Qpow10 (3 * mille_scale)) in
      match power_map !! mille_scale with
      | Some unit => Ok (prefix +:+ mantissa +:+ unit +:+ suffix)
      | None => Raise KeyError
      end.

Definition kmgt_labels (numlist : list Q) : Result (list string) :=
  mapM label_one numlist.
End kmgt.

End Plotnine.

(** ** Lists: ordering, selection, association lists *)

(** Python compares strings by code point, tuples of strings
    lexicographically. *)
Definition str_leb (a b : string) : bool := String.leb a b.

Fixpoint tuple_leb (a b : list string) : bool :=
  match a, b with
  | [], _ => true
  | _ :: _, [] => false
  | x :: a', y :: b' =>
      match String.compare x y with
      | Lt => true
      | Gt => false
      | Eq => tuple_leb a' b'
      end
  end.

(** Descending order of numbers with the missing value last
    ([sort_values(ascending=False)], [na_position='last']). *)
Definition num_desc_leb (x y : num) : bool :=
  match x, y with
  | _, NaN => true
  | NaN, _ => false
  | PInf, _ => true
  | _, PInf => false
  | _, NInf => true
  | NInf, _ => false
  | Fin a, Fin b => Qle_bool b a
  end.

Section sorting.
Context {A : Type} (leb : A → A → bool).

(** Stable insertion sort: an element goes in front of the first element
    it is not behind, so equal elements keep their order. *)
Fixpoint insert_sorted (x : A) (l : list A) : list A :=
  match l with
  | [] => [x]
  | y :: l' => if leb x y then x :: l else y :: insert_sorted x l'
  end.

Fixpoint isort (l : list A) : list A :=
  match l with
  | [] => []
  | x :: l' => insert_sorted x (isort l')
  end.
End sorting.

(** Python's [x[:n]]: [None] keeps everything, a negative bound counts from
    the end. *)
Definition slice_to {A} (n : option Z) (l : list A) : list A :=
  match n with
  | None => l
  | Some n =>
      if (0 <=? n)%Z then take (Z.to_nat n) l
      else take (length l - Z.to_nat (- n)) l
  end.

(** Boolean-mask selection. *)
Fixpoint select {A} (mask : list bool) (l : list A) : list A :=
  match mask, l with
  | m :: mask', x :: l' =>
      if m then x :: select mask' l' else select mask' l'
  | _, _ => []
  end.

(** Positional selection ([iloc] with a list of positions). *)
Definition take_positions {A} (positions : list nat) (l : list A) : list A :=
  omap (λ i, l !! i) positions.

Section alist.
Context {K V : Type} `{EqDecision K}.

Fixpoint alist_get (k : K) (l : list (K * V)) : option V :=
  match l with
  | [] => None
  | (k', v) :: l' => if decide (k = k') then Some v else alist_get k l'
  end.

(** Replace the value of the first entry for [k]; add the entry at the
    end when there is none. *)
Fixpoint alist_set (k : K) (v : V) (l : list (K * V)) : list (K * V) :=
  match l with
  | [] => [(k, v)]
  | (k', v') :: l' =>
      if decide (k = k') then (k, v) :: l' else (k', v') :: alist_set k v l'
  end.

(** Apply [f] to the value of the first entry for [k]. *)
Fixpoint alist_alter (f : V → V) (k : K) (l : list (K * V))
    : list (K * V) :=
  match l with
  | [] => []
  | (k', v) :: l' =>
      if decide (k = k') then (k', f v) :: l'
      else (k', v) :: alist_alter f k l'
  end.
End alist.

(** ** Grouping *)

Section groupby.
Context {K : Type} `{EqDecision K} (leb : K → K → bool).

(** The group keys of [groupby]: the distinct present keys in ascending
    order ([sort=True], [dropna=True]). *)
Definition group_keys (keys : list (option K)) : list K :=
  isort leb (remove_dups (omap id keys)).

(** The values of the rows of one group, in row order. *)
Definition group_values {V} (keys : list (option K)) (vals : list V)
    (k : K) : list V :=
  (filter (λ kv, kv.1 = Some k) (zip keys vals)).*2.

(** The row positions of one group, in row order. *)
Definition group_rows (keys : list (option K)) (k : K) : list nat :=
  filter (λ i, keys !! i = Some (Some k)) (seq 0 (length keys)).

(** [groupby(key).agg({value: aggregator}).reset_index()]. *)
Definition groupby_agg {V R} (keys : list (option K)) (vals : list V)
    (aggregator : list V → R) : list (K * R) :=
  (λ k, (k, aggregator (group_values keys vals k))) <$> group_keys keys.
End groupby.

(** [sort_values(value_col, ascending=False)] on the aggregated rows.
    The library sorts with quicksort and does not fix the order of rows
    whose values are equal; the order taken here for them is the one of a
    stable sort.  What is stated of a level order below holds of every
    descending order of the aggregates. *)
Definition sort_values_desc {K} (rows : list (K * num)) : list (K * num) :=
  isort (λ a b, num_desc_leb a.2 b.2) rows.

(** The aggregate of one group, and the ranking of the groups by it. *)
Definition group_aggregate (aggregator : list num → num)
    (keys : list (option string)) (vals : list num) (k : string) : num :=
  aggregator (group_values keys vals k).

Definition ranking (aggregator : list num → num)
    (keys : list (option string)) (vals : list num) : list string :=
  (sort_values_desc (groupby_agg str_leb keys vals aggregator)).*1.

(** [a] ranks no later than [b]: its aggregate is at least as large, a
    missing aggregate ranking last. *)
Definition ranks_before (aggregator : list num → num)
    (keys : list (option string)) (vals : list num) (a b : string) : Prop :=
  num_desc_leb (group_aggregate aggregator keys vals a)
               (group_aggregate aggregator keys vals b) = true.

Definition str_lt (a b : string) : Prop := String.compare a b = Lt.

(** ** Tables *)

(** A column holds strings (object dtype), numbers, or a categorical: an
    ordered list of levels and, per row, a level or the missing value.
    [None] is the missing value of the string-valued columns, [NaN] that of
    the numeric ones. *)
Inductive Column :=
  | ObjectCol (vals : list (option string))
  | NumCol (vals : list num)
  | CatCol (categories : list string) (vals : list (option string)).

(** The parts of a multi-level column label. *)
Inductive Atom :=
  | AStr (s : string)
  | AInt (z : Z).

(** The column header: a flat index of names, or a multi-level index whose
    labels are tuples. *)
Inductive Columns :=
  | Index (cols : list (string * Column))
  | MultiIndex (cols : list (list Atom * Column)).

Inductive Label :=
  | Name (s : string)
  | Tuple (t : list Atom).

Record DataFrame := {
  df_index : list Z;        (* row labels *)
  df_columns : Columns
}.

#[global] Instance Atom_eq_dec : EqDecision Atom.
Proof. solve_decision. Defined.
#[global] Instance Label_eq_dec : EqDecision Label.
Proof. solve_decision. Defined.

Definition nrows (df : DataFrame) : nat := length (df_index df).

Definition col_length (c : Column) : nat :=
  match c with
  | ObjectCol vals | CatCol _ vals => length vals
  | NumCol vals => length vals
  end.

Definition col_select (mask : list bool) (c : Column) : Column :=
  match c with
  | ObjectCol vals => ObjectCol (select mask vals)
  | NumCol vals => NumCol (select mask vals)
  | CatCol cats vals => CatCol cats (select mask vals)
  end.

Definition col_take (positions : list nat) (c : Column) : Column :=
  match c with
  | ObjectCol vals => ObjectCol (take_positions positions vals)
  | NumCol vals => NumCol (take_positions positions vals)
  | CatCol cats vals => CatCol cats (take_positions positions vals)
  end.

Definition map_columns (f : Column → Column) (cs : Columns) : Columns :=
  match cs with
  | Index cols => Index (prod_map id f <$> cols)
  | MultiIndex cols => MultiIndex (prod_map id f <$> cols)
  end.

Definition labels (cs : Columns) : list Label :=
  match cs with
  | Index cols => Name <$> cols.*1
  | MultiIndex cols => Tuple <$> cols.*1
  end.

(** [df[label]] *)
Definition get_column (df : DataFrame) (c : Label) : option Column :=
  match df_columns df, c with
  | Index cols, Name s => alist_get s cols
  | MultiIndex cols, Tuple t => alist_get t cols
  | _, _ => None
  end.

(** [df.loc[:, label] = column] on a label of the header's kind. *)
Definition set_column (df : DataFrame) (c : Label) (col : Column)
    : option DataFrame :=
  match df_columns df, c with
  | Index cols, Name s =>
      Some {| df_index := df_index df;
              df_columns := Index (alist_set s col cols) |}
  | MultiIndex cols, Tuple t =>
      Some {| df_index := df_index df;
              df_columns := MultiIndex (alist_set t col cols) |}
  | _, _ => None
  end.

(** The table with [f] applied to the column [c]. *)
Definition alter_column (f : Column → Column) (c : Label) (df : DataFrame)
    : DataFrame :=
  {| df_index := df_index df;
     df_columns :=
       match df_columns df, c with
       | Index cols, Name s => Index (alist_alter f s cols)
       | MultiIndex cols, Tuple t => MultiIndex (alist_alter f t cols)
       | cs, _ => cs
       end |}.

(** [df[mask]] *)
Definition filter_rows (mask : list bool) (df : DataFrame) : DataFrame :=
  {| df_index := select mask (df_index df);
     df_columns := map_columns (col_select mask) (df_columns df) |}.

(** [df.iloc[positions]] *)
Definition take_rows (positions : list nat) (df : DataFrame) : DataFrame :=
  {| df_index := take_positions positions (df_index df);
     df_columns := map_columns (col_take positions) (df_columns df) |}.

(** *** Categoricals *)

Definition is_categorical_dtype (c : Column) : bool :=
  match c with CatCol _ _ => true | _ => false end.

(** The cells of a string-valued column. *)
Definition str_values (c : Column) : option (list (option string)) :=
  match c with
  | ObjectCol vals | CatCol _ vals => Some vals
  | NumCol _ => None
  end.

(** [series.astype(str)] of a categorical: every cell becomes a string, the
    missing cell the string ["nan"]. *)
Definition astype_str (c : Column) : Column :=
  match c with
  | CatCol _ vals => ObjectCol ((λ v, Some (default "nan" v)) <$> vals)
  | _ => c
  end.

(** The cells of a string-valued column read as plain strings: those of an
    object column as they are, those of a categorical after [astype(str)]. *)
Definition plain_values (c : Column) : list (option string) :=
  match astype_str c with
  | ObjectCol vals => vals
  | _ => []
  end.

Definition present (vals : list (option string)) : list string := omap id vals.

(** The levels [pd.Categorical] infers: the distinct present values in
    ascending order. *)
Definition inferred_categories (vals : list (option string)) : list string :=
  group_keys str_leb vals.

(** A cell under new levels: values that are not levels become missing. *)
Definition recode (categories : list string) (v : option string)
    : option string :=
  match v with
  | Some s => if bool_decide (s ∈ categories) then Some s else None
  | None => None
  end.

(** [pd.Categorical(values, categories=...)].  Without [categories] the
    levels are inferred (an already categorical input keeps its own);
    given levels must be unique. *)
Definition Categorical (values : Column) (categories : option (list string))
    : Result Column :=
  match values, categories with
  | NumCol _, _ => Raise Unmodelled
  | ObjectCol vals, None => Ok (CatCol (inferred_categories vals) vals)
  | CatCol cats vals, None => Ok (CatCol cats vals)
  | (ObjectCol vals | CatCol _ vals), Some cats =>
      if bool_decide (NoDup cats)
      then Ok (CatCol cats (recode cats <$> vals))
      else Raise ValueError
  end.

(** The invariant of a pandas categorical: the levels are unique and every
    present cell is one of them. *)
Definition wf_column (c : Column) : Prop :=
  match c with
  | CatCol cats vals => NoDup cats ∧ ∀ s, Some s ∈ vals → s ∈ cats
  | _ => True
  end.

Definition wf_frame (df : DataFrame) : Prop :=
  ∀ c col, get_column df c = Some col → wf_column col.

(** A categorical with its levels in the opposite order. *)
Definition reverse_levels_of (c : Column) : Column :=
  match c with
  | CatCol cats vals => CatCol (reverse cats) vals
  | _ => c
  end.

(** [series.cat.remove_unused_categories()] *)
Definition remove_unused_categories (c : Column) : Column :=
  match c with
  | CatCol cats vals =>
      CatCol (filter (λ k, Some k ∈ vals) cats) vals
  | _ => c
  end.

(** [series.isin(categories)] *)
Definition isin (vals : list (option string)) (categories : list string)
    : list bool :=
  (λ v, match v with
        | Some s => bool_decide (s ∈ categories)
        | None => false
        end) <$> vals.

(** The cells after [series[mask] = label]. *)
Definition assign_where (mask : list bool) (label : string)
    (vals : list (option string)) : list (option string) :=
  zip_with (λ (m : bool) v, if m then Some label else v) mask vals.

(** ** The object store *)

(** Tables are objects: [copy()] and indexing allocate a new one, item
    assignment updates one in place.  A location is a position in the
    store. *)
Definition loc := nat.
Definition store := list DataFrame.

Definition M (A : Type) : Type := store → Result A * store.

#[global] Instance M_ret : MRet M := λ A a σ, (Ok a, σ).
#[global] Instance M_bind : MBind M := λ A B f m σ,
  match m σ with
  | (Ok a, σ') => f a σ'
  | (Raise e, σ') => (Raise e, σ')
  end.

Definition throw {A} (e : exn) : M A := λ σ, (Raise e, σ).

Definition lift {A} (r : Result A) : M A := λ σ, (r, σ).

Definition read (l : loc) : M DataFrame := λ σ,
  match σ !! l with
  | Some df => (Ok df, σ)
  | None => (Raise Unmodelled, σ)
  end.

Definition write (l : loc) (df : DataFrame) : M unit := λ σ,
  (Ok (), <[l := df]> σ).

Definition alloc (df : DataFrame) : M loc := λ σ,
  (Ok (length σ), σ ++ [df]).

(** [df.copy()] *)
Definition copy (l : loc) : M loc :=
  df ← read l; alloc df.

(** [df.columns] *)
Definition columns_of (l : loc) : M (list Label) :=
  df ← read l; mret (labels (df_columns df)).

(** [df[c]] *)
Definition getitem (l : loc) (c : Label) : M Column :=
  df ← read l;
  match get_column df c with
  | Some col => mret col
  | None => throw KeyError
  end.

(** [df.loc[:, c] = col] *)
Definition setitem (l : loc) (c : Label) (col : Column) : M unit :=
  df ← read l;
  match set_column df c col with
  | Some df' => write l df'
  | None => throw Unmodelled
  end.

(** [df[mask]]: a new table with the rows where the mask holds. *)
Definition getitem_mask (l : loc) (mask : list bool) : M loc :=
  df ← read l;
  if Nat.eqb (length mask) (nrows df)
  then alloc (filter_rows mask df)
  else throw ValueError.

(** The table a computation returns, and the store it leaves. *)
Definition returns (m : M loc) (σ : store) (df : DataFrame) : Prop :=
  ∃ l, (m σ).1 = Ok l ∧ (m σ).2 !! l = Some df.

(** Calling a method on a table that is alone in the store. *)
Definition call (method : loc → M loc) (df : DataFrame) : Result DataFrame :=
  let '(r, σ) := method 0 [df] in
  l ← r;
  match σ !! l with
  | Some df' => Ok df'
  | None => Raise Unmodelled
  end.

(** [yields σ x r]: the run [x] of a method from the store [σ] left every
    object of [σ] as it was and only added objects; when the table-level
    result [r] is a table, the method returned a new object, allocated
    last, that holds it; when [r] is an exception, the method raised it. *)
Definition yields (σ : store) (x : Result loc * store)
    (r : Result DataFrame) : Prop :=
  ∃ k, x.2 = σ ++ k ∧
    match r with
    | Ok df' => ∃ k', k = k' ++ [df'] ∧ x.1 = Ok (length (σ ++ k'))
    | Raise e => x.1 = Raise e
    end.

(** ** kinda_tidy *)

Module KindaTidy.

(** Python truth values of the optional arguments: [None], the empty
    string, zero and the empty list are false. *)
Definition truthy_str (s : option string) : bool :=
  match s with
  | Some s => negb (String.eqb s "")
  | None => false
  end.

Definition truthy_int (n : option Z) : bool :=
  match n with
  | Some n => negb (n =? 0)%Z
  | None => false
  end.

(** [np.sum] as [groupby(...).agg] applies it: missing values are
    skipped. *)
Definition np_sum (vals : list num) : num :=
  num_sum (filter (λ v, is_nan v = false) vals).

(** *** set_categorical *)

Section set_categorical.
Variable category_col : string.
Variable value_col : option string.
Variable aggregator : list num → num.
Variable reverse_levels : bool.          (* [reverse] *)
Variable top_n : option Z.
Variable keep_other : bool.
Variable other_label : string.

(** The inner function of [_set_categorical]: the groups of
    [category_col] with their aggregate of [value_col], largest first. *)
Definition sort_for_categories (value_col : string) (df : loc)
    : M (list (string * num)) :=
  keys ← getitem df (Name category_col);
  vals ← getitem df (Name value_col);
  match keys, vals with
  | ObjectCol ks, NumCol vs =>
      mret (sort_values_desc (groupby_agg str_leb ks vs aggregator))
  | _, _ => throw Unmodelled
  end.

Definition set_categorical (self : loc) : M loc :=
  res ← copy self;
  (* recast to string if the column is currently categorical *)
  col ← getitem res (Name category_col);
  (if is_categorical_dtype col
   then setitem res (Name category_col) (astype_str col)
   else mret ());;
  if negb (truthy_str value_col) then
    col ← getitem res (Name category_col);
    cat ← lift (Categorical col None);
    setitem res (Name category_col) cat;;
    mret res
  else
    let value_col := default "" value_col in
    sort_data ← sort_for_categories value_col res;
    let categories := slice_to top_n sort_data.*1 in
    (* relabel or remove others *)
    res ← (if truthy_int top_n then
             col ← getitem res (Name category_col);
             match str_values col with
             | Some vals =>
                 let keep_row_mask := isin vals categories in
                 if keep_other then
                   setitem res (Name category_col)
                     (ObjectCol (assign_where (negb <$> keep_row_mask)
                                   other_label vals));;
                   mret res
                 else
                   kept ← getitem_mask res keep_row_mask;
                   copy kept
             | None => throw Unmodelled
             end
           else mret res);
    (* recalculate order with possible new _other category *)
    final_data ← sort_for_categories value_col res;
    let final_categories :=
      if reverse_levels then reverse final_data.*1 else final_data.*1 in
    col ← getitem res (Name category_col);
    cat ← lift (Categorical col (Some final_categories));
    setitem res (Name category_col) cat;;
    mret res.
End set_categorical.

(** *** drop_unused_levels, reverse_categories *)

(** The [target_columns] argument: absent, one name, or a list of names. *)
Inductive Target :=
  | TNone
  | TName (s : string)
  | TList (l : list string).

Definition target_truthy (t : Target) : bool :=
  match t with
  | TNone | TName "" | TList [] => false
  | _ => true
  end.

(** [_adapt_scalar_to_vector], after the default has been filled in. *)
Definition adapt_scalar_to_vector (t : Target) (all : list Label)
    : list Label :=
  match t with
  | TNone => all
  | TName s => [Name s]
  | TList l => Name <$> l
  end.

Definition target_labels (t : Target) (all : list Label) : list Label :=
  adapt_scalar_to_vector (if target_truthy t then t else TNone) all.

Fixpoint for_each {A} (l : list A) (body : A → M unit) : M unit :=
  match l with
  | [] => mret ()
  | x :: l' => body x;; for_each l' body
  end.

Definition drop_unused_levels (target_columns : Target) (self : loc)
    : M loc :=
  res ← copy self;
  all ← columns_of res;
  for_each (target_labels target_columns all) (λ c,
    col ← getitem res c;
    if is_categorical_dtype col
    then setitem res c (remove_unused_categories col)
    else mret ());;
  mret res.

Definition categories_of (c : Column) : list string :=
  match c with
  | CatCol cats _ => cats
  | _ => []
  end.

Definition reverse_categories (target_columns : Target) (self : loc)
    : M loc :=
  res ← copy self;
  all ← columns_of res;
  for_each (target_labels target_columns all) (λ c,
    col ← getitem res c;
    if is_categorical_dtype col
    then
      cat ← lift (Categorical col (Some (reverse (categories_of col))));
      setitem res c cat
    else mret ());;
  mret res.

(** *** flatten_columns *)

Definition py_str_atom (a : Atom) : string :=
  match a with
  | AStr s => s
  | AInt z => pretty z
  end.

Definition list_values_to_string (input_list : list Atom) : list string :=
  py_str_atom <$> input_list.

(** [sep.join(parts)] *)
Fixpoint join (sep : string) (parts : list string) : string :=
  match parts with
  | [] => ""
  | [p] => p
  | p :: parts' => p +:+ sep +:+ join sep parts'
  end.

Definition in_chars (chars : string) (c : ascii) : bool :=
  bool_decide (c ∈ list_ascii_of_string chars).

Fixpoint lstrip (chars : string) (s : list ascii) : list ascii :=
  match s with
  | c :: s' => if in_chars chars c then lstrip chars s' else s
  | [] => []
  end.

(** [s.strip(chars)]: leading and trailing characters that occur in
    [chars] are removed. *)
Definition strip (chars : string) (s : string) : string :=
  string_of_list_ascii
    (rev (lstrip chars (rev (lstrip chars (list_ascii_of_string s))))).

Definition flat_name (sep : string) (col : list Atom) : string :=
  strip sep (join sep (list_values_to_string col)).

Definition flatten_columns (sep : string) (self : loc) : M loc :=
  df ← read self;
  match df_columns df with
  | Index _ => mret self
  | MultiIndex _ =>
      temp_df ← copy self;
      df' ← read temp_df;
      match df_columns df' with
      | MultiIndex cols =>
          write temp_df
            {| df_index := df_index df';
               df_columns := Index (prod_map (flat_name sep) id <$> cols) |}
      | Index _ => mret ()
      end;;
      mret temp_df
  end.

(** *** select_rows *)

Definition select_rows (predicate : DataFrame → list bool) (self : loc)
    : M loc :=
  df ← read self;
  selected ← getitem_mask self (predicate df);
  copy selected.

(** *** equisample *)

Section equisample.
(** [choose n m]: the [n] positions below [m] that the random source of
    [DataFrame.sample] draws. *)
Variable choose : nat → nat → list nat.

(** Sampling without replacement draws distinct positions of the group. *)
Definition valid_choice : Prop :=
  ∀ n m, n ≤ m →
    length (choose n m) = n ∧ NoDup (choose n m) ∧
    Forall (λ i, i < m) (choose n m).

(** [grp.sample(n)], without replacement. *)
Definition sample (n : nat) (rows : list nat) : Result (list nat) :=
  if n <=? length rows
  then Ok (take_positions (choose n (length rows)) rows)
  else Raise ValueError.

Definition key_column (df : DataFrame) (g : string)
    : Result (list (option string)) :=
  match get_column df (Name g) with
  | Some (ObjectCol vals) => Ok vals
  | Some _ => Raise Unmodelled
  | None => Raise KeyError
  end.

(** The group key of a row: the tuple of its cells in the grouping
    columns; rows with a missing cell have none. *)
Definition row_key (key_cols : list (list (option string))) (i : nat)
    : option (list string) :=
  mapM (λ col, mjoin (col !! i)) key_cols.

Definition row_keys (df : DataFrame)
    (key_cols : list (list (option string))) : list (option (list string)) :=
  row_key key_cols <$> seq 0 (nrows df).

Definition min_size (sizes : list nat) : nat :=
  match sizes with
  | [] => 0
  | s :: sizes' => foldr Nat.min s sizes'
  end.

(** [tidy_groupby(grouping).size()['size']]: the row count of every
    group. *)
Definition group_sizes (keys : list (option (list string))) : list nat :=
  (λ k, length (group_rows keys k)) <$> group_keys tuple_leb keys.

(** The group key of every row of the table under [grouping]. *)
Definition frame_keys (df : DataFrame) (grouping : list string)
    : Result (list (option (list string))) :=
  key_cols ← mapM (key_column df) grouping;
  Ok (row_keys df key_cols).

Definition equisample (df : DataFrame) (grouping : list string)
    (n : option nat) : Result DataFrame :=
  if bool_decide (grouping = []) then Raise ValueError else
  keys ← frame_keys df grouping;
  let groups := (λ k, group_rows keys k) <$> group_keys tuple_leb keys in
  let n :=
    match n with
    | Some (S n) => S n
    | _ => min_size (group_sizes keys)
    end in
  sampled ← mapM (sample n) groups;
  Ok (take_rows (concat sampled) df).
End equisample.

(** *** The methods as functions on tables

    What each method computes, read off the table it is called on: the
    same steps without the store.  The [*_run] lemmas below show that the
    methods above return a new object holding exactly these tables. *)

Definition getitem_frame (df : DataFrame) (c : Label) : Result Column :=
  match get_column df c with
  | Some col => Ok col
  | None => Raise KeyError
  end.

Definition setitem_frame (df : DataFrame) (c : Label) (col : Column)
    : Result DataFrame :=
  match set_column df c col with
  | Some df' => Ok df'
  | None => Raise Unmodelled
  end.

Definition getitem_mask_frame (df : DataFrame) (mask : list bool)
    : Result DataFrame :=
  if Nat.eqb (length mask) (nrows df)
  then Ok (filter_rows mask df)
  else Raise ValueError.

Section set_categorical_frame.
Variable category_col : string.
Variable value_col : option string.
Variable aggregator : list num → num.
Variable reverse_levels : bool.
Variable top_n : option Z.
Variable keep_other : bool.
Variable other_label : string.

Definition sort_for_categories_frame (value_col : string) (df : DataFrame)
    : Result (list (string * num)) :=
  keys ← getitem_frame df (Name category_col);
  vals ← getitem_frame df (Name value_col);
  match keys, vals with
  | ObjectCol ks, NumCol vs =>
      Ok (sort_values_desc (groupby_agg str_leb ks vs aggregator))
  | _, _ => Raise Unmodelled
  end.

(** The table after the recast of an already categorical column. *)
Definition recast_frame (df : DataFrame) : Result DataFrame :=
  col ← getitem_frame df (Name category_col);
  if is_categorical_dtype col
  then setitem_frame df (Name category_col) (astype_str col)
  else Ok df.

(** The table after the [top_n] step. *)
Definition truncate_frame (value_col : string) (res : DataFrame)
    : Result DataFrame :=
  sort_data ← sort_for_categories_frame value_col res;
  let categories := slice_to top_n sort_data.*1 in
  if truthy_int top_n then
    col ← getitem_frame res (Name category_col);
    match str_values col with
    | Some vals =>
        let keep_row_mask := isin vals categories in
        if keep_other then
          setitem_frame res (Name category_col)
            (ObjectCol (assign_where (negb <$> keep_row_mask)
                          other_label vals))
        else getitem_mask_frame res keep_row_mask
    | None => Raise Unmodelled
    end
  else Ok res.

(** The table with the levels inferred (no value column). *)
Definition infer_frame (res : DataFrame) : Result DataFrame :=
  col ← getitem_frame res (Name category_col);
  cat ← Categorical col None;
  setitem_frame res (Name category_col) cat.

(** The table with the levels ranked by the aggregate. *)
Definition relevel_frame (value_col : string) (res : DataFrame)
    : Result DataFrame :=
  final_data ← sort_for_categories_frame value_col res;
  let final_categories :=
    if reverse_levels then reverse final_data.*1 else final_data.*1 in
  col ← getitem_frame res (Name category_col);
  cat ← Categorical col (Some final_categories);
  setitem_frame res (Name category_col) cat.

Definition set_categorical_frame (df : DataFrame) : Result DataFrame :=
  res ← recast_frame df;
  if negb (truthy_str value_col) then infer_frame res
  else
    let value_col := default "" value_col in
    res ← truncate_frame value_col res;
    relevel_frame value_col res.
End set_categorical_frame.

Fixpoint for_each_frame {A} (l : list A)
    (body : A → DataFrame → Result DataFrame) (df : DataFrame)
    : Result DataFrame :=
  match l with
  | [] => Ok df
  | x :: l' => df' ← body x df; for_each_frame l' body df'
  end.

Definition drop_step (c : Label) (df : DataFrame) : Result DataFrame :=
  col ← getitem_frame df c;
  if is_categorical_dtype col
  then setitem_frame df c (remove_unused_categories col)
  else Ok df.

Definition drop_unused_levels_frame (target_columns : Target)
    (df : DataFrame) : Result DataFrame :=
  for_each_frame (target_labels target_columns (labels (df_columns df)))
    drop_step df.

Definition reverse_step (c : Label) (df : DataFrame) : Result DataFrame :=
  col ← getitem_frame df c;
  if is_categorical_dtype col
  then
    cat ← Categorical col (Some (reverse (categories_of col)));
    setitem_frame df c cat
  else Ok df.

Definition reverse_categories_frame (target_columns : Target)
    (df : DataFrame) : Result DataFrame :=
  for_each_frame (target_labels target_columns (labels (df_columns df)))
    reverse_step df.

Definition flatten_columns_frame (sep : string) (df : DataFrame)
    : DataFrame :=
  match df_columns df with
  | Index _ => df
  | MultiIndex cols =>
      {| df_index := df_index df;
         df_columns := Index (prod_map (flat_name sep) id <$> cols) |}
  end.

Definition select_rows_frame (predicate : DataFrame → list bool)
    (df : DataFrame) : Result DataFrame :=
  getitem_mask_frame df (predicate df).

End KindaTidy.

(** The four methods that work on a copy of their input, with arbitrary
    arguments. *)
Inductive copying_method : (loc → M loc) → Prop :=
  | method_set_categorical category_col value_col aggregator reverse_levels
      top_n keep_other other_label :
      copying_method
        (KindaTidy.set_categorical category_col value_col aggregator
           reverse_levels top_n keep_other other_label)
  | method_drop_unused_levels target_columns :
      copying_method (KindaTidy.drop_unused_levels target_columns)
  | method_reverse_categories target_columns :
      copying_method (KindaTidy.reverse_categories target_columns)
  | method_select_rows predicate :
      copying_method (KindaTidy.select_rows predicate).

(** ** kinda_tidy_fortify *)

Module Fortify.

(** A pandas Series of numbers: row labels and values. *)
Record Series := {
  s_index : list Z;
  s_values : list num
}.

(** What [fortify] reads of a fitted statsmodels result: the table the
    model was fitted on ([model.data.frame]) and the fitted values, a
    Series labelled by the rows that took part in the fit. *)
Record ResultsWrapper := {
  model_data_frame : loc;
  fittedvalues : Series
}.

(** [series[label]] *)
Definition series_get (s : Series) (label : Z) : option num :=
  alist_get label (zip (s_index s) (s_values s)).

(** The values of a Series laid out on the rows of a table, as item
    assignment does: as they are when the labels coincide, otherwise by
    label, rows without a value getting the missing value; labels that
    occur twice in the Series cannot be laid out.  Assigning to a table
    without rows is outside the model. *)
Definition reindex_for_setitem (s : Series) (index : list Z)
    : Result (list num) :=
  if bool_decide (s_index s = index) then Ok (s_values s)
  else if bool_decide (index = []) then Raise Unmodelled
  else if bool_decide (NoDup (s_index s))
  then Ok ((λ label, default NaN (series_get s label)) <$> index)
  else Raise ValueError.

(** [df[name] = series] *)
Definition setitem_series (l : loc) (name : string) (s : Series) : M unit :=
  df ← read l;
  vals ← lift (reindex_for_setitem s (df_index df));
  setitem l (Name name) (NumCol vals).

Definition fortify_statsmodels (self : ResultsWrapper) : M loc :=
  data ← copy (model_data_frame self);
  setitem_series data "fitted" (fittedvalues self);;
  mret data.

End Fortify.

(** ** The tables of the repository's tests *)

Module Examples.
Import KindaTidy Fortify.

Definition ints (l : list Z) : list num := (λ z, Fin (inject_Z z)) <$> l.

(** [input_df] of [kinda_tidy_test.py]. *)
Definition input_df : DataFrame :=
  {| df_index := [0; 1; 2; 3; 4; 5]%Z;
     df_columns :=
       Index [("group", ObjectCol (Some <$> ["a"; "a"; "a"; "b"; "b"; "c"]));
              ("value", NumCol (ints [1; 2; 3; 4; 5; 7]%Z))] |}.

(** The same table with categorical columns that carry an unused level. *)
Definition levels_df : DataFrame :=
  {| df_index := [0; 1; 2; 3; 4; 5]%Z;
     df_columns :=
       Index [("group1", CatCol ["a"; "b"; "c"; "unused"]
                           (Some <$> ["a"; "a"; "a"; "b"; "b"; "c"]));
              ("group2", CatCol ["a"; "b"; "c"; "unused"]
                           (Some <$> ["a"; "a"; "a"; "b"; "b"; "c"]));
              ("value", NumCol (ints [1; 2; 3; 4; 5; 7]%Z))] |}.

(** A table with a two-level header. *)
Definition multiindex_df : DataFrame :=
  {| df_index := [0; 1; 2]%Z;
     df_columns :=
       MultiIndex [([AStr "col1_level1"; AInt 1], NumCol (ints [1; 2; 3]%Z));
                   ([AStr "col2_level1"; AStr ""],
                    NumCol (ints [1; 2; 3]%Z))] |}.

(** The table of the [equisample] test: four rows of ["a"], three of
    ["b"]. *)
Definition equisample_df : DataFrame :=
  {| df_index := [0; 1; 2; 3; 4; 5; 6]%Z;
     df_columns :=
       Index [("l1", ObjectCol (Some <$> ["a"; "a"; "a"; "a"; "b"; "b"; "b"]));
              ("l2", ObjectCol (Some <$> ["c"; "c"; "d"; "d"; "c"; "c"; "d"]));
              ("value", NumCol (ints [0; 1; 2; 3; 4; 5; 6]%Z))] |}.

(** A source of draws that takes the first positions. *)
Definition first_positions (n m : nat) : list nat := seq 0 n.

(** [df_nan_predictor] of [kinda_tidy_fortify_test.py], and a fit on it:
    the row labelled 2 has no predictor and takes no part in the fit. *)
Definition df_nan_predictor : DataFrame :=
  {| df_index := [0; 1; 2; 3]%Z;
     df_columns :=
       Index [("x", NumCol [Fin 1; Fin 2; NaN; Fin 4]);
              ("y", NumCol (ints [1; 2; 3; 4]%Z))] |}.

Definition fit_nan_predictor : ResultsWrapper :=
  {| model_data_frame := 0;
     fittedvalues := {| s_index := [0; 1; 3]%Z;
                        s_values := ints [1; 2; 4]%Z |} |}.

(** The levels of a column of a returned table. *)
Definition category_levels (r : Result DataFrame) (c : string)
    : option (list string) :=
  match r with
  | Ok df =>
      match get_column df (Name c) with
      | Some (CatCol cats _) => Some cats
      | _ => None
      end
  | Raise _ => None
  end.

(** [input_df] with [group] ranked by the sum of [value]. *)
Definition ranked_df : DataFrame :=
  {| df_index := [0; 1; 2; 3; 4; 5]%Z;
     df_columns :=
       Index [("group", CatCol ["b"; "c"; "a"]
                          (Some <$> ["a"; "a"; "a"; "b"; "b"; "c"]));
              ("value", NumCol (ints [1; 2; 3; 4; 5; 7]%Z))] |}.

End Examples.

(** ** Further definitions *)

(** How often a loop over the labels [ls] visits the column [c]. *)
Definition visits (c : Label) (ls : list Label) : nat :=
  length (filter (λ c', c' = c) ls).

(** The shape of a pandas table: every column has one cell per row. *)
Definition aligned (df : DataFrame) : Prop :=
  match df_columns df with
  | Index cols => Forall (λ kc, col_length kc.2 = nrows df) cols
  | MultiIndex cols => Forall (λ kc, col_length kc.2 = nrows df) cols
  end.

(** ** kinda_tidy: select_columns *)

Module SelectColumns.
Import KindaTidy.

(** The [reg_ex_list] argument: one pattern or a list of patterns. *)
Inductive RegExList :=
  | RScalar (s : string)
  | RList (l : list string).

(** [_adapt_scalar_to_vector(reg_ex_list)] *)
Definition patterns_of (r : RegExList) : list string :=
  match r with
  | RScalar s => [s]
  | RList l => l
  end.

(** ['|'.join(map(lambda i: '(' + i + ')', patterns))] *)
Definition joined_pattern (patterns : list string) : string :=
  join "|" ((λ i, "(" +:+ i +:+ ")") <$> patterns).

Section select_columns.
(** [re.compile(pattern, **kwargs)]: the compiled pattern, as the test
    [pattern.fullmatch(name) is not None], or nothing when the text is
    not a regular expression ([re.error]). *)
Variable re_compile : string → option (string → bool).

(** [df[names]] for a list of names: a new table with, for each name in
    turn, the columns of that name. *)
Definition getitem_names (l : loc) (names : list string) : M loc :=
  df ← read l;
  match df_columns df with
  | Index cols =>
      alloc {| df_index := df_index df;
               df_columns :=
                 Index (names ≫= λ n, filter (λ kc, kc.1 = n) cols) |}
  | MultiIndex _ => throw Unmodelled
  end.

Definition select_columns (reg_ex_list : RegExList) (self : loc) : M loc :=
  match re_compile (joined_pattern (patterns_of reg_ex_list)) with
  | None => throw Unmodelled
  | Some fullmatch =>
      df ← read self;
      match df_columns df with
      | MultiIndex (_ :: _) =>
          (* [fullmatch] of a tuple *)
          throw TypeError
      | MultiIndex [] =>
          selected ← alloc df;
          copy selected
      | Index cols =>
          let selected_cols :=
            filter (λ col, fullmatch col = true) cols.*1 in
          selected ← getitem_names self selected_cols;
          copy selected
      end
  end.
End select_columns.

End SelectColumns.

(** ** plotnine_utils: quarter_labels *)

Module QuarterLabels.

(** What [strftimeq] reads of [pd.Timestamp(x)]: the year and the month
    (1 to 12). *)
Record Timestamp := {
  year : Z;
  month : Z
}.

(** [Timestamp.quarter] *)
Definition quarter (dt : Timestamp) : Z := ((month dt - 1) / 3 + 1)%Z.

Definition strftimeq (dt : Timestamp) : string :=
  pretty (year dt) +:+ "Q" +:+ pretty (quarter dt).

Definition quarter_labels (date_list : list Timestamp) : list string :=
  strftimeq <$> date_list.

End QuarterLabels.

(** A text without the letter [Q]. *)
Definition no_Q (s : string) : Prop := "Q"%char ∉ list_ascii_of_string s.

(** ** More tables for the examples *)

Module MoreExamples.
Import KindaTidy Fortify SelectColumns QuarterLabels Examples.

(** [levels_df] without the unused level. *)
Definition dropped_df : DataFrame :=
  {| df_index := [0; 1; 2; 3; 4; 5]%Z;
     df_columns :=
       Index [("group1", CatCol ["a"; "b"; "c"]
                           (Some <$> ["a"; "a"; "a"; "b"; "b"; "c"]));
              ("group2", CatCol ["a"; "b"; "c"]
                           (Some <$> ["a"; "a"; "a"; "b"; "b"; "c"]));
              ("value", NumCol (ints [1; 2; 3; 4; 5; 7]%Z))] |}.

(** [input_df] with [group] categorical, levels in alphabetical order. *)
Definition alphabetical_df : DataFrame :=
  {| df_index := [0; 1; 2; 3; 4; 5]%Z;
     df_columns :=
       Index [("group", CatCol ["a"; "b"; "c"]
                          (Some <$> ["a"; "a"; "a"; "b"; "b"; "c"]));
              ("value", NumCol (ints [1; 2; 3; 4; 5; 7]%Z))] |}.

(** A table whose categorical column has a missing cell and an unused
    level. *)
Definition missing_df : DataFrame :=
  {| df_index := [0; 1; 2]%Z;
     df_columns :=
       Index [("group", CatCol ["b"; "a"; "unused"]
                          [Some "b"; None; Some "a"]);
              ("value", NumCol (ints [1; 2; 3]%Z))] |}.

(** A fit on every row of [df_nan_predictor], and fitted values whose
    labels repeat. *)
Definition fit_every_row : ResultsWrapper :=
  {| model_data_frame := 0;
     fittedvalues := {| s_index := [0; 1; 2; 3]%Z;
                        s_values := ints [1; 2; 3; 4]%Z |} |}.

Definition fit_repeated_labels : ResultsWrapper :=
  {| model_data_frame := 0;
     fittedvalues := {| s_index := [0; 0; 1]%Z;
                        s_values := ints [1; 2; 4]%Z |} |}.

(** A table whose last two rows carry the same label, the last one
    without a predictor, and a fit on it: the rows at the positions 0 and
    1 took part, the fitted values carry their labels. *)
Definition df_shared_label : DataFrame :=
  {| df_index := [0; 1; 1]%Z;
     df_columns :=
       Index [("x", NumCol [Fin 1; Fin 2; NaN]);
              ("y", NumCol (ints [1; 2; 3]%Z))] |}.

Definition fit_shared_label : ResultsWrapper :=
  {| model_data_frame := 0;
     fittedvalues := {| s_index := [0; 1]%Z;
                        s_values := ints [10; 20]%Z |} |}.

(** A table whose first two rows carry the same label, the last row
    without a predictor, and a fit on it: again the rows at the positions
    0 and 1 took part. *)
Definition df_shared_fitted_label : DataFrame :=
  {| df_index := [0; 0; 1]%Z;
     df_columns :=
       Index [("x", NumCol [Fin 1; Fin 2; NaN]);
              ("y", NumCol (ints [1; 2; 3]%Z))] |}.

Definition fit_shared_fitted_label : ResultsWrapper :=
  {| model_data_frame := 0;
     fittedvalues := {| s_index := [0; 0]%Z;
                        s_values := ints [10; 20]%Z |} |}.

(** The column [fitted] of the table that a run of [fortify] returned. *)
Definition fitted_column (x : Result loc * store) : option (list num) :=
  match x.1 with
  | Ok data =>
      match x.2 !! data ≫= λ out, get_column out (Name "fitted") with
      | Some (NumCol fitted) => Some fitted
      | _ => None
      end
  | Raise _ => None
  end.

(** A matcher for the one pattern of the example: the alternatives
    [value] and [group], in this order. *)
Definition compile_value_or_group (pattern : string)
    : option (string → bool) :=
  if String.eqb pattern "(value)|(group)"
  then Some (λ name, String.eqb name "value" || String.eqb name "group")
  else None.

Definition august_2022 : Timestamp := {| year := 2022; month := 8 |}.

End MoreExamples.

(** * Properties *)

(** ** mean_weighted *)

Section WeightedFacts.
Import Weighted.

Lemma num_add_nan_l y : num_add NaN y = NaN.
Proof. reflexivity. Qed.

Lemma num_add_nan_r x : num_add x NaN = NaN.
Proof. by destruct x. Qed.

Lemma num_mul_nan_l y : num_mul NaN y = NaN.
Proof. reflexivity. Qed.

Lemma num_mul_nan_r x : num_mul x NaN = NaN.
Proof. by destruct x. Qed.

Lemma num_div_nan_l y : num_div NaN y = NaN.
Proof. reflexivity. Qed.

Lemma num_div_nan_r x : num_div x NaN = NaN.
Proof. by destruct x. Qed.

Lemma num_sum_nan (l : list num) : NaN ∈ l → num_sum l = NaN.
Proof.
  induction l as [|x l IH]; intros Hin; [inversion Hin|].
  apply elem_of_cons in Hin as [<-|Hin]; simpl; [reflexivity|].
  rewrite (IH Hin). apply num_add_nan_r.
Qed.

(** A missing value anywhere in either operand makes the dot product
    missing, whatever the other operand holds at that position. *)
Lemma num_dot_nan (xs ys : list num) :
  length xs = length ys → NaN ∈ xs ∨ NaN ∈ ys → num_dot xs ys = NaN.
Proof.
  revert ys. induction xs as [|x xs IH]; intros [|y ys] Hlen Hnan;
    simpl in *; try discriminate.
  - destruct Hnan as [Hnan|Hnan]; inversion Hnan.
  - injection Hlen as Hlen.
    assert (Hcases : x = NaN ∨ y = NaN ∨ (NaN ∈ xs ∨ NaN ∈ ys)).
    { destruct Hnan as [Hnan|Hnan]; apply elem_of_cons in Hnan;
        destruct Hnan as [->|Hnan]; auto. }
    destruct Hcases as [->|[->|Hrest]].
    + reflexivity.
    + by rewrite num_mul_nan_r.
    + rewrite (IH ys Hlen Hrest). apply num_add_nan_r.
Qed.

Lemma num_sum_fin (ws : list Q) : num_sum (Fin <$> ws) = Fin (Qsum ws).
Proof. induction ws as [|w ws IH]; csimpl; [done|]. by rewrite IH. Qed.

Lemma num_dot_fin (vs ws : list Q) :
  num_dot (Fin <$> vs) (Fin <$> ws) = Fin (Qdot vs ws).
Proof.
  revert ws. induction vs as [|v vs IH]; intros [|w ws]; csimpl; try done.
  by rewrite IH.
Qed.

Lemma existsb_lt0_nonneg (ws : list Q) :
  Forall (λ w, (0 <= w)%Q) ws → existsb num_lt0 (Fin <$> ws) = false.
Proof.
  induction 1 as [|w ws Hw _ IH]; csimpl; [done|].
  rewrite IH, orb_false_r.
  apply negb_false_iff, Qle_bool_iff, Hw.
Qed.

Lemma existsb_lt0_elem (ws : list num) w :
  w ∈ ws → num_lt0 w = true → existsb num_lt0 ws = true.
Proof.
  intros Hin Hw. apply existsb_exists. exists w. split; [|done].
  by apply list_elem_of_In.
Qed.

(** X23: the check of the weights comes first.  As soon as one weight is
    negative (minus infinity included) [mean_weighted] raises
    [ValueError], whatever the values are and whether or not the two
    operands have the same length: the library is not called. *)
Theorem mean_weighted_negative_weight values weights w :
  w ∈ weights → num_lt0 w = true →
  mean_weighted values weights = Raise ValueError.
Proof.
  intros Hin Hw. unfold mean_weighted.
  by rewrite (existsb_lt0_elem _ _ Hin Hw).
Qed.

(** X24: not-a-number propagates.  On operands of equal length without a
    negative weight, a not-a-number among the values or among the weights
    (which the comparison [w < 0] lets through) makes the product sum
    not-a-number, so [mean_weighted] returns not-a-number and raises no
    error, whatever the other values and weights are. *)
Theorem mean_weighted_nan_propagates values weights :
  length values = length weights →
  (∀ w, w ∈ weights → num_lt0 w = false) →
  NaN ∈ values ∨ NaN ∈ weights →
  mean_weighted values weights = Ok NaN.
Proof.
  intros Hlen Hneg Hnan. unfold mean_weighted, DescrStatsW_mean.
  assert (existsb num_lt0 weights = false) as ->.
  { apply not_true_is_false. intros Hex.
    apply existsb_exists in Hex as (w & Hin & Hw).
    apply list_elem_of_In in Hin. specialize (Hneg w Hin). congruence. }
  rewrite Hlen, Nat.eqb_refl. f_equal.
  rewrite (num_dot_nan _ _ Hlen Hnan). reflexivity.
Qed.

End WeightedFacts.

(** ** kmgt_labels *)

Section PlotnineFacts.
Import Plotnine.
Variable py_str : Q → string.

Lemma power_map_lookup_None (k : Z) :
  (k < 0 ∨ 8 < k)%Z → power_map !! k = None.
Proof.
  intros Hk. unfold power_map. apply not_elem_of_list_to_map_1.
  cbn. rewrite !elem_of_cons, elem_of_nil. lia.
Qed.

Lemma power_map_lookup_Some (k : Z) :
  (0 <= k <= 8)%Z → is_Some (power_map !! k).
Proof.
  intros Hk.
  assert (k = 0 ∨ k = 1 ∨ k = 2 ∨ k = 3 ∨ k = 4 ∨ k = 5 ∨ k = 6 ∨ k = 7
          ∨ k = 8)%Z as Hcases by lia.
  repeat (destruct Hcases as [->|Hcases]; [by eexists|]).
  subst k. by eexists.
Qed.

(** The label of a number is defined exactly when the number is zero or
    its scale is not negative: scales above eight take the unscaled branch,
    scales from zero to eight are keys of [power_map], and a negative scale
    is looked up in [power_map] and is not one of its keys. *)
Lemma label_one_ok_iff prefix suffix (num : Q) :
  is_ok (label_one py_str prefix suffix num) = true
  ↔ (num == 0)%Q ∨ (0 <= mille_scale_of num)%Z.
Proof.
  unfold label_one.
  destruct (Qeq_bool num 0) eqn:Hz.
  { apply Qeq_bool_iff in Hz. simpl. tauto. }
  apply Qeq_bool_neq in Hz.
  destruct (8 <? mille_scale_of num)%Z eqn:Hbig.
  { apply Z.ltb_lt in Hbig. simpl. split; [right; lia|done]. }
  apply Z.ltb_ge in Hbig.
  destruct (Z_lt_le_dec (mille_scale_of num) 0) as [Hneg|Hpos].
  - rewrite power_map_lookup_None by auto. simpl.
    split; [discriminate|intros [?|?]; [done|lia]].
  - destruct (power_map_lookup_Some (mille_scale_of num)) as [u ->]; [lia|].
    simpl. split; auto.
Qed.

Lemma label_one_unscaled prefix suffix (num : Q) :
  ¬ (num == 0)%Q → (8 < mille_scale_of num)%Z →
  label_one py_str prefix suffix num = Ok (prefix +:+ py_str num +:+ suffix).
Proof.
  intros Hz Hbig. unfold label_one.
  destruct (Qeq_bool num 0) eqn:Hz'; [by apply Qeq_bool_iff in Hz'|].
  apply Z.ltb_lt in Hbig. by rewrite Hbig.
Qed.

Example kmgt_labels_zero prefix suffix :
  kmgt_labels py_str prefix suffix [0%Q] = Ok ["0"].
Proof. reflexivity. Qed.

Example kmgt_labels_1230 :
  kmgt_labels py_str "" "" [1230 # 1]%Q = Ok ["1.23K"].
Proof. vm_compute. reflexivity. Qed.

Example kmgt_labels_beyond_Y prefix suffix :
  kmgt_labels py_str prefix suffix [Qpow10 27]
  = Ok [prefix +:+ py_str (Qpow10 27) +:+ suffix].
Proof.
  unfold kmgt_labels. cbn [mapM].
  rewrite label_one_unscaled; [reflexivity|discriminate|].
  vm_compute. reflexivity.
Qed.

(** The table of [test_kmgt_formatting]: 1.23 times the powers of ten up
    to 10^26. *)
Example kmgt_labels_test_table :
  kmgt_labels py_str "" ""
    ((λ k, (123 # 100) * Qpow10 (Z.of_nat k))%Q <$> seq 0 27)
  = Ok ["1.23"; "12.3"; "123"; "1.23K"; "12.3K"; "123K"; "1.23M"; "12.3M";
        "123M"; "1.23G"; "12.3G"; "123G"; "1.23T"; "12.3T"; "123T";
        "1.23P"; "12.3P"; "123P"; "1.23E"; "12.3E"; "123E"; "1.23Z";
        "12.3Z"; "123Z"; "1.23Y"; "12.3Y"; "123Y"].
Proof. vm_compute. reflexivity. Qed.

(** ** C7 *)

(** C7: [kmgt_labels] does not map every list of numbers to labels: on
    [[0.5]] the scale computed by [label_one] is [-1], which passes the
    [mille_scale > 8] guard and is then looked up in [power_map], whose keys
    are 0 to 8; the call ends in [KeyError] instead of a label, for every
    prefix and suffix. *)
Theorem kmgt_labels_half_raises prefix suffix :
  mille_scale_of (1 # 2) = (-1)%Z
  ∧ kmgt_labels py_str prefix suffix [1 # 2]%Q = Raise KeyError.
Proof. split; vm_compute; reflexivity. Qed.

End PlotnineFacts.

(** ** Orders *)

Section OrderFacts.

Lemma ascii_compare_lt a b :
  Ascii.compare a b = Lt ↔ (N_of_ascii a < N_of_ascii b)%N.
Proof. unfold Ascii.compare. apply N.compare_lt_iff. Qed.

Lemma ascii_compare_gt a b :
  Ascii.compare a b = Gt ↔ (N_of_ascii b < N_of_ascii a)%N.
Proof. unfold Ascii.compare. apply N.compare_gt_iff. Qed.

Lemma ascii_compare_eq a b : Ascii.compare a b = Eq ↔ a = b.
Proof.
  split; [apply Ascii.compare_eq_iff|intros ->].
  unfold Ascii.compare. apply N.compare_refl.
Qed.

Lemma string_compare_refl s : String.compare s s = Eq.
Proof.
  induction s as [|c s IH]; simpl; [done|].
  by rewrite (proj2 (ascii_compare_eq c c) eq_refl).
Qed.

Ltac ascii_order :=
  repeat match goal with
    | H : Ascii.compare _ _ = Lt |- _ =>
        apply (proj1 (ascii_compare_lt _ _)) in H
    | H : Ascii.compare _ _ = Gt |- _ =>
        apply (proj1 (ascii_compare_gt _ _)) in H
    | H : Ascii.compare _ _ = Eq |- _ =>
        apply (proj1 (ascii_compare_eq _ _)) in H; subst
    end.

Lemma string_compare_trans a b c :
  String.compare a b ≠ Gt → String.compare b c ≠ Gt →
  String.compare a c ≠ Gt.
Proof.
  revert b c. induction a as [|x a IH]; intros [|y b] [|z c]; simpl;
    try done.
  destruct (Ascii.compare x y) eqn:Hxy, (Ascii.compare y z) eqn:Hyz,
    (Ascii.compare x z) eqn:Hxz; try done; ascii_order; intros Hab Hbc;
    first [done | lia | solve [eauto]].
Qed.

Lemma str_leb_spec a b : str_leb a b = true ↔ String.compare a b ≠ Gt.
Proof. unfold str_leb, String.leb. by destruct (String.compare a b). Qed.

Lemma str_leb_refl a : str_leb a a = true.
Proof. apply str_leb_spec. by rewrite string_compare_refl. Qed.

Lemma str_leb_total a b : str_leb a b = true ∨ str_leb b a = true.
Proof. apply String.leb_total. Qed.

Lemma str_leb_trans a b c :
  str_leb a b = true → str_leb b c = true → str_leb a c = true.
Proof. rewrite !str_leb_spec. apply string_compare_trans. Qed.

Lemma str_leb_antisym a b :
  str_leb a b = true → str_leb b a = true → a = b.
Proof. apply String.leb_antisym. Qed.

Lemma tuple_leb_total a b : tuple_leb a b = true ∨ tuple_leb b a = true.
Proof.
  revert b. induction a as [|x a IH]; intros [|y b]; simpl; auto.
  rewrite (String.compare_antisym y x).
  destruct (String.compare x y); simpl; auto.
Qed.

Lemma num_desc_leb_total x y :
  num_desc_leb x y = true ∨ num_desc_leb y x = true.
Proof.
  destruct x as [a| | |], y as [b| | |]; simpl; auto.
  rewrite !Qle_bool_iff. destruct (Qlt_le_dec a b); auto using Qlt_le_weak.
Qed.

Lemma num_desc_leb_trans x y z :
  num_desc_leb x y = true → num_desc_leb y z = true →
  num_desc_leb x z = true.
Proof.
  destruct x as [a| | |], y as [b| | |], z as [c| | |]; simpl; try done.
  rewrite !Qle_bool_iff. intros Hba Hcb. by apply Qle_trans with b.
Qed.

End OrderFacts.

(** ** Insertion sort *)

Section SortFacts.
Context {A : Type} (leb : A → A → bool).
Implicit Types l : list A.

Let R (a b : A) : Prop := leb a b = true.

Lemma insert_sorted_Permutation x l : insert_sorted leb x l ≡ₚ x :: l.
Proof.
  induction l as [|y l IH]; simpl; [done|].
  destruct (leb x y); [done|]. by rewrite IH, Permutation_swap.
Qed.

Lemma isort_Permutation l : isort leb l ≡ₚ l.
Proof.
  induction l as [|x l IH]; simpl; [done|].
  by rewrite insert_sorted_Permutation, IH.
Qed.

Lemma elem_of_isort x l : x ∈ isort leb l ↔ x ∈ l.
Proof. by rewrite isort_Permutation. Qed.

Lemma length_isort l : length (isort leb l) = length l.
Proof. by rewrite isort_Permutation. Qed.

Lemma NoDup_isort l : NoDup (isort leb l) ↔ NoDup l.
Proof. by rewrite isort_Permutation. Qed.

Hypothesis leb_total : ∀ a b, leb a b = true ∨ leb b a = true.
Hypothesis leb_trans :
  ∀ a b c, leb a b = true → leb b c = true → leb a c = true.

Lemma insert_sorted_StronglySorted x l :
  StronglySorted R l → StronglySorted R (insert_sorted leb x l).
Proof using leb_total leb_trans.
  induction 1 as [|y l Hl IH Hy]; simpl.
  - repeat constructor.
  - destruct (leb x y) eqn:Hxy.
    + constructor; [by constructor|].
      constructor; [done|].
      eapply Forall_impl; [exact Hy|]. intros z Hz. by eapply leb_trans.
    + constructor; [done|].
      rewrite insert_sorted_Permutation. constructor; [|done].
      destruct (leb_total x y) as [Hc|Hc]; [congruence|done].
Qed.

Lemma isort_StronglySorted l : StronglySorted R (isort leb l).
Proof using leb_total leb_trans.
  induction l as [|x l IH]; simpl; [constructor|].
  by apply insert_sorted_StronglySorted.
Qed.

(** In a sorted list every element of a prefix is ahead of every element
    of the rest. *)
Lemma StronglySorted_take_drop n l x y :
  StronglySorted R l → x ∈ take n l → y ∈ drop n l → R x y.
Proof.
  intros Hl Hx Hy. rewrite <-(take_drop n l) in Hl.
  apply StronglySorted_app in Hl as (Hxy & _ & _). by apply Hxy.
Qed.
End SortFacts.

(** ** Group keys *)

Section GroupFacts.
Context {K : Type} `{EqDecision K} (leb : K → K → bool).
Implicit Types keys : list (option K).

Lemma elem_of_present keys k : k ∈ omap id keys ↔ Some k ∈ keys.
Proof.
  rewrite list_elem_of_omap. split.
  - intros (o & Ho & Heq). simpl in Heq. by subst.
  - intros Hin. by exists (Some k).
Qed.

Lemma elem_of_group_keys keys k : k ∈ group_keys leb keys ↔ Some k ∈ keys.
Proof.
  unfold group_keys.
  by rewrite elem_of_isort, elem_of_remove_dups, elem_of_present.
Qed.

Lemma NoDup_group_keys keys : NoDup (group_keys leb keys).
Proof. unfold group_keys. rewrite NoDup_isort. apply NoDup_remove_dups. Qed.

Lemma length_groupby_agg {V R} keys (vals : list V) (agg : list V → R) :
  length (groupby_agg leb keys vals agg) = length (group_keys leb keys).
Proof. unfold groupby_agg. by rewrite length_fmap. Qed.

Lemma groupby_agg_keys {V R} keys (vals : list V) (agg : list V → R) :
  (groupby_agg leb keys vals agg).*1 = group_keys leb keys.
Proof.
  unfold groupby_agg. rewrite <-list_fmap_compose.
  apply list_fmap_id.
Qed.
End GroupFacts.

(** ** Running the store operations *)

Section StoreFacts.
Import KindaTidy.
Implicit Types (σ : store) (d df : DataFrame) (c : Label).

Lemma run_bind {A B} (m : M A) (f : A → M B) σ :
  (m ≫= f) σ
  = match m σ with
    | (Ok a, σ') => f a σ'
    | (Raise e, σ') => (Raise e, σ')
    end.
Proof. reflexivity. Qed.

Lemma run_ret {A} (a : A) σ : (mret a : M A) σ = (Ok a, σ).
Proof. reflexivity. Qed.

Lemma run_lift {A} (r : Result A) σ : lift r σ = (r, σ).
Proof. reflexivity. Qed.

Lemma run_throw {A} e σ : (throw e : M A) σ = (Raise e, σ).
Proof. reflexivity. Qed.

Lemma read_at σ l d : σ !! l = Some d → read l σ = (Ok d, σ).
Proof. intros H. unfold read. by rewrite H. Qed.

Lemma lookup_last σ d : (σ ++ [d]) !! length σ = Some d.
Proof. by rewrite list_lookup_middle. Qed.

Lemma read_last σ d : read (length σ) (σ ++ [d]) = (Ok d, σ ++ [d]).
Proof. apply read_at, lookup_last. Qed.

Lemma insert_last σ d d' : <[length σ := d']> (σ ++ [d]) = σ ++ [d'].
Proof.
  rewrite insert_app_r_alt by lia. by rewrite Nat.sub_diag.
Qed.

Lemma copy_at σ l d : σ !! l = Some d → copy l σ = (Ok (length σ), σ ++ [d]).
Proof. intros H. unfold copy. rewrite run_bind, (read_at _ _ _ H). done. Qed.

Lemma copy_last σ d :
  copy (length σ) (σ ++ [d]) = (Ok (length (σ ++ [d])), (σ ++ [d]) ++ [d]).
Proof. apply copy_at, lookup_last. Qed.

Lemma columns_of_last σ d :
  columns_of (length σ) (σ ++ [d]) = (Ok (labels (df_columns d)), σ ++ [d]).
Proof. unfold columns_of. by rewrite run_bind, read_last. Qed.

Lemma getitem_last σ d c :
  getitem (length σ) c (σ ++ [d]) = (getitem_frame d c, σ ++ [d]).
Proof.
  unfold getitem, getitem_frame. rewrite run_bind, read_last.
  by destruct (get_column d c).
Qed.

Lemma setitem_last σ d c col :
  setitem (length σ) c col (σ ++ [d])
  = match setitem_frame d c col with
    | Ok d' => (Ok (), σ ++ [d'])
    | Raise e => (Raise e, σ ++ [d])
    end.
Proof.
  unfold setitem, setitem_frame. rewrite run_bind, read_last.
  destruct (set_column d c col); [|done].
  unfold write. by rewrite insert_last.
Qed.

Lemma getitem_mask_at σ l d mask :
  σ !! l = Some d →
  getitem_mask l mask σ
  = match getitem_mask_frame d mask with
    | Ok d' => (Ok (length σ), σ ++ [d'])
    | Raise e => (Raise e, σ)
    end.
Proof.
  intros H. unfold getitem_mask, getitem_mask_frame.
  rewrite run_bind, (read_at _ _ _ H).
  by destruct (Nat.eqb _ _).
Qed.

Lemma getitem_mask_last σ d mask :
  getitem_mask (length σ) mask (σ ++ [d])
  = match getitem_mask_frame d mask with
    | Ok d' => (Ok (length (σ ++ [d])), (σ ++ [d]) ++ [d'])
    | Raise e => (Raise e, σ ++ [d])
    end.
Proof. apply getitem_mask_at, lookup_last. Qed.

(** *** What [yields] gives *)

Lemma yields_frame σ x r l :
  yields σ x r → l < length σ → x.2 !! l = σ !! l.
Proof. intros (k & -> & _) Hl. by apply lookup_app_l. Qed.

Lemma yields_returns σ x r df' :
  yields σ x r → r = Ok df' →
  ∃ l, x.1 = Ok l ∧ length σ ≤ l ∧ x.2 !! l = Some df'.
Proof.
  intros (k & Hσ & Hr) ->. destruct Hr as (k' & -> & Hl).
  exists (length (σ ++ k')). split; [done|]. split.
  - rewrite length_app. lia.
  - rewrite Hσ, app_assoc. apply lookup_last.
Qed.

Lemma yields_raises σ x r e : yields σ x r → r = Raise e → x.1 = Raise e.
Proof. by intros (k & _ & Hr) ->. Qed.

Lemma yields_ok_last σ k d :
  yields σ (Ok (length (σ ++ k)), (σ ++ k) ++ [d]) (Ok d).
Proof. exists (k ++ [d]). split; [by rewrite app_assoc|]. by exists k. Qed.

Lemma yields_raise σ k e : yields σ (Raise e, σ ++ k) (Raise e).
Proof. by exists k. Qed.

Lemma yields_ok0 σ d : yields σ (Ok (length σ), σ ++ [d]) (Ok d).
Proof. exists [d]. split; [done|]. exists []. by rewrite app_nil_r. Qed.

Lemma yields_ok2 σ a b d :
  yields σ (Ok (length ((σ ++ [a]) ++ [b])), ((σ ++ [a]) ++ [b]) ++ [d])
    (Ok d).
Proof. rewrite <-(app_assoc σ [a] [b]). apply yields_ok_last. Qed.

Lemma yields_raise1 σ a e : yields σ (Raise e, σ ++ [a]) (Raise e).
Proof. apply yields_raise. Qed.

Lemma yields_raise2 σ a b e : yields σ (Raise e, (σ ++ [a]) ++ [b]) (Raise e).
Proof. rewrite <-app_assoc. apply yields_raise. Qed.

Lemma yields_raise3 σ a b d e :
  yields σ (Raise e, ((σ ++ [a]) ++ [b]) ++ [d]) (Raise e).
Proof. rewrite <-!app_assoc. apply yields_raise. Qed.

Lemma Result_bind_Ok {A B} (f : A → Result B) a : Ok a ≫= f = f a.
Proof. reflexivity. Qed.

Lemma Result_bind_Raise {A B} (f : A → Result B) e : Raise e ≫= f = Raise e.
Proof. reflexivity. Qed.

Lemma yields_call (method : loc → M loc) df r :
  yields [df] (method 0 [df]) r → call method df = r.
Proof.
  intros Hy. unfold call. destruct (method 0 [df]) as [x τ] eqn:Hrun.
  destruct r as [df'|e].
  - destruct (yields_returns _ _ _ df' Hy eq_refl) as (l & Hl & _ & Hlook).
    simpl in *. subst x. simpl. by rewrite Hlook.
  - apply yields_raises with (e := e) in Hy; [|done]. simpl in Hy.
    by subst x.
Qed.

End StoreFacts.

(** ** Association lists and columns *)

Section AlistFacts.
Context {K V : Type} `{EqDecision K}.
Implicit Types (l : list (K * V)) (k : K) (v : V).

Lemma alist_get_set_eq k v l : alist_get k (alist_set k v l) = Some v.
Proof.
  induction l as [|[k' v'] l IH]; simpl.
  - by rewrite decide_True.
  - destruct (decide (k = k')); simpl.
    + by rewrite decide_True.
    + by rewrite decide_False.
Qed.

Lemma alist_get_set_ne k k' v l :
  k ≠ k' → alist_get k' (alist_set k v l) = alist_get k' l.
Proof.
  intros Hne. induction l as [|[k1 v1] l IH]; simpl.
  - rewrite decide_False; [done|congruence].
  - destruct (decide (k = k1)) as [->|]; simpl.
    + rewrite !decide_False; [done|congruence|congruence].
    + destruct (decide (k' = k1)); [done|apply IH].
Qed.

Lemma alist_set_alter f k v l :
  alist_get k l = Some v → alist_set k (f v) l = alist_alter f k l.
Proof.
  induction l as [|[k' v'] l IH]; simpl; [done|].
  destruct (decide (k = k')) as [->|]; [congruence|].
  intros Hget. by rewrite IH.
Qed.

Lemma alist_get_alter f k k' l :
  alist_get k' (alist_alter f k l)
  = (if decide (k = k') then f else id) <$> alist_get k' l.
Proof.
  induction l as [|[k1 v1] l IH]; simpl; [done|].
  destruct (decide (k = k1)) as [->|Hne]; simpl.
  - destruct (decide (k' = k1)) as [->|].
    + by rewrite decide_True.
    + destruct (alist_get k' l); simpl; [|done].
      rewrite decide_False; [done|congruence].
  - destruct (decide (k' = k1)) as [->|]; [|apply IH].
    simpl. by rewrite decide_False.
Qed.

Lemma alist_alter_keys f k l : (alist_alter f k l).*1 = l.*1.
Proof.
  induction l as [|[k' v'] l IH]; [done|]. cbn [alist_alter].
  destruct (decide (k = k')); csimpl; by rewrite ?IH.
Qed.

Lemma alist_alter_compose f g k l :
  alist_alter f k (alist_alter g k l) = alist_alter (f ∘ g) k l.
Proof.
  induction l as [|[k' v'] l IH]; simpl; [done|].
  destruct (decide (k = k')) as [->|]; simpl.
  - by rewrite decide_True.
  - rewrite decide_False by done. by rewrite IH.
Qed.

Lemma alist_alter_id f k l : (∀ v, f v = v) → alist_alter f k l = l.
Proof.
  intros Hf. induction l as [|[k' v'] l IH]; simpl; [done|].
  destruct (decide (k = k')); by rewrite ?Hf, ?IH.
Qed.

Lemma alist_alter_comm f g k k' l :
  k ≠ k' →
  alist_alter f k (alist_alter g k' l)
  = alist_alter g k' (alist_alter f k l).
Proof.
  intros Hne. induction l as [|[k1 v1] l IH]; simpl; [done|].
  destruct (decide (k' = k1)) as [->|], (decide (k = k1)) as [->|]; simpl;
    rewrite ?decide_True, ?decide_False by done;
    first [done | by rewrite IH | by rewrite decide_True].
Qed.

Lemma alist_get_is_Some k l : is_Some (alist_get k l) ↔ k ∈ l.*1.
Proof.
  induction l as [|[k' v'] l IH]; csimpl.
  - split; [by intros [? ?]|by intros ?%elem_of_nil].
  - rewrite elem_of_cons. destruct (decide (k = k')) as [->|].
    + split; [by left|by eexists].
    + rewrite IH. split; [by right|]. by intros [?|?].
Qed.
End AlistFacts.

Section ColumnFacts.
Implicit Types (df : DataFrame) (c : Label) (col : Column).

Lemma get_set_column_eq df c col df' :
  set_column df c col = Some df' → get_column df' c = Some col.
Proof.
  unfold set_column, get_column.
  destruct (df_columns df) as [cols|cols], c as [s|t]; try done;
    intros [= <-]; simpl; apply alist_get_set_eq.
Qed.

Lemma get_set_column_ne df c c' col df' :
  set_column df c col = Some df' → c ≠ c' →
  get_column df' c' = get_column df c'.
Proof.
  unfold set_column, get_column.
  destruct (df_columns df) as [cols|cols], c as [s|t]; try done;
    intros [= <-] Hne; simpl; destruct c' as [s'|t']; try done;
    apply alist_get_set_ne; congruence.
Qed.

Lemma set_column_index df c col df' :
  set_column df c col = Some df' → df_index df' = df_index df.
Proof.
  unfold set_column.
  destruct (df_columns df), c; try done; by intros [= <-].
Qed.

Lemma set_column_is_Some df c col col' :
  get_column df c = Some col → is_Some (set_column df c col').
Proof.
  unfold set_column, get_column.
  destruct (df_columns df), c; try done; by eexists.
Qed.

Lemma set_column_alter f df c col :
  get_column df c = Some col →
  set_column df c (f col) = Some (alter_column f c df).
Proof.
  unfold set_column, get_column, alter_column.
  destruct (df_columns df) as [cols|cols], c as [s|t]; try done;
    intros Hget; by rewrite (alist_set_alter f _ _ _ Hget).
Qed.

Lemma get_alter_column f df c c' :
  get_column (alter_column f c df) c'
  = (if decide (c = c') then f else id) <$> get_column df c'.
Proof.
  unfold get_column, alter_column. simpl.
  destruct (df_columns df) as [cols|cols], c as [s|t], c' as [s'|t'];
    simpl; try done; rewrite ?alist_get_alter.
  all: repeat case_decide; subst;
    first [done | congruence | by destruct (alist_get _ _)].
Qed.

Lemma labels_alter_column f df c :
  labels (df_columns (alter_column f c df)) = labels (df_columns df).
Proof.
  unfold alter_column. simpl.
  destruct (df_columns df), c; simpl; by rewrite ?alist_alter_keys.
Qed.

Lemma alter_column_compose f g c df :
  alter_column f c (alter_column g c df) = alter_column (f ∘ g) c df.
Proof.
  unfold alter_column. simpl. f_equal.
  destruct (df_columns df), c; simpl; by rewrite ?alist_alter_compose.
Qed.

Lemma alter_column_id f c df : (∀ col, f col = col) → alter_column f c df = df.
Proof.
  intros Hf. destruct df as [idx cs]. unfold alter_column. simpl. f_equal.
  destruct cs, c; simpl; by rewrite ?alist_alter_id.
Qed.

Lemma alter_column_comm f g c c' df :
  c ≠ c' →
  alter_column f c (alter_column g c' df)
  = alter_column g c' (alter_column f c df).
Proof.
  intros Hne. unfold alter_column. simpl. f_equal.
  destruct (df_columns df) as [cols|cols], c as [s|t], c' as [s'|t'];
    simpl; try done; f_equal; apply alist_alter_comm; congruence.
Qed.

Lemma labels_get_column df c :
  c ∈ labels (df_columns df) ↔ is_Some (get_column df c).
Proof.
  unfold get_column, labels.
  destruct (df_columns df) as [cols|cols]; rewrite list_elem_of_fmap.
  - destruct c as [s|t].
    + rewrite alist_get_is_Some. split.
      * by intros (k & [= ->] & Hk).
      * intros Hs. by exists s.
    + split; [by intros (k & ? & _)|by intros [? ?]].
  - destruct c as [s|t].
    + split; [by intros (k & ? & _)|by intros [? ?]].
    + rewrite alist_get_is_Some. split.
      * by intros (k & [= ->] & Hk).
      * intros Ht. by exists t.
Qed.

End ColumnFacts.

(** ** The methods return the tables of their table-level reading *)

Section RunFacts.
Import KindaTidy.
Implicit Types (σ : store) (d df : DataFrame) (c : Label).

(** One step of a run whose current object is the last of the store. *)
Ltac run_step :=
  first
    [ rewrite run_bind
    | rewrite getitem_last
    | rewrite setitem_last
    | rewrite getitem_mask_last
    | rewrite copy_last
    | rewrite columns_of_last
    | rewrite run_ret
    | rewrite run_lift
    | rewrite run_throw ];
  cbv beta iota.

Lemma sort_for_categories_last category_col aggregator value_col σ d :
  sort_for_categories category_col aggregator value_col (length σ) (σ ++ [d])
  = (sort_for_categories_frame category_col aggregator value_col d, σ ++ [d]).
Proof.
  unfold sort_for_categories, sort_for_categories_frame.
  repeat run_step.
  destruct (getitem_frame d (Name category_col)) as [keys|]; [|done].
  repeat run_step.
  destruct (getitem_frame d (Name value_col)) as [vals|]; [|done].
  cbn. by destruct keys, vals.
Qed.

Section set_categorical_run.
Variable category_col : string.
Variable value_col : option string.
Variable aggregator : list num → num.
Variable reverse_levels : bool.
Variable top_n : option Z.
Variable keep_other : bool.
Variable other_label : string.

Lemma recast_run (K : M loc) σ d :
  (getitem (length σ) (Name category_col) ≫= λ col,
     (if is_categorical_dtype col
      then setitem (length σ) (Name category_col) (astype_str col)
      else mret ()) ≫= λ _, K) (σ ++ [d])
  = match recast_frame category_col d with
    | Ok d' => K (σ ++ [d'])
    | Raise e => (Raise e, σ ++ [d])
    end.
Proof.
  unfold recast_frame. repeat run_step.
  destruct (getitem_frame d (Name category_col)) as [col|e]; [|done].
  rewrite Result_bind_Ok. cbv beta iota. repeat run_step.
  destruct (is_categorical_dtype col); repeat run_step; [|done].
  by destruct (setitem_frame d (Name category_col) (astype_str col)).
Qed.

Lemma infer_run σ d :
  (getitem (length σ) (Name category_col) ≫= λ col,
     lift (Categorical col None) ≫= λ cat,
       setitem (length σ) (Name category_col) cat ≫= λ _,
         mret (length σ)) (σ ++ [d])
  = match infer_frame category_col d with
    | Ok d' => (Ok (length σ), σ ++ [d'])
    | Raise e => (Raise e, σ ++ [d])
    end.
Proof.
  unfold infer_frame. repeat run_step.
  destruct (getitem_frame d (Name category_col)) as [col|e]; [|done].
  rewrite Result_bind_Ok. cbv beta iota. repeat run_step.
  destruct (Categorical col None) as [cat|e]; [|done].
  rewrite Result_bind_Ok. cbv beta iota. repeat run_step.
  by destruct (setitem_frame d (Name category_col) cat).
Qed.

Lemma relevel_run value_col' σ d :
  (sort_for_categories category_col aggregator value_col' (length σ)
     ≫= λ final_data,
       let final_categories :=
         if reverse_levels then reverse final_data.*1 else final_data.*1 in
       getitem (length σ) (Name category_col) ≫= λ col,
         lift (Categorical col (Some final_categories)) ≫= λ cat,
           setitem (length σ) (Name category_col) cat ≫= λ _,
             mret (length σ)) (σ ++ [d])
  = match relevel_frame category_col aggregator reverse_levels value_col' d
    with
    | Ok d' => (Ok (length σ), σ ++ [d'])
    | Raise e => (Raise e, σ ++ [d])
    end.
Proof.
  unfold relevel_frame. rewrite run_bind, sort_for_categories_last.
  destruct (sort_for_categories_frame _ _ _ d) as [final_data|e]; [|done].
  rewrite Result_bind_Ok. cbv beta iota zeta. repeat run_step.
  destruct (getitem_frame d (Name category_col)) as [col|e]; [|done].
  rewrite Result_bind_Ok. cbv beta iota. repeat run_step.
  destruct (Categorical col _) as [cat|e]; [|done].
  rewrite Result_bind_Ok. cbv beta iota. repeat run_step.
  by destruct (setitem_frame d (Name category_col) cat).
Qed.

(** The [top_n] step either updates the current object or leaves it
    behind for a filtered copy; in both cases the continuation runs on a
    current object that holds the truncated table. *)
Lemma truncate_run value_col' (K : loc → M loc) σ d :
  ∃ k,
    (sort_for_categories category_col aggregator value_col' (length σ)
       ≫= λ sort_data,
         let categories := slice_to top_n sort_data.*1 in
         (if truthy_int top_n then
            getitem (length σ) (Name category_col) ≫= λ col,
              match str_values col with
              | Some vals =>
                  let keep_row_mask := isin vals categories in
                  if keep_other then
                    setitem (length σ) (Name category_col)
                      (ObjectCol (assign_where (negb <$> keep_row_mask)
                                    other_label vals));;
                    mret (length σ)
                  else
                    kept ← getitem_mask (length σ) keep_row_mask;
                    copy kept
              | None => throw Unmodelled
              end
          else mret (length σ)) ≫= K) (σ ++ [d])
    = match truncate_frame category_col aggregator top_n keep_other
              other_label value_col' d with
      | Ok d' => K (length (σ ++ k)) ((σ ++ k) ++ [d'])
      | Raise e => (Raise e, σ ++ k)
      end.
Proof.
  unfold truncate_frame. rewrite run_bind, sort_for_categories_last.
  destruct (sort_for_categories_frame _ _ _ d) as [sort_data|e];
    [|by exists [d]].
  rewrite Result_bind_Ok. cbv beta iota zeta.
  destruct (truthy_int top_n).
  2:{ exists []. repeat run_step. by rewrite app_nil_r. }
  repeat run_step.
  destruct (getitem_frame d (Name category_col)) as [col|e];
    [|by exists [d]].
  rewrite Result_bind_Ok. cbv beta iota.
  destruct (str_values col) as [vals|]; [|by exists [d]].
  destruct keep_other.
  - repeat run_step.
    destruct (setitem_frame d (Name category_col) _) as [d'|e];
      [|by exists [d]].
    exists []. repeat run_step. by rewrite app_nil_r.
  - repeat run_step.
    destruct (getitem_mask_frame d _) as [d'|e]; [|by exists [d]].
    exists [d; d']. repeat run_step.
    by rewrite <-(app_assoc σ [d] [d']).
Qed.

Lemma set_categorical_run σ self df :
  σ !! self = Some df →
  yields σ
    (set_categorical category_col value_col aggregator reverse_levels top_n
       keep_other other_label self σ)
    (set_categorical_frame category_col value_col aggregator reverse_levels
       top_n keep_other other_label df).
Proof.
  intros Hself. unfold set_categorical, set_categorical_frame.
  rewrite run_bind, (copy_at _ _ _ Hself). cbv beta iota.
  rewrite recast_run.
  destruct (recast_frame category_col df) as [d1|e];
    [|apply yields_raise1].
  rewrite Result_bind_Ok. cbv beta iota.
  destruct (negb (truthy_str value_col)).
  - rewrite infer_run.
    destruct (infer_frame category_col d1) as [d'|e];
      [apply yields_ok0|apply yields_raise1].
  - cbv zeta.
    destruct (truncate_run (default "" value_col)
                (λ res,
                   sort_for_categories category_col aggregator
                     (default "" value_col) res ≫= λ final_data,
                     let final_categories :=
                       if reverse_levels then reverse final_data.*1
                       else final_data.*1 in
                     getitem res (Name category_col) ≫= λ col,
                       lift (Categorical col (Some final_categories))
                       ≫= λ cat,
                         setitem res (Name category_col) cat ≫= λ _,
                           mret res) σ d1) as [k Hk].
    refine (eq_ind_r (λ x, yields σ x _) _ Hk). clear Hk.
    destruct (truncate_frame _ _ _ _ _ _ d1) as [d2|e];
      [|apply yields_raise].
    rewrite Result_bind_Ok. cbv beta iota.
    pose proof (relevel_run (default "" value_col) (σ ++ k) d2) as Hr.
    refine (eq_ind_r (λ x, yields σ x _) _ Hr). clear Hr.
    destruct (relevel_frame _ _ _ _ d2) as [d3|e].
    + apply yields_ok_last.
    + rewrite <-app_assoc. apply yields_raise.
Qed.
End set_categorical_run.

Lemma for_each_run {A} σ (body : A → M unit)
    (step : A → DataFrame → Result DataFrame) (l : list A) :
  (∀ x d, body x (σ ++ [d])
          = match step x d with
            | Ok d' => (Ok (), σ ++ [d'])
            | Raise e => (Raise e, σ ++ [d])
            end) →
  ∀ d, ∃ d'',
    for_each l body (σ ++ [d])
    = match for_each_frame l step d with
      | Ok d' => (Ok (), σ ++ [d'])
      | Raise e => (Raise e, σ ++ [d''])
      end.
Proof.
  intros Hbody. induction l as [|x l IH]; intros d; simpl.
  - by exists d.
  - rewrite run_bind, Hbody. destruct (step x d) as [d1|e].
    + rewrite Result_bind_Ok. apply IH.
    + by exists d.
Qed.

Lemma drop_step_run σ c d :
  (getitem (length σ) c ≫= λ col,
     if is_categorical_dtype col
     then setitem (length σ) c (remove_unused_categories col)
     else mret ()) (σ ++ [d])
  = match drop_step c d with
    | Ok d' => (Ok (), σ ++ [d'])
    | Raise e => (Raise e, σ ++ [d])
    end.
Proof.
  unfold drop_step. repeat run_step.
  destruct (getitem_frame d c) as [col|e]; [|done].
  rewrite Result_bind_Ok. cbv beta iota.
  destruct (is_categorical_dtype col); repeat run_step; [|done].
  by destruct (setitem_frame d c _).
Qed.

Lemma reverse_step_run σ c d :
  (getitem (length σ) c ≫= λ col,
     if is_categorical_dtype col
     then
       cat ← lift (Categorical col (Some (reverse (categories_of col))));
       setitem (length σ) c cat
     else mret ()) (σ ++ [d])
  = match reverse_step c d with
    | Ok d' => (Ok (), σ ++ [d'])
    | Raise e => (Raise e, σ ++ [d])
    end.
Proof.
  unfold reverse_step. repeat run_step.
  destruct (getitem_frame d c) as [col|e]; [|done].
  rewrite Result_bind_Ok. cbv beta iota.
  destruct (is_categorical_dtype col); repeat run_step; [|done].
  destruct (Categorical col _) as [cat|e]; [|done].
  rewrite Result_bind_Ok. cbv beta iota. repeat run_step.
  by destruct (setitem_frame d c _).
Qed.

Lemma drop_unused_levels_run target_columns σ self df :
  σ !! self = Some df →
  yields σ (drop_unused_levels target_columns self σ)
    (drop_unused_levels_frame target_columns df).
Proof.
  intros Hself. unfold drop_unused_levels, drop_unused_levels_frame.
  rewrite run_bind, (copy_at _ _ _ Hself). cbv beta iota.
  repeat run_step.
  destruct (for_each_run σ
              (λ c, getitem (length σ) c ≫= λ col,
                 if is_categorical_dtype col
                 then setitem (length σ) c (remove_unused_categories col)
                 else mret ())
              drop_step
              (target_labels target_columns (labels (df_columns df)))
              (drop_step_run σ) df) as [d'' ->].
  destruct (for_each_frame _ _ df) as [d'|e].
  - repeat run_step. apply yields_ok0.
  - apply yields_raise1.
Qed.

Lemma reverse_categories_run target_columns σ self df :
  σ !! self = Some df →
  yields σ (reverse_categories target_columns self σ)
    (reverse_categories_frame target_columns df).
Proof.
  intros Hself. unfold reverse_categories, reverse_categories_frame.
  rewrite run_bind, (copy_at _ _ _ Hself). cbv beta iota.
  repeat run_step.
  destruct (for_each_run σ
              (λ c, getitem (length σ) c ≫= λ col,
                 if is_categorical_dtype col
                 then
                   cat ← lift (Categorical col
                                 (Some (reverse (categories_of col))));
                   setitem (length σ) c cat
                 else mret ())
              reverse_step
              (target_labels target_columns (labels (df_columns df)))
              (reverse_step_run σ) df) as [d'' ->].
  destruct (for_each_frame _ _ df) as [d'|e].
  - repeat run_step. apply yields_ok0.
  - apply yields_raise1.
Qed.

Lemma select_rows_run predicate σ self df :
  σ !! self = Some df →
  yields σ (select_rows predicate self σ) (select_rows_frame predicate df).
Proof.
  intros Hself. unfold select_rows, select_rows_frame.
  rewrite run_bind, (read_at _ _ _ Hself). cbv beta iota.
  rewrite run_bind, (getitem_mask_at _ _ _ _ Hself).
  destruct (getitem_mask_frame df (predicate df)) as [d'|e].
  - rewrite copy_last. apply (yields_ok_last σ [d'] d').
  - exists []. by rewrite app_nil_r.
Qed.

(** [flatten_columns] hands back the very object it was called on when the
    header is flat, and a new object otherwise. *)
Lemma flatten_columns_run sep σ self df :
  σ !! self = Some df →
  flatten_columns sep self σ
  = match df_columns df with
    | Index _ => (Ok self, σ)
    | MultiIndex _ => (Ok (length σ), σ ++ [flatten_columns_frame sep df])
    end.
Proof.
  intros Hself. unfold flatten_columns, flatten_columns_frame.
  rewrite run_bind, (read_at _ _ _ Hself). cbv beta iota.
  destruct (df_columns df) as [cols|cols] eqn:Hcols; [done|].
  etransitivity; [apply run_bind|].
  rewrite (copy_at _ _ _ Hself). cbv beta iota.
  etransitivity; [apply run_bind|]. rewrite read_last. cbv beta iota.
  etransitivity; [apply run_bind|]. rewrite Hcols.
  unfold write. by rewrite insert_last.
Qed.

End RunFacts.

(** ** The methods work on a copy *)

Section PurityFacts.
Import KindaTidy.

Lemma yields_new σ x r :
  yields σ x r →
  (∀ l, l < length σ → x.2 !! l = σ !! l)
  ∧ (∀ res, x.1 = Ok res →
       length σ ≤ res ∧ ∃ df', r = Ok df' ∧ x.2 !! res = Some df').
Proof.
  intros Hy. split.
  - intros l Hl. by eapply yields_frame.
  - intros res Hres. destruct r as [df'|e].
    + destruct (yields_returns _ _ _ df' Hy eq_refl) as (l & Hl & Hge & Hlook).
      rewrite Hres in Hl. injection Hl as ->. eauto.
    + apply yields_raises with (e := e) in Hy; [|done]. congruence.
Qed.

Lemma copying_method_yields m σ self df :
  copying_method m → σ !! self = Some df → ∃ r, yields σ (m self σ) r.
Proof.
  intros Hm Hself. destruct Hm; eexists.
  - by apply set_categorical_run.
  - by apply drop_unused_levels_run.
  - by apply reverse_categories_run.
  - by apply select_rows_run.
Qed.

(** ** C10 *)

(** C10: [set_categorical], [drop_unused_levels], [reverse_categories] and
    [select_rows], with any arguments, leave the table they are called on
    as it was: after the call, whether it returned or raised, the input
    object holds the same table (rows, columns, values and level orders),
    and so does every other object that existed before; a returned table
    is a new object, one that did not exist before the call. *)
Theorem copying_methods_leave_input_unchanged m σ self df :
  copying_method m →
  σ !! self = Some df →
  (m self σ).2 !! self = Some df
  ∧ (∀ l, l < length σ → (m self σ).2 !! l = σ !! l)
  ∧ (∀ res, (m self σ).1 = Ok res →
       res ≠ self ∧ length σ ≤ res ∧ is_Some ((m self σ).2 !! res)).
Proof.
  intros Hm Hself.
  destruct (copying_method_yields m σ self df Hm Hself) as [r Hy].
  destruct (yields_new _ _ _ Hy) as [Hframe Hnew].
  assert (self < length σ) as Hlt by (by eapply lookup_lt_Some).
  split; [|split].
  - by rewrite Hframe.
  - exact Hframe.
  - intros res Hres. destruct (Hnew res Hres) as (Hge & df' & _ & Hlook).
    split; [lia|]. split; [done|by eexists].
Qed.

End PurityFacts.

(** ** Flattening twice, reversing twice *)

Section IdempotenceFacts.
Import KindaTidy.
Implicit Types (df d : DataFrame) (c : Label) (col : Column).

Lemma alist_alter_fixed {K V} `{EqDecision K} (f : V → V) (k : K) v
    (l : list (K * V)) :
  alist_get k l = Some v → f v = v → alist_alter f k l = l.
Proof.
  intros Hget Hf. induction l as [|[k' v'] l IH]; simpl in *; [done|].
  destruct (decide (k = k')) as [->|]; [|by rewrite IH].
  injection Hget as ->. by rewrite Hf.
Qed.

Lemma alter_column_fixed f c df col :
  get_column df c = Some col → f col = col → alter_column f c df = df.
Proof.
  destruct df as [idx cs]. unfold get_column, alter_column. simpl.
  intros Hget Hf. f_equal.
  destruct cs, c; try done; f_equal; by eapply alist_alter_fixed.
Qed.

Lemma recode_id cats (vals : list (option string)) :
  (∀ s, Some s ∈ vals → s ∈ cats) → recode cats <$> vals = vals.
Proof.
  intros Hin. induction vals as [|v vals IH]; csimpl; [done|].
  rewrite IH by (intros s Hs; apply Hin; by right). f_equal.
  destruct v as [s|]; simpl; [|done].
  rewrite bool_decide_eq_true_2; [done|]. apply Hin. by left.
Qed.

Lemma wf_reverse_levels_of col :
  wf_column col → wf_column (reverse_levels_of col).
Proof.
  destruct col as [| |cats vals]; simpl; try done.
  intros [Hnd Hin]. split.
  - by rewrite reverse_Permutation.
  - intros s Hs. rewrite elem_of_reverse. by apply Hin.
Qed.

Lemma reverse_levels_of_involutive col :
  reverse_levels_of (reverse_levels_of col) = col.
Proof. destruct col; simpl; by rewrite ?reverse_involutive. Qed.

Lemma Categorical_reverse col :
  wf_column col → is_categorical_dtype col = true →
  Categorical col (Some (reverse (categories_of col)))
  = Ok (reverse_levels_of col).
Proof.
  destruct col as [| |cats vals]; simpl; try done.
  intros [Hnd Hin] _.
  rewrite bool_decide_eq_true_2 by (by rewrite reverse_Permutation).
  rewrite recode_id; [done|].
  intros s Hs. rewrite elem_of_reverse. by apply Hin.
Qed.

Lemma reverse_step_wf c df :
  wf_frame df →
  reverse_step c df
  = match get_column df c with
    | Some _ => Ok (alter_column reverse_levels_of c df)
    | None => Raise KeyError
    end.
Proof.
  intros Hwf. unfold reverse_step, getitem_frame.
  destruct (get_column df c) as [col|] eqn:Hget; [|done].
  rewrite Result_bind_Ok.
  destruct (is_categorical_dtype col) eqn:Hcat.
  - rewrite Categorical_reverse by eauto. rewrite Result_bind_Ok.
    unfold setitem_frame.
    by rewrite (set_column_alter reverse_levels_of _ _ _ Hget).
  - rewrite (alter_column_fixed _ _ _ col); [done|done|].
    by destruct col.
Qed.

Lemma wf_alter_reverse c df :
  wf_frame df → wf_frame (alter_column reverse_levels_of c df).
Proof.
  intros Hwf c' col. rewrite get_alter_column.
  destruct (get_column df c') as [col'|] eqn:Hget; [|done].
  simpl. intros [= <-]. specialize (Hwf _ _ Hget).
  case_decide; [by apply wf_reverse_levels_of|done].
Qed.

Lemma is_Some_get_alter f c c' df :
  is_Some (get_column (alter_column f c df) c') ↔ is_Some (get_column df c').
Proof. rewrite get_alter_column. apply fmap_is_Some. Qed.

Lemma alter_reverse_twice c df :
  alter_column reverse_levels_of c (alter_column reverse_levels_of c df) = df.
Proof.
  rewrite alter_column_compose. apply alter_column_id.
  intros col. apply reverse_levels_of_involutive.
Qed.

Lemma alter_reverse_comm c c' df :
  alter_column reverse_levels_of c (alter_column reverse_levels_of c' df)
  = alter_column reverse_levels_of c' (alter_column reverse_levels_of c df).
Proof.
  destruct (decide (c = c')) as [->|Hne]; [done|].
  by apply alter_column_comm.
Qed.

(** Reversing one column first does not change what the loop does to the
    rest. *)
Lemma reverse_loop_alter ls c df :
  wf_frame df →
  for_each_frame ls reverse_step (alter_column reverse_levels_of c df)
  = alter_column reverse_levels_of c <$> for_each_frame ls reverse_step df.
Proof.
  revert df. induction ls as [|c0 ls IH]; intros df Hwf; simpl; [done|].
  rewrite !reverse_step_wf by auto using wf_alter_reverse.
  rewrite get_alter_column.
  destruct (get_column df c0) as [col|]; simpl; [|done].
  rewrite ?Result_bind_Ok, alter_reverse_comm.
  apply IH. by apply wf_alter_reverse.
Qed.

Lemma reverse_loop_labels ls df d1 :
  wf_frame df →
  for_each_frame ls reverse_step df = Ok d1 →
  wf_frame d1 ∧ labels (df_columns d1) = labels (df_columns df).
Proof.
  revert df. induction ls as [|c ls IH]; intros df Hwf; simpl.
  - by intros [= <-].
  - rewrite reverse_step_wf by done.
    destruct (get_column df c); [|done]. rewrite Result_bind_Ok.
    intros Hrest. apply IH in Hrest as [? ->]; [|by apply wf_alter_reverse].
    split; [done|apply labels_alter_column].
Qed.

Lemma reverse_loop_twice ls df d1 :
  wf_frame df →
  for_each_frame ls reverse_step df = Ok d1 →
  for_each_frame ls reverse_step d1 = Ok df.
Proof.
  revert df d1. induction ls as [|c ls IH]; intros df d1 Hwf; simpl.
  - by intros [= <-].
  - rewrite reverse_step_wf by done.
    destruct (get_column df c) as [col|] eqn:Hget; [|done].
    rewrite Result_bind_Ok. intros Hrest.
    pose proof (wf_alter_reverse c _ Hwf) as Hwf'.
    destruct (reverse_loop_labels _ _ _ Hwf' Hrest) as [Hwf1 Hlab].
    rewrite reverse_step_wf by done.
    assert (is_Some (get_column d1 c)) as [col1 ->].
    { apply labels_get_column. rewrite Hlab, labels_alter_column.
      apply labels_get_column. by eexists. }
    rewrite Result_bind_Ok, reverse_loop_alter by done.
    rewrite (IH _ _ Hwf' Hrest). simpl. by rewrite alter_reverse_twice.
Qed.

Lemma reverse_loop_total ls df :
  wf_frame df →
  (∀ c, c ∈ ls → is_Some (get_column df c)) →
  is_ok (for_each_frame ls reverse_step df) = true.
Proof.
  revert df. induction ls as [|c ls IH]; intros df Hwf Hin; simpl; [done|].
  rewrite reverse_step_wf by done.
  destruct (Hin c) as [col ->]; [by left|]. rewrite Result_bind_Ok.
  apply IH; [by apply wf_alter_reverse|].
  intros c' Hc'. apply is_Some_get_alter, Hin. by right.
Qed.

Lemma reverse_categories_frame_twice t df d1 :
  wf_frame df →
  reverse_categories_frame t df = Ok d1 →
  reverse_categories_frame t d1 = Ok df.
Proof.
  unfold reverse_categories_frame. intros Hwf H1.
  destruct (reverse_loop_labels _ _ _ Hwf H1) as [_ ->].
  by apply reverse_loop_twice.
Qed.

Lemma reverse_categories_frame_default df :
  wf_frame df → is_ok (reverse_categories_frame TNone df) = true.
Proof.
  intros Hwf. apply reverse_loop_total; [done|].
  intros c Hc. by apply labels_get_column.
Qed.

Lemma flatten_columns_frame_idem sep sep' df :
  flatten_columns_frame sep' (flatten_columns_frame sep df)
  = flatten_columns_frame sep df.
Proof. by destruct df as [idx [cols|cols]]. Qed.

Lemma returns_of_yields (m : M loc) σ d :
  yields σ (m σ) (Ok d) → returns m σ d.
Proof.
  intros Hy. destruct (yields_returns _ _ _ d Hy eq_refl) as (l & ? & _ & ?).
  by exists l.
Qed.

Lemma yields_of_returns (m : M loc) σ r d :
  yields σ (m σ) r → returns m σ d → r = Ok d.
Proof.
  intros Hy (l & Hl & Hlook). destruct r as [d'|e].
  - destruct (yields_returns _ _ _ d' Hy eq_refl) as (l' & Hl' & _ & Hlook').
    rewrite Hl in Hl'. injection Hl' as <-. congruence.
  - apply yields_raises with (e := e) in Hy; [congruence|done].
Qed.

(** ** C9 *)

(** C9: flattening the header twice is flattening it once: the second
    [flatten_columns], with any separator, hands back the object the first
    one returned and changes nothing, so the table is the flattened table
    of the first call.  Reversing twice restores the level order: on a
    table whose categoricals are well formed, when [reverse_categories]
    returns a table, [reverse_categories] with the same target on that
    table returns the original table, every categorical column with its
    original level order; with the default target the first call always
    returns. *)
Theorem flatten_twice_and_reverse_twice :
  (∀ sep sep' σ self df,
      σ !! self = Some df →
      ∃ l1,
        (flatten_columns sep self σ).1 = Ok l1
        ∧ (flatten_columns sep self σ).2 !! l1
          = Some (flatten_columns_frame sep df)
        ∧ flatten_columns sep' l1 (flatten_columns sep self σ).2
          = (Ok l1, (flatten_columns sep self σ).2)
        ∧ flatten_columns_frame sep' (flatten_columns_frame sep df)
          = flatten_columns_frame sep df)
  ∧ (∀ target σ self df,
      σ !! self = Some df → wf_frame df →
      (target = TNone → ∃ d1, returns (reverse_categories target self) σ d1)
      ∧ ∀ d1, returns (reverse_categories target self) σ d1 →
          ∀ σ' self', σ' !! self' = Some d1 →
            returns (reverse_categories target self') σ' df).
Proof.
  split.
  - intros sep sep' σ self df Hself.
    pose proof (flatten_columns_run sep σ self df Hself) as Hrun.
    destruct (df_columns df) as [cols|cols] eqn:Hcols.
    + rewrite Hrun. simpl. exists self.
      assert (flatten_columns_frame sep df = df) as Hfl.
      { unfold flatten_columns_frame. by rewrite Hcols. }
      rewrite Hfl. repeat split; [done| |].
      * rewrite (flatten_columns_run sep' σ self df Hself). by rewrite Hcols.
      * unfold flatten_columns_frame. by rewrite Hcols.
    + rewrite Hrun. simpl. exists (length σ).
      repeat split; [apply lookup_last| |apply flatten_columns_frame_idem].
      rewrite (flatten_columns_run sep' _ (length σ) _ (lookup_last _ _)).
      unfold flatten_columns_frame. by rewrite Hcols.
  - intros target σ self df Hself Hwf. split.
    + intros ->.
      pose proof (reverse_categories_run TNone σ self df Hself) as Hy.
      pose proof (reverse_categories_frame_default df Hwf) as Hok.
      destruct (reverse_categories_frame TNone df) as [d1|] eqn:H1; [|done].
      exists d1. by apply returns_of_yields.
    + intros d1 Hret σ' self' Hself'.
      pose proof (reverse_categories_run target σ self df Hself) as Hy.
      pose proof (yields_of_returns _ _ _ _ Hy Hret) as H1.
      apply returns_of_yields.
      rewrite <-(reverse_categories_frame_twice target df d1 Hwf H1).
      by apply reverse_categories_run.
Qed.

End IdempotenceFacts.

(** ** set_categorical *)

Section RankingFacts.
Implicit Types (keys : list (option string)) (vals : list num).

Lemma StronglySorted_fmap_strong {A B} (R : relation A) (R' : relation B)
    (f : A → B) (l : list A) :
  (∀ x y, x ∈ l → y ∈ l → R x y → R' (f x) (f y)) →
  StronglySorted R l → StronglySorted R' (f <$> l).
Proof.
  intros Hf Hl. induction Hl as [|x l Hl IH Hx]; csimpl; constructor.
  - apply IH. intros a b Ha Hb. apply Hf; by right.
  - rewrite Forall_fmap. rewrite Forall_forall in Hx |- *.
    intros y Hy. simpl. apply Hf; [by left|by right|by apply Hx].
Qed.

Lemma StronglySorted_NoDup_strict {A} (R : relation A) (l : list A) :
  StronglySorted R l → NoDup l → StronglySorted (λ a b, R a b ∧ a ≠ b) l.
Proof.
  induction 1 as [|x l Hl IH Hx]; intros Hnd; constructor.
  - apply IH. by apply NoDup_cons in Hnd as [_ ?].
  - apply NoDup_cons in Hnd as [Hnin _].
    rewrite Forall_forall in Hx |- *. intros y Hy. split; [by apply Hx|].
    intros ->. done.
Qed.

Lemma str_leb_ne_lt a b : str_leb a b = true → a ≠ b → str_lt a b.
Proof.
  unfold str_leb, String.leb, str_lt. intros Hle Hne.
  destruct (String.compare a b) eqn:Hc; [|done|done].
  by apply String.compare_eq_iff in Hc.
Qed.

Lemma inferred_categories_sorted keys :
  StronglySorted str_lt (inferred_categories keys).
Proof.
  pose proof (isort_StronglySorted str_leb str_leb_total str_leb_trans
                (remove_dups (omap id keys))) as Hs.
  apply StronglySorted_NoDup_strict in Hs;
    [|apply NoDup_isort, NoDup_remove_dups].
  unfold inferred_categories, group_keys.
  induction Hs as [|x l Hl IH Hx]; constructor; [done|].
  eapply Forall_impl; [exact Hx|]. intros y [? ?]. by apply str_leb_ne_lt.
Qed.

Lemma ranking_Permutation agg keys vals :
  ranking agg keys vals ≡ₚ inferred_categories keys.
Proof.
  unfold ranking, sort_values_desc. rewrite isort_Permutation.
  by rewrite groupby_agg_keys.
Qed.

Lemma elem_of_ranking agg keys vals s :
  s ∈ ranking agg keys vals ↔ Some s ∈ keys.
Proof. rewrite ranking_Permutation. apply elem_of_group_keys. Qed.

Lemma NoDup_ranking agg keys vals : NoDup (ranking agg keys vals).
Proof. rewrite ranking_Permutation. apply NoDup_group_keys. Qed.

Lemma ranking_sorted agg keys vals :
  StronglySorted (ranks_before agg keys vals) (ranking agg keys vals).
Proof.
  unfold ranking, sort_values_desc.
  set (rows := groupby_agg str_leb keys vals agg).
  assert (Hrows : ∀ p, p ∈ isort (λ a b, num_desc_leb a.2 b.2) rows →
                       p.2 = group_aggregate agg keys vals p.1).
  { intros p. rewrite elem_of_isort. unfold rows, groupby_agg.
    rewrite list_elem_of_fmap. by intros (k & -> & _). }
  eapply StronglySorted_fmap_strong;
    [|apply isort_StronglySorted;
      [intros a b; apply num_desc_leb_total
      |intros a b c; apply num_desc_leb_trans]].
  intros p q Hp Hq Hpq. unfold ranks_before.
  by rewrite <-(Hrows p Hp), <-(Hrows q Hq).
Qed.

(** The first [n] of the ranking are [n] groups (all of them when there are
    fewer), and each ranks before every group that is left out. *)
Lemma ranking_take n agg keys vals :
  let kept := take n (ranking agg keys vals) in
  length kept = n `min` length (inferred_categories keys)
  ∧ NoDup kept
  ∧ (∀ s, s ∈ kept → Some s ∈ keys)
  ∧ (∀ a b, a ∈ kept → Some b ∈ keys → b ∉ kept →
            ranks_before agg keys vals a b).
Proof.
  simpl. split; [|split; [|split]].
  - by rewrite length_take, ranking_Permutation.
  - eapply sublist_NoDup; [apply NoDup_ranking|apply sublist_take].
  - intros s Hs. eapply elem_of_ranking, subseteq_take, Hs.
  - intros a b Ha Hb Hnb.
    pose proof (ranking_sorted agg keys vals) as Hs.
    rewrite <-(take_drop n (ranking agg keys vals)) in Hs.
    apply StronglySorted_app in Hs as (Hab & _ & _). apply Hab; [done|].
    apply (elem_of_ranking agg keys vals) in Hb.
    rewrite <-(take_drop n (ranking agg keys vals)) in Hb.
    apply elem_of_app in Hb as [?|?]; done.
Qed.

End RankingFacts.

Section SetCategoricalFacts.
Import KindaTidy.
Implicit Types (df res : DataFrame) (col : Column).

Variable category_col : string.
Variable aggregator : list num → num.

Lemma alist_get_fmap {K V} `{EqDecision K} (f : V → V) (k : K)
    (l : list (K * V)) :
  alist_get k (prod_map id f <$> l) = f <$> alist_get k l.
Proof.
  induction l as [|[k' v'] l IH]; csimpl; [done|].
  by destruct (decide (k = k')).
Qed.

Lemma get_column_map f df idx c :
  get_column {| df_index := idx;
                df_columns := map_columns f (df_columns df) |} c
  = f <$> get_column df c.
Proof.
  unfold get_column. simpl.
  destruct (df_columns df), c; simpl; try done; apply alist_get_fmap.
Qed.

Lemma get_filter_rows mask df c :
  get_column (filter_rows mask df) c = col_select mask <$> get_column df c.
Proof. apply get_column_map. Qed.

Lemma recast_frame_spec df col :
  get_column df (Name category_col) = Some col →
  is_Some (str_values col) →
  ∃ res,
    recast_frame category_col df = Ok res
    ∧ get_column res (Name category_col) = Some (ObjectCol (plain_values col))
    ∧ (∀ c', c' ≠ Name category_col → get_column res c' = get_column df c')
    ∧ df_index res = df_index df.
Proof.
  intros Hcol [vals Hvals]. unfold recast_frame, getitem_frame.
  rewrite Hcol, Result_bind_Ok. destruct col as [vs|vs|cats vs]; try done.
  - exists df. by simpl.
  - simpl. unfold setitem_frame.
    destruct (set_column_is_Some df _ _
                (ObjectCol ((λ v, Some (default "nan" v)) <$> vs)) Hcol)
      as [res Hres].
    rewrite Hres. exists res. split; [done|]. split; [|split].
    + by eapply get_set_column_eq.
    + intros c' Hne. by eapply get_set_column_ne.
    + by eapply set_column_index.
Qed.

Lemma sort_for_categories_frame_spec value_col res pv nums :
  get_column res (Name category_col) = Some (ObjectCol pv) →
  get_column res (Name value_col) = Some (NumCol nums) →
  sort_for_categories_frame category_col aggregator value_col res
  = Ok (sort_values_desc (groupby_agg str_leb pv nums aggregator)).
Proof.
  intros Hk Hv. unfold sort_for_categories_frame, getitem_frame.
  by rewrite Hk, Hv.
Qed.

Lemma recode_reverse cats v : recode (reverse cats) v = recode cats v.
Proof.
  destruct v as [s|]; simpl; [|done].
  by rewrite (bool_decide_ext _ _ (elem_of_reverse s cats)).
Qed.

Lemma relevel_frame_spec (reverse_levels : bool) value_col res pv nums :
  get_column res (Name category_col) = Some (ObjectCol pv) →
  get_column res (Name value_col) = Some (NumCol nums) →
  let levels :=
    if reverse_levels then reverse (ranking aggregator pv nums)
    else ranking aggregator pv nums in
  ∃ res',
    relevel_frame category_col aggregator reverse_levels value_col res
    = Ok res'
    ∧ set_column res (Name category_col) (CatCol levels pv) = Some res'.
Proof.
  intros Hk Hv levels. unfold relevel_frame.
  rewrite (sort_for_categories_frame_spec _ _ _ _ Hk Hv), Result_bind_Ok.
  cbv zeta. unfold getitem_frame. rewrite Hk, Result_bind_Ok.
  fold (ranking aggregator pv nums). fold levels.
  assert (NoDup levels) as Hnd.
  { unfold levels. destruct reverse_levels;
      rewrite ?reverse_Permutation; apply NoDup_ranking. }
  assert (∀ s, Some s ∈ pv → s ∈ levels) as Hin.
  { intros s Hs. unfold levels. destruct reverse_levels;
      rewrite ?elem_of_reverse; by apply elem_of_ranking. }
  simpl. rewrite bool_decide_eq_true_2 by done.
  rewrite recode_id by done. rewrite Result_bind_Ok.
  unfold setitem_frame.
  destruct (set_column_is_Some res _ _ (CatCol levels pv) Hk) as [res' Hres].
  rewrite Hres. by exists res'.
Qed.

Lemma infer_frame_spec res pv :
  get_column res (Name category_col) = Some (ObjectCol pv) →
  ∃ res',
    infer_frame category_col res = Ok res'
    ∧ set_column res (Name category_col)
        (CatCol (inferred_categories pv) pv) = Some res'.
Proof.
  intros Hk. unfold infer_frame, getitem_frame.
  rewrite Hk, Result_bind_Ok. simpl. unfold setitem_frame.
  destruct (set_column_is_Some res _ _
              (CatCol (inferred_categories pv) pv) Hk) as [res' Hres].
  rewrite Hres. by exists res'.
Qed.

End SetCategoricalFacts.

Section SetCategoricalClaims.
Import KindaTidy.
Implicit Types (df res : DataFrame) (col : Column).

Lemma truthy_str_false value_col :
  truthy_str value_col = false → value_col = None ∨ value_col = Some "".
Proof.
  destruct value_col as [[|a s]|]; simpl; auto. discriminate.
Qed.

Lemma truthy_str_true value_col :
  truthy_str value_col = true →
  ∃ v, value_col = Some v ∧ default "" value_col = v.
Proof. destruct value_col as [v|]; simpl; [eauto|discriminate]. Qed.

Lemma set_categorical_frame_no_value category_col value_col aggregator
    reverse_levels top_n keep_other other_label df :
  truthy_str value_col = false →
  set_categorical_frame category_col value_col aggregator reverse_levels
    top_n keep_other other_label df
  = recast_frame category_col df ≫= infer_frame category_col.
Proof. intros Hv. unfold set_categorical_frame. by rewrite Hv. Qed.

(** ** C4 *)

(** C4: without a value column ([None] or the empty name),
    [set_categorical] on a string-valued column returns the table with that
    column categorical, its cells read as strings and its levels the
    distinct present values in strictly ascending string order, every other
    column and the row labels as they were; [top_n] and [keep_other] are
    not looked at: the run with them is the run without. *)
Theorem set_categorical_without_value_column category_col value_col
    aggregator reverse_levels top_n keep_other other_label σ self df col :
  truthy_str value_col = false →
  σ !! self = Some df →
  get_column df (Name category_col) = Some col →
  is_Some (str_values col) →
  (∃ df',
      returns (set_categorical category_col value_col aggregator
                 reverse_levels top_n keep_other other_label self) σ df'
      ∧ get_column df' (Name category_col)
        = Some (CatCol (inferred_categories (plain_values col))
                  (plain_values col))
      ∧ StronglySorted str_lt (inferred_categories (plain_values col))
      ∧ (∀ s, s ∈ inferred_categories (plain_values col)
              ↔ Some s ∈ plain_values col)
      ∧ df_index df' = df_index df
      ∧ (∀ c', c' ≠ Name category_col →
               get_column df' c' = get_column df c'))
  ∧ set_categorical category_col value_col aggregator reverse_levels
      top_n keep_other other_label self σ
    = set_categorical category_col value_col aggregator reverse_levels
        None false other_label self σ.
Proof.
  intros Hv Hself Hcol Hstr. split.
  - pose proof (set_categorical_run category_col value_col aggregator
                  reverse_levels top_n keep_other other_label σ self df Hself)
      as Hy.
    rewrite set_categorical_frame_no_value in Hy by done.
    destruct (recast_frame_spec category_col df col Hcol Hstr)
      as (res & Hres & Hk & Hother & Hidx).
    rewrite Hres, Result_bind_Ok in Hy.
    destruct (infer_frame_spec category_col res _ Hk) as (df' & Hdf' & Hset).
    rewrite Hdf' in Hy. exists df'.
    split; [by apply returns_of_yields|].
    split; [by eapply get_set_column_eq|].
    split; [apply inferred_categories_sorted|].
    split; [intros s; apply elem_of_group_keys|].
    split.
    + by rewrite (set_column_index _ _ _ _ Hset).
    + intros c' Hne. rewrite <-Hother by done.
      by eapply get_set_column_ne.
  - by destruct (truthy_str_false _ Hv) as [->| ->].
Qed.

Lemma alist_alter_set {K V} `{EqDecision K} (f : V → V) (k : K) v
    (l : list (K * V)) :
  alist_alter f k (alist_set k v l) = alist_set k (f v) l.
Proof.
  induction l as [|[k' v'] l IH]; simpl.
  - by rewrite decide_True.
  - destruct (decide (k = k')) as [->|]; simpl.
    + by rewrite decide_True.
    + rewrite decide_False by done. by rewrite IH.
Qed.

Lemma alter_set_column f df c col df' :
  set_column df c col = Some df' →
  set_column df c (f col) = Some (alter_column f c df').
Proof.
  unfold set_column, alter_column.
  destruct (df_columns df) as [cols|cols], c as [s|t]; try done;
    intros [= <-]; simpl; by rewrite alist_alter_set.
Qed.

Lemma relevel_frame_reverse category_col aggregator value_col res :
  relevel_frame category_col aggregator true value_col res
  = alter_column reverse_levels_of (Name category_col)
      <$> relevel_frame category_col aggregator false value_col res.
Proof.
  unfold relevel_frame.
  destruct (sort_for_categories_frame _ _ _ res) as [final_data|e] eqn:Hs;
    [|done].
  rewrite !Result_bind_Ok. cbv zeta.
  destruct (getitem_frame res (Name category_col)) as [col|e]; [|done].
  rewrite !Result_bind_Ok.
  assert (Categorical col (Some (reverse final_data.*1))
          = reverse_levels_of <$> Categorical col (Some final_data.*1))
    as ->.
  { destruct col as [vs|vs|cats vs]; simpl; [|done|];
      rewrite (bool_decide_ext _ (NoDup final_data.*1))
        by (by rewrite reverse_Permutation);
      (destruct (bool_decide (NoDup final_data.*1)); [|done]); simpl;
      do 2 f_equal; apply list_fmap_ext; intros ? v _;
      apply recode_reverse. }
  destruct (Categorical col (Some final_data.*1)) as [cat|e]; [|done].
  simpl. unfold setitem_frame.
  destruct (set_column res (Name category_col) cat) as [df'|] eqn:Hset.
  - by rewrite (alter_set_column reverse_levels_of _ _ _ _ Hset).
  - assert (set_column res (Name category_col) (reverse_levels_of cat) = None)
      as ->; [|done].
    revert Hset. unfold set_column. by destruct (df_columns res).
Qed.

Lemma set_categorical_frame_reverse category_col value_col aggregator top_n
    keep_other other_label df :
  truthy_str value_col = true →
  set_categorical_frame category_col value_col aggregator true top_n
    keep_other other_label df
  = alter_column reverse_levels_of (Name category_col)
      <$> set_categorical_frame category_col value_col aggregator false top_n
            keep_other other_label df.
Proof.
  intros Hv. unfold set_categorical_frame. rewrite Hv. simpl negb. cbv iota.
  destruct (recast_frame category_col df) as [res|e]; [|done].
  rewrite !Result_bind_Ok. cbv zeta.
  destruct (truncate_frame _ _ _ _ _ _ res) as [res'|e]; [|done].
  rewrite !Result_bind_Ok. apply relevel_frame_reverse.
Qed.

(** The table [set_categorical] returns with a value column has the
    category column categorical. *)
Lemma relevel_frame_categorical category_col aggregator reverse_levels
    value_col res df' :
  relevel_frame category_col aggregator reverse_levels value_col res = Ok df' →
  ∃ cats vals, get_column df' (Name category_col) = Some (CatCol cats vals).
Proof.
  unfold relevel_frame.
  destruct (sort_for_categories_frame _ _ _ res) as [final_data|e]; [|done].
  rewrite Result_bind_Ok. cbv zeta.
  destruct (getitem_frame res (Name category_col)) as [col|e]; [|done].
  rewrite Result_bind_Ok.
  destruct (Categorical col _) as [cat|e] eqn:Hcat; [|done].
  rewrite Result_bind_Ok. unfold setitem_frame.
  destruct (set_column res _ cat) as [d|] eqn:Hset; [|done].
  intros [= <-]. rewrite (get_set_column_eq _ _ _ _ Hset).
  destruct col as [vs|vs|cs vs]; simpl in Hcat; try done;
    (destruct (bool_decide _); [|done]); injection Hcat as <-; eauto.
Qed.

(** ** C3 *)

(** C3, as amended: when a value column is supplied, [set_categorical] with
    [reverse = true] returns the table that [reverse = false] returns, all
    other arguments equal, with the levels of the category column in
    exactly the opposite order and everything else the same. *)
Theorem set_categorical_reverse_with_value_column category_col value_col
    aggregator top_n keep_other other_label σ self df d1 :
  truthy_str value_col = true →
  σ !! self = Some df →
  returns (set_categorical category_col value_col aggregator false top_n
             keep_other other_label self) σ d1 →
  ∃ cats vals,
    get_column d1 (Name category_col) = Some (CatCol cats vals)
    ∧ get_column (alter_column reverse_levels_of (Name category_col) d1)
        (Name category_col) = Some (CatCol (reverse cats) vals)
    ∧ returns (set_categorical category_col value_col aggregator true top_n
                 keep_other other_label self) σ
        (alter_column reverse_levels_of (Name category_col) d1).
Proof.
  intros Hv Hself Hret.
  pose proof (set_categorical_run category_col value_col aggregator false
                top_n keep_other other_label σ self df Hself) as Hy.
  pose proof (yields_of_returns _ _ _ _ Hy Hret) as H1.
  pose proof (set_categorical_run category_col value_col aggregator true
                top_n keep_other other_label σ self df Hself) as Hy'.
  rewrite set_categorical_frame_reverse, H1 in Hy' by done.
  assert (∃ cats vals,
             get_column d1 (Name category_col) = Some (CatCol cats vals))
    as (cats & vals & Hcat).
  { revert H1. unfold set_categorical_frame. rewrite Hv. simpl negb. cbv iota.
    destruct (recast_frame category_col df) as [res|e]; [|done].
    rewrite Result_bind_Ok. cbv zeta.
    destruct (truncate_frame _ _ _ _ _ _ res) as [res'|e]; [|done].
    rewrite Result_bind_Ok. apply relevel_frame_categorical. }
  exists cats, vals. split; [done|]. split.
  - rewrite get_alter_column, Hcat. by rewrite decide_True.
  - by apply returns_of_yields.
Qed.

End SetCategoricalClaims.

Section TopNFacts.
Import KindaTidy.
Implicit Types (df res : DataFrame) (col : Column).

Lemma length_select_le {A} (mask : list bool) (l : list A) :
  length (select mask l) ≤ length l.
Proof.
  revert l. induction mask as [|m mask IH]; intros [|x l]; simpl; try lia.
  specialize (IH l). destruct m; simpl; lia.
Qed.

Lemma length_select_lt {A} (mask : list bool) (l : list A) :
  length mask = length l →
  length (select mask l) < length l ↔ false ∈ mask.
Proof.
  revert l. induction mask as [|m mask IH]; intros [|x l]; simpl; try done.
  - intros _. split; [lia|by intros ?%elem_of_nil].
  - intros [= Hlen]. rewrite elem_of_cons. specialize (IH l Hlen).
    pose proof (length_select_le mask l).
    destruct m; simpl.
    + split; [intros ?; right; apply IH; lia|].
      intros [?|?]; [done|]. apply IH in H0. lia.
    + split; [by left|]. lia.
Qed.

Lemma length_isin (vals : list (option string)) cats :
  length (isin vals cats) = length vals.
Proof. unfold isin. by rewrite length_fmap. Qed.

Lemma elem_of_select_isin (vals : list (option string)) cats s :
  Some s ∈ select (isin vals cats) vals ↔ Some s ∈ vals ∧ s ∈ cats.
Proof.
  unfold isin. induction vals as [|v vals IH]; csimpl.
  - split; [by intros ?%elem_of_nil|by intros [?%elem_of_nil _]].
  - destruct v as [t|]; [destruct (decide (t ∈ cats)) as [Ht|Ht]|].
    + rewrite bool_decide_eq_true_2, !elem_of_cons, IH by done.
      split; [intros [[= ->]|[? ?]]; auto|intros [[?|?] ?]; auto].
    + rewrite bool_decide_eq_false_2, elem_of_cons, IH by done.
      split; [intros [? ?]; auto|intros [[[= ->]|?] ?]; [done|auto]].
    + rewrite elem_of_cons, IH. split; [intros [? ?]; auto|].
      intros [[?|?] ?]; [done|auto].
Qed.

Lemma isin_false_iff (vals : list (option string)) cats :
  false ∈ isin vals cats
  ↔ ∃ v, v ∈ vals ∧ ∀ s, v = Some s → s ∉ cats.
Proof.
  unfold isin. rewrite list_elem_of_fmap. split.
  - intros (v & Hv & Hin). exists v. split; [done|].
    intros s ->. symmetry in Hv. by apply bool_decide_eq_false in Hv.
  - intros (v & Hin & Hv). exists v. split; [|done].
    destruct v as [s|]; [|done]. symmetry.
    apply bool_decide_eq_false. by apply Hv.
Qed.

Lemma length_assign_where mask label (vals : list (option string)) :
  length mask = length vals →
  length (assign_where mask label vals) = length vals.
Proof.
  intros Hlen. unfold assign_where. rewrite length_zip_with. lia.
Qed.

(** The cells after relabelling: a cell that is one of the kept levels
    stays, every other cell (a missing one too) becomes the fallback. *)
Lemma relabel_lookup (vals : list (option string)) cats label i :
  assign_where (negb <$> isin vals cats) label vals !! i
  = (λ v, match v with
          | Some s => if bool_decide (s ∈ cats) then Some s else Some label
          | None => Some label
          end) <$> vals !! i.
Proof.
  unfold assign_where, isin. rewrite lookup_zip_with.
  rewrite !list_lookup_fmap.
  destruct (vals !! i) as [[s|]|]; simpl; [|done|done].
  by destruct (bool_decide (s ∈ cats)).
Qed.

Lemma length_plain_values col :
  is_Some (str_values col) → length (plain_values col) = col_length col.
Proof.
  destruct col as [vs|vs|cats vs]; simpl; [done|by intros [? ?]|].
  intros _. unfold plain_values. simpl. by rewrite length_fmap.
Qed.

Variable category_col : string.
Variable aggregator : list num → num.

Lemma truncate_frame_keep value_col n other_label res pv nums :
  (n ≠ 0)%Z →
  get_column res (Name category_col) = Some (ObjectCol pv) →
  get_column res (Name value_col) = Some (NumCol nums) →
  let kept := slice_to (Some n) (ranking aggregator pv nums) in
  ∃ res',
    truncate_frame category_col aggregator (Some n) true other_label
      value_col res = Ok res'
    ∧ set_column res (Name category_col)
        (ObjectCol (assign_where (negb <$> isin pv kept) other_label pv))
      = Some res'.
Proof.
  intros Hn Hk Hv kept. unfold truncate_frame.
  rewrite (sort_for_categories_frame_spec _ _ _ _ _ _ Hk Hv), Result_bind_Ok.
  cbv zeta. fold (ranking aggregator pv nums). fold kept.
  assert (truthy_int (Some n) = true) as ->.
  { simpl. apply negb_true_iff. by apply Z.eqb_neq. }
  unfold getitem_frame. rewrite Hk, Result_bind_Ok. simpl str_values.
  cbv iota beta. unfold setitem_frame.
  destruct (set_column_is_Some res _ _
              (ObjectCol (assign_where (negb <$> isin pv kept) other_label pv))
              Hk) as [res' Hres].
  rewrite Hres. by exists res'.
Qed.

Lemma truncate_frame_drop value_col n other_label res pv nums :
  (n ≠ 0)%Z →
  get_column res (Name category_col) = Some (ObjectCol pv) →
  get_column res (Name value_col) = Some (NumCol nums) →
  length pv = nrows res →
  let kept := slice_to (Some n) (ranking aggregator pv nums) in
  truncate_frame category_col aggregator (Some n) false other_label
    value_col res = Ok (filter_rows (isin pv kept) res).
Proof.
  intros Hn Hk Hv Hlen kept. unfold truncate_frame.
  rewrite (sort_for_categories_frame_spec _ _ _ _ _ _ Hk Hv), Result_bind_Ok.
  cbv zeta. fold (ranking aggregator pv nums). fold kept.
  assert (truthy_int (Some n) = true) as ->.
  { simpl. apply negb_true_iff. by apply Z.eqb_neq. }
  unfold getitem_frame. rewrite Hk, Result_bind_Ok. simpl str_values.
  cbv iota beta. unfold getitem_mask_frame.
  by rewrite length_isin, Hlen, Nat.eqb_refl.
Qed.

Lemma truncate_frame_none value_col top_n keep_other other_label res pv nums :
  truthy_int top_n = false →
  get_column res (Name category_col) = Some (ObjectCol pv) →
  get_column res (Name value_col) = Some (NumCol nums) →
  truncate_frame category_col aggregator top_n keep_other other_label
    value_col res = Ok res.
Proof.
  intros Hn Hk Hv. unfold truncate_frame.
  rewrite (sort_for_categories_frame_spec _ _ _ _ _ _ Hk Hv), Result_bind_Ok.
  cbv zeta. by rewrite Hn.
Qed.

End TopNFacts.

Section RankedClaims.
Import KindaTidy.
Implicit Types (df res : DataFrame) (col : Column).

Lemma set_categorical_frame_value category_col v aggregator reverse_levels
    top_n keep_other other_label df :
  v ≠ "" →
  set_categorical_frame category_col (Some v) aggregator reverse_levels
    top_n keep_other other_label df
  = recast_frame category_col df ≫= λ res,
      truncate_frame category_col aggregator top_n keep_other other_label
        v res
      ≫= relevel_frame category_col aggregator reverse_levels v.
Proof.
  intros Hv. unfold set_categorical_frame.
  assert (truthy_str (Some v) = true) as ->; [|done].
  simpl. apply negb_true_iff. by apply String.eqb_neq.
Qed.

Lemma value_column_after_recast category_col v df res col nums :
  get_column df (Name category_col) = Some col →
  is_Some (str_values col) →
  get_column df (Name v) = Some (NumCol nums) →
  (∀ c', c' ≠ Name category_col → get_column res c' = get_column df c') →
  Name v ≠ Name category_col ∧ get_column res (Name v) = Some (NumCol nums).
Proof.
  intros Hcol [vals Hvals] Hv Hother.
  assert (Name v ≠ Name category_col) as Hne.
  { intros [= ->]. rewrite Hcol in Hv. by injection Hv as ->. }
  split; [done|]. by rewrite Hother.
Qed.

(** ** C1 *)

(** C1: with a value column and no [top_n] (and [reverse] left false),
    [set_categorical] on a string-valued column returns the table with that
    column categorical, and its level order is a descending order of the
    groups by their aggregate: the levels are the distinct present values
    of the column, each once, and every level has an aggregate at least as
    large as the levels after it, the aggregate of a level being
    [aggregator] on the value-column cells of the rows of that level.
    Nothing is said on the order of levels whose aggregates are equal: the
    sort of the library does not fix it.  This holds for every aggregator,
    the default [np.sum] included. *)
Theorem set_categorical_orders_levels_by_aggregate category_col v aggregator
    top_n keep_other other_label σ self df col nums :
  v ≠ "" →
  truthy_int top_n = false →
  σ !! self = Some df →
  get_column df (Name category_col) = Some col →
  is_Some (str_values col) →
  get_column df (Name v) = Some (NumCol nums) →
  ∃ df' levels,
    returns (set_categorical category_col (Some v) aggregator false top_n
               keep_other other_label self) σ df'
    ∧ get_column df' (Name category_col)
      = Some (CatCol levels (plain_values col))
    ∧ levels ≡ₚ inferred_categories (plain_values col)
    ∧ NoDup levels
    ∧ (∀ s, s ∈ levels ↔ Some s ∈ plain_values col)
    ∧ StronglySorted (ranks_before aggregator (plain_values col) nums) levels
    ∧ df_index df' = df_index df
    ∧ (∀ c', c' ≠ Name category_col → get_column df' c' = get_column df c').
Proof.
  intros Hv Hn Hself Hcol Hstr Hval.
  pose proof (set_categorical_run category_col (Some v) aggregator false
                top_n keep_other other_label σ self df Hself) as Hy.
  rewrite set_categorical_frame_value in Hy by done.
  destruct (recast_frame_spec category_col df col Hcol Hstr)
    as (res & Hres & Hk & Hother & Hidx).
  destruct (value_column_after_recast _ _ _ _ _ _ Hcol Hstr Hval Hother)
    as [Hne Hval'].
  rewrite Hres, Result_bind_Ok in Hy.
  rewrite (truncate_frame_none category_col aggregator v top_n keep_other
             other_label res _ _ Hn Hk Hval'), Result_bind_Ok in Hy.
  destruct (relevel_frame_spec category_col aggregator false v res _ _
              Hk Hval') as (df' & Hdf' & Hset).
  rewrite Hdf' in Hy.
  exists df', (ranking aggregator (plain_values col) nums).
  split; [by apply returns_of_yields|].
  split; [by eapply get_set_column_eq|].
  split; [apply ranking_Permutation|].
  split; [apply NoDup_ranking|].
  split; [intros s; apply elem_of_ranking|].
  split; [apply ranking_sorted|].
  split.
  - by rewrite (set_column_index _ _ _ _ Hset).
  - intros c' Hc'. rewrite <-Hother by done. by eapply get_set_column_ne.
Qed.

(** ** C2 *)

(** C2: with a value column and [top_n = N > 0] there are kept levels,
    [N] distinct levels of the column (all of them when it has fewer), each
    with an aggregate at least as large as every level left out; which of
    several levels of equal aggregate at the cut are kept is not said.
    With [keep_other] false the returned table holds exactly the rows whose
    cell is a kept level, in their order, so it has no more rows than the
    input and fewer as soon as one row is outside; its levels are the kept
    levels.  With [keep_other] true the returned table has the rows of the
    input, the cells outside the kept levels replaced by the fallback
    label, and the level order is a descending order of the aggregates
    computed again on the relabelled cells: the fallback level stands
    where the aggregate of the rows it now contains puts it. *)
Theorem set_categorical_top_n category_col v aggregator
    (reverse_levels : bool) n other_label σ self df col nums :
  v ≠ "" →
  (0 < n)%Z →
  σ !! self = Some df →
  get_column df (Name category_col) = Some col →
  is_Some (str_values col) →
  col_length col = nrows df →
  get_column df (Name v) = Some (NumCol nums) →
  let pv := plain_values col in
  let order (l : list string) := if reverse_levels then reverse l else l in
  ∃ kept,
    let pv' := assign_where (negb <$> isin pv kept) other_label pv in
    (length kept = Z.to_nat n `min` length (inferred_categories pv)
     ∧ NoDup kept
     ∧ (∀ s, s ∈ kept → Some s ∈ pv)
     ∧ (∀ a b, a ∈ kept → Some b ∈ pv → b ∉ kept →
               ranks_before aggregator pv nums a b))
    ∧ (∃ df' levels,
          returns (set_categorical category_col (Some v) aggregator
                     reverse_levels (Some n) false other_label self) σ df'
          ∧ df_index df' = select (isin pv kept) (df_index df)
          ∧ get_column df' (Name category_col)
            = Some (CatCol levels (select (isin pv kept) pv))
          ∧ (∀ c', c' ≠ Name category_col →
                   get_column df' c'
                   = col_select (isin pv kept) <$> get_column df c')
          ∧ (∀ s, Some s ∈ select (isin pv kept) pv ↔ Some s ∈ pv ∧ s ∈ kept)
          ∧ (∀ s, s ∈ levels ↔ s ∈ kept)
          ∧ NoDup levels
          ∧ nrows df' ≤ nrows df
          ∧ (nrows df' < nrows df
             ↔ ∃ cell, cell ∈ pv ∧ ∀ s, cell = Some s → s ∉ kept))
    ∧ (∃ df' levels ranked,
          returns (set_categorical category_col (Some v) aggregator
                     reverse_levels (Some n) true other_label self) σ df'
          ∧ df_index df' = df_index df
          ∧ nrows df' = nrows df
          ∧ get_column df' (Name category_col) = Some (CatCol levels pv')
          ∧ (∀ c', c' ≠ Name category_col →
                   get_column df' c' = get_column df c')
          ∧ (∀ i, pv' !! i
                  = (λ cell,
                       match cell with
                       | Some s =>
                           if bool_decide (s ∈ kept) then Some s
                           else Some other_label
                       | None => Some other_label
                       end) <$> pv !! i)
          ∧ levels = order ranked
          ∧ ranked ≡ₚ inferred_categories pv'
          ∧ NoDup ranked
          ∧ StronglySorted (ranks_before aggregator pv' nums) ranked
          ∧ (∀ s, s ∈ levels ↔ Some s ∈ pv')).
Proof.
  intros Hv Hn Hself Hcol Hstr Hlen Hval pv order.
  set (kept := take (Z.to_nat n) (ranking aggregator pv nums)).
  exists kept. intros pv'.
  assert (n ≠ 0)%Z as Hn0 by lia.
  assert (slice_to (Some n) (ranking aggregator pv nums) = kept) as Hslice.
  { unfold slice_to. by rewrite (proj2 (Z.leb_le 0 n)) by lia. }
  destruct (recast_frame_spec category_col df col Hcol Hstr)
    as (res & Hres & Hk & Hother & Hidx).
  destruct (value_column_after_recast _ _ _ _ _ _ Hcol Hstr Hval Hother)
    as [Hne Hval'].
  assert (length pv = nrows res) as Hlen'.
  { unfold pv, nrows. by rewrite length_plain_values, Hidx. }
  split; [apply ranking_take|]. split.
  - (* keep_other = false *)
    pose proof (set_categorical_run category_col (Some v) aggregator
                  reverse_levels (Some n) false other_label σ self df Hself)
      as Hy.
    rewrite set_categorical_frame_value in Hy by done.
    rewrite Hres, Result_bind_Ok in Hy.
    rewrite (truncate_frame_drop category_col aggregator v n other_label res
               pv nums Hn0 Hk Hval' Hlen'), Result_bind_Ok, Hslice in Hy.
    set (mask := isin pv kept) in *.
    assert (get_column (filter_rows mask res) (Name category_col)
            = Some (ObjectCol (select mask pv))) as Hk2.
    { by rewrite get_filter_rows, Hk. }
    assert (get_column (filter_rows mask res) (Name v)
            = Some (NumCol (select mask nums))) as Hv2.
    { by rewrite get_filter_rows, Hval'. }
    destruct (relevel_frame_spec category_col aggregator reverse_levels v
                _ _ _ Hk2 Hv2) as (df' & Hdf' & Hset).
    rewrite Hdf' in Hy. cbv zeta in Hset.
    eexists df', _.
    split; [by apply returns_of_yields|].
    split; [by rewrite (set_column_index _ _ _ _ Hset), <-Hidx|].
    split; [by eapply get_set_column_eq|].
    split.
    { intros c' Hc'. rewrite (get_set_column_ne _ _ _ _ _ Hset) by done.
      rewrite get_filter_rows. by rewrite Hother. }
    split; [intros s; apply elem_of_select_isin|].
    assert (∀ s, s ∈ ranking aggregator (select mask pv) (select mask nums)
                 ↔ s ∈ kept) as Hlev.
    { intros s. rewrite elem_of_ranking. unfold mask.
      rewrite elem_of_select_isin. split; [by intros [_ ?]|].
      intros Hs. split; [|done].
      eapply elem_of_ranking, subseteq_take, Hs. }
    split.
    { intros s. destruct reverse_levels; rewrite ?elem_of_reverse; apply Hlev. }
    split.
    { destruct reverse_levels; rewrite ?reverse_Permutation;
        apply NoDup_ranking. }
    assert (nrows df' = length (select mask (df_index df))) as ->.
    { unfold nrows. by rewrite (set_column_index _ _ _ _ Hset), <-Hidx. }
    split; [apply length_select_le|].
    rewrite length_select_lt.
    + apply isin_false_iff.
    + unfold mask. rewrite length_isin, Hlen'. unfold nrows. by rewrite Hidx.
  - (* keep_other = true *)
    pose proof (set_categorical_run category_col (Some v) aggregator
                  reverse_levels (Some n) true other_label σ self df Hself)
      as Hy.
    rewrite set_categorical_frame_value in Hy by done.
    rewrite Hres, Result_bind_Ok in Hy.
    destruct (truncate_frame_keep category_col aggregator v n other_label res
                pv nums Hn0 Hk Hval') as (res' & Hres' & Hset1).
    cbv zeta in Hset1. rewrite Hslice in Hset1. fold pv' in Hset1.
    rewrite Hres', Result_bind_Ok in Hy.
    pose proof (get_set_column_eq _ _ _ _ Hset1) as Hk2.
    assert (get_column res' (Name v) = Some (NumCol nums)) as Hv2.
    { by rewrite (get_set_column_ne _ _ _ _ _ Hset1). }
    destruct (relevel_frame_spec category_col aggregator reverse_levels v
                _ _ _ Hk2 Hv2) as (df' & Hdf' & Hset).
    rewrite Hdf' in Hy. cbv zeta in Hset.
    assert (df_index df' = df_index df) as Hidx'.
    { rewrite (set_column_index _ _ _ _ Hset).
      by rewrite (set_column_index _ _ _ _ Hset1). }
    exists df', (order (ranking aggregator pv' nums)),
      (ranking aggregator pv' nums).
    split; [by apply returns_of_yields|].
    split; [done|].
    split; [unfold nrows; by rewrite Hidx'|].
    split; [by eapply get_set_column_eq|].
    split.
    { intros c' Hc'. rewrite (get_set_column_ne _ _ _ _ _ Hset) by done.
      rewrite (get_set_column_ne _ _ _ _ _ Hset1) by done. by apply Hother. }
    split; [intros i; apply relabel_lookup|].
    split; [done|].
    split; [apply ranking_Permutation|].
    split; [apply NoDup_ranking|].
    split; [apply ranking_sorted|].
    intros s. unfold order.
    destruct reverse_levels; rewrite ?elem_of_reverse; apply elem_of_ranking.
Qed.

End RankedClaims.

(** ** Equal-size sampling *)

Section EquisampleFacts.
Import KindaTidy.

Lemma mapM_Result_Ok {A B} (f : A → Result B) l k :
  mapM f l = Ok k ↔ Forall2 (λ x y, f x = Ok y) l k.
Proof.
  revert k. induction l as [|x l IH]; intros k; simpl.
  - split; [intros [= <-]; constructor|by inversion 1].
  - destruct (f x) as [y|e] eqn:Hx; simpl.
    + destruct (mapM f l) as [k'|e] eqn:Hl; simpl.
      * split.
        -- intros [= <-]. constructor; [done|]. by apply IH.
        -- inversion 1 as [|? y' ? k'' Hy Hk]; subst.
           apply IH in Hk. injection Hk as <-.
           rewrite Hx in Hy. by injection Hy as <-.
      * split; [done|]. inversion 1 as [|? y' ? k'' Hy Hk]; subst.
        apply IH in Hk. congruence.
    + split; [done|]. inversion 1; congruence.
Qed.

Lemma mapM_Result_total {A B} (f : A → Result B) (P : A → B → Prop) l :
  Forall (λ x, ∃ y, f x = Ok y ∧ P x y) l →
  ∃ k, mapM f l = Ok k ∧ Forall2 P l k.
Proof.
  induction 1 as [|x l (y & Hy & HP) _ (k & Hk & HPk)].
  - by exists [].
  - exists (y :: k). split; [|by constructor].
    apply mapM_Result_Ok. constructor; [done|]. by apply mapM_Result_Ok.
Qed.

(** *** Positional selection *)

Lemma take_positions_fmap {A} (f : nat → A) positions (l : list A) :
  (∀ p, p ∈ positions → l !! p = Some (f p)) →
  take_positions positions l = f <$> positions.
Proof.
  unfold take_positions. induction positions as [|p ps IH]; intros Hl;
    simpl; [done|].
  rewrite (Hl p) by left. simpl. f_equal. apply IH.
  intros q Hq. apply Hl. by right.
Qed.

Lemma length_take_positions {A} positions (l : list A) :
  Forall (λ p, p < length l) positions →
  length (take_positions positions l) = length positions.
Proof.
  unfold take_positions. induction 1 as [|p ps Hp _ IH]; simpl; [done|].
  destruct (lookup_lt_is_Some_2 l p Hp) as [x ->]. simpl. f_equal. apply IH.
Qed.

Lemma elem_of_take_positions {A} positions (l : list A) x :
  x ∈ take_positions positions l → x ∈ l.
Proof.
  unfold take_positions. rewrite list_elem_of_omap.
  intros (p & _ & Hp). by eapply list_elem_of_lookup_2.
Qed.

Lemma lookup_take_positions {A} positions (l : list A) j p :
  Forall (λ p, p < length l) positions →
  positions !! j = Some p →
  take_positions positions l !! j = l !! p.
Proof.
  unfold take_positions. intros Hps. revert j.
  induction Hps as [|q ps Hq _ IH]; intros j Hj; [done|].
  simpl. destruct (lookup_lt_is_Some_2 l q Hq) as [x Hx]. rewrite Hx. simpl.
  destruct j as [|j]; simpl in *; [by injection Hj as ->|by apply IH].
Qed.

(** *** Group rows *)

Lemma filter_ext_Forall {A} (P Q : A → Prop)
    `{!∀ x, Decision (P x)} `{!∀ x, Decision (Q x)} (l : list A) :
  Forall (λ x, P x ↔ Q x) l → filter P l = filter Q l.
Proof.
  induction 1 as [|x l HPQ _ IH]; [done|].
  rewrite !filter_cons, IH.
  destruct (decide (P x)), (decide (Q x)); tauto.
Qed.

Section group_rows.
Context {K : Type} `{EqDecision K}.
Implicit Types keys : list (option K).

Lemma elem_of_group_rows keys k i :
  i ∈ group_rows keys k ↔ keys !! i = Some (Some k).
Proof.
  unfold group_rows. rewrite list_elem_of_filter, elem_of_seq.
  split; [by intros [? _]|]. intros Hi. split; [done|].
  apply lookup_lt_Some in Hi. lia.
Qed.

(** The size of a group is the number of rows that carry its key. *)
Lemma length_group_rows keys k :
  length (group_rows keys k) = length (filter (λ o, o = Some k) keys).
Proof.
  unfold group_rows. induction keys as [|o keys IH] using rev_ind; [done|].
  rewrite length_app. simpl. rewrite Nat.add_1_r, seq_S, !filter_app.
  rewrite !length_app. simpl. f_equal.
  - rewrite <-IH. f_equal. apply filter_ext_Forall.
    apply Forall_forall. intros i Hi%elem_of_seq.
    by rewrite lookup_app_l by lia.
  - rewrite !filter_cons, !filter_nil.
    rewrite list_lookup_middle by done.
    destruct (decide (o = Some k)) as [->|Hne].
    + by rewrite !decide_True.
    + by rewrite decide_False by congruence.
Qed.

Lemma group_rows_nonempty keys k :
  Some k ∈ keys → 0 < length (group_rows keys k).
Proof.
  intros (i & Hi)%list_elem_of_lookup_1.
  apply (proj2 (elem_of_group_rows keys k i)) in Hi.
  destruct (group_rows keys k); [by apply elem_of_nil in Hi|simpl; lia].
Qed.
End group_rows.

(** *** The smallest size *)

Lemma min_size_le sizes : Forall (λ s, min_size sizes ≤ s) sizes.
Proof.
  destruct sizes as [|s sizes]; [constructor|]. simpl.
  induction sizes as [|t sizes IH]; simpl.
  - by repeat constructor.
  - inversion IH as [|?? Hs Hrest]; subst.
    constructor; [lia|]. constructor; [lia|].
    eapply Forall_impl; [exact Hrest|]. simpl. intros; lia.
Qed.

Lemma min_size_attained sizes : sizes ≠ [] → min_size sizes ∈ sizes.
Proof.
  destruct sizes as [|s sizes]; [done|]. intros _. simpl.
  induction sizes as [|t sizes IH]; simpl; [by left|].
  destruct (Nat.min_spec t (foldr Nat.min s sizes)) as [[_ ->]|[_ ->]].
  - right. by left.
  - apply elem_of_cons in IH as [->|IH]; [by left|]. right. by right.
Qed.


(** [min_size] is the minimum: a lower bound that some size attains. *)
Lemma min_size_is_minimum sizes :
  sizes ≠ [] →
  min_size sizes ∈ sizes ∧ Forall (λ s, min_size sizes ≤ s) sizes.
Proof. intros Hne. split; [by apply min_size_attained|apply min_size_le]. Qed.

(** *** Row keys *)

Lemma mapM_fmap_ext {A B C} (f : B → option C) (g : A → B)
    (h : A → option C) l :
  (∀ x, x ∈ l → f (g x) = h x) → mapM f (g <$> l) = mapM h l.
Proof.
  induction l as [|x l IH]; intros Hfg; [done|].
  rewrite fmap_cons.
  change (mapM f (g x :: (g <$> l)))
    with (y ← f (g x); k ← mapM f (g <$> l); mret (y :: k)).
  change (mapM h (x :: l)) with (y ← h x; k ← mapM h l; mret (y :: k)).
  rewrite (Hfg x) by left. rewrite IH; [done|].
  intros y Hy. apply Hfg. by right.
Qed.

Lemma fmap_seq_positions {A} (f g : nat → A) (positions : list nat) :
  (∀ j p, positions !! j = Some p → f j = g p) →
  f <$> seq 0 (length positions) = g <$> positions.
Proof.
  intros Hfg. apply list_eq. intros j. rewrite !list_lookup_fmap.
  destruct (positions !! j) as [p|] eqn:Hj; simpl.
  - rewrite lookup_seq_lt by (by eapply lookup_lt_Some). simpl.
    f_equal. by apply Hfg.
  - rewrite lookup_seq_ge; [done|]. by apply lookup_ge_None.
Qed.

Lemma lookup_row_keys df key_cols p k :
  row_keys df key_cols !! p = Some (Some k) ↔
  p < nrows df ∧ row_key key_cols p = Some k.
Proof.
  unfold row_keys. rewrite list_lookup_fmap. split.
  - destruct (seq 0 (nrows df) !! p) as [q|] eqn:Hq; [|done].
    apply lookup_seq in Hq as [-> Hp]. simpl. by intros [= ->].
  - intros [Hp Hk]. rewrite lookup_seq_lt by done. simpl. by rewrite Hk.
Qed.

Lemma row_key_cells key_cols p k col :
  row_key key_cols p = Some k → col ∈ key_cols → p < length col.
Proof.
  unfold row_key. intros Hk%mapM_Some Hcol.
  apply list_elem_of_lookup_1 in Hcol as [i Hi].
  destruct (Forall2_lookup_l _ _ _ _ _ Hk Hi) as (c & _ & Hc).
  destruct (col !! p) eqn:Hp; [|done]. by eapply lookup_lt_Some.
Qed.

(** The row keys of a selection of rows that all have a key. *)
Lemma row_keys_take_positions key_cols positions :
  Forall (λ p, is_Some (row_key key_cols p)) positions →
  row_key (take_positions positions <$> key_cols)
    <$> seq 0 (length positions)
  = row_key key_cols <$> positions.
Proof.
  intros Hps. apply fmap_seq_positions. intros j p Hj.
  unfold row_key. apply mapM_fmap_ext. intros col Hcol.
  f_equal. eapply lookup_take_positions; [|done].
  eapply Forall_impl; [exact Hps|]. simpl. intros q [k Hk].
  by eapply row_key_cells.
Qed.

Lemma key_column_take_rows df positions g col :
  key_column df g = Ok col →
  key_column (take_rows positions df) g = Ok (take_positions positions col).
Proof.
  unfold key_column, take_rows. rewrite get_column_map.
  destruct (get_column df (Name g)) as [[vals|vals|cats vals]|]; simpl;
    try done.
  by intros [= ->].
Qed.

(** *** Counting the sampled rows *)

Section counting.
Context {K : Type} `{EqDecision K} (key : nat → option K).

Lemma length_filter_group (s : list nat) (k k' : K) :
  (∀ p, p ∈ s → key p = Some k') →
  length (filter (λ o, o = Some k) (key <$> s))
  = if decide (k = k') then length s else 0.
Proof.
  induction s as [|p s IH]; intros Hs; [by destruct (decide _)|].
  rewrite fmap_cons, filter_cons, (Hs p) by left.
  specialize (IH (λ q Hq, Hs q (list_elem_of_further _ _ _ Hq))).
  destruct (decide (k = k')) as [->|Hne].
  - rewrite decide_True by done. simpl. by rewrite IH.
  - by rewrite decide_False by congruence.
Qed.

Lemma length_filter_sampled n (ks : list K) (sampled : list (list nat)) :
  NoDup ks →
  Forall2 (λ k s, length s = n ∧ ∀ p, p ∈ s → key p = Some k) ks sampled →
  ∀ k, length (filter (λ o, o = Some k) (key <$> concat sampled))
       = if decide (k ∈ ks) then n else 0.
Proof.
  intros Hnd Hall k. induction Hall as [|k' s ks sampled [Hn Hs] _ IH].
  - done.
  - apply NoDup_cons in Hnd as [Hk' Hnd]. cbn [concat].
    rewrite fmap_app, filter_app, length_app, (length_filter_group s k k')
      by done.
    rewrite IH by done.
    destruct (decide (k = k')) as [->|Hne].
    + rewrite (decide_False (P := k' ∈ ks)) by done.
      rewrite decide_True by left. lia.
    + destruct (decide (k ∈ ks)) as [Hin|Hout].
      * rewrite decide_True by (by right). done.
      * rewrite decide_False; [done|]. rewrite not_elem_of_cons. done.
Qed.
End counting.

Lemma sample_ok choose n rows :
  valid_choice choose → n ≤ length rows →
  ∃ s, sample choose n rows = Ok s ∧ length s = n ∧ ∀ p, p ∈ s → p ∈ rows.
Proof.
  intros Hchoose Hn. destruct (Hchoose n (length rows) Hn) as (Hlen & _ & Hlt).
  unfold sample. rewrite (proj2 (Nat.leb_le _ _) Hn).
  eexists. split; [done|]. split.
  - by rewrite length_take_positions.
  - intros p. apply elem_of_take_positions.
Qed.

End EquisampleFacts.

Section EquisampleClaim.
Import KindaTidy.

(** C5.  [equisample] without an explicit size, on a table where some row
    has a group key: the call returns a table; the groups of the result
    are the groups of the input; and every group of the result has
    exactly [min_size (group_sizes keys_in)] rows, the smallest row count
    among the groups of the input.  ([choose] stands for the random draws
    of [sample], which are without replacement; the grouping columns hold
    strings.) *)
Theorem equisample_equal_group_sizes choose df grouping keys_in k0 :
  valid_choice choose →
  grouping ≠ [] →
  frame_keys df grouping = Ok keys_in →
  Some k0 ∈ keys_in →
  ∃ out keys_out,
    equisample choose df grouping None = Ok out
    ∧ frame_keys out grouping = Ok keys_out
    ∧ (∀ k, Some k ∈ keys_out ↔ Some k ∈ keys_in)
    ∧ (∀ k, Some k ∈ keys_out →
         length (group_rows keys_out k) = min_size (group_sizes keys_in))
    ∧ min_size (group_sizes keys_in) ∈ group_sizes keys_in
    ∧ Forall (λ s, min_size (group_sizes keys_in) ≤ s) (group_sizes keys_in).
Proof.
  intros Hchoose Hgrouping Hkeys Hk0.
  set (ks := group_keys tuple_leb keys_in).
  set (n := min_size (group_sizes keys_in)).
  assert (Hsizes : group_sizes keys_in ≠ []).
  { unfold group_sizes. intros Hnil%fmap_nil_inv.
    apply (elem_of_group_keys tuple_leb) in Hk0. rewrite Hnil in Hk0.
    by apply elem_of_nil in Hk0. }
  destruct (min_size_is_minimum _ Hsizes) as [Hmin_in Hmin_le].
  fold n in Hmin_in, Hmin_le.
  assert (Hn : 0 < n).
  { unfold group_sizes in Hmin_in.
    apply list_elem_of_fmap in Hmin_in as (k & -> & Hk).
    apply group_rows_nonempty. by apply (elem_of_group_keys tuple_leb). }
  (* the grouping columns *)
  unfold frame_keys in Hkeys.
  destruct (mapM (key_column df) grouping) as [key_cols|e] eqn:Hcols;
    [|done].
  rewrite Result_bind_Ok in Hkeys. injection Hkeys as <-.
  set (keys_in := row_keys df key_cols) in *.
  (* the draws *)
  destruct (mapM_Result_total (sample choose n)
              (λ g s, length s = n ∧ ∀ p, p ∈ s → p ∈ g)
              ((λ k, group_rows keys_in k) <$> ks)) as (sampled & Hs & Hall).
  { apply Forall_fmap, Forall_forall. intros k Hk. simpl.
    apply sample_ok; [done|].
    unfold group_sizes in Hmin_le. rewrite Forall_fmap in Hmin_le.
    by apply (proj1 (Forall_forall _ _) Hmin_le). }
  apply Forall2_fmap_l in Hall.
  set (key := row_key key_cols).
  assert (Hall' : Forall2 (λ k s, length s = n ∧
                             ∀ p, p ∈ s → p < nrows df ∧ key p = Some k)
                    ks sampled).
  { eapply Forall2_impl; [exact Hall|]. simpl. intros k s [Hlen Hsub].
    split; [done|]. intros p Hp%Hsub.
    apply elem_of_group_rows in Hp. by apply lookup_row_keys in Hp. }
  set (positions := concat sampled).
  assert (Hpos : ∀ p, p ∈ positions →
                   p < nrows df ∧ ∃ k, k ∈ ks ∧ key p = Some k).
  { intros p. unfold positions. rewrite list_elem_of_In, in_concat.
    intros (s & Hsin%list_elem_of_In & Hp%list_elem_of_In).
    apply list_elem_of_lookup_1 in Hsin as [i Hi].
    destruct (Forall2_lookup_r _ _ _ _ _ Hall' Hi) as (k & Hk & _ & Hks).
    destruct (Hks p Hp) as [Hlt Hkey]. split; [done|].
    exists k. split; [by eapply list_elem_of_lookup_2|done]. }
  (* the keys of the result *)
  set (out := take_rows positions df).
  assert (Hout_cols : mapM (key_column out) grouping
                      = Ok (take_positions positions <$> key_cols)).
  { apply mapM_Result_Ok, Forall2_fmap_r.
    apply mapM_Result_Ok in Hcols.
    eapply Forall2_impl; [exact Hcols|]. simpl. intros g col.
    apply key_column_take_rows. }
  assert (Hout_rows : nrows out = length positions).
  { unfold nrows, out. simpl. apply length_take_positions.
    apply Forall_forall. intros p Hp. by apply Hpos. }
  assert (Hout_keys : frame_keys out grouping = Ok (key <$> positions)).
  { unfold frame_keys. rewrite Hout_cols, Result_bind_Ok. f_equal.
    unfold row_keys. rewrite Hout_rows. apply row_keys_take_positions.
    apply Forall_forall. intros p Hp.
    destruct (Hpos p Hp) as (_ & k & _ & Hk). by exists k. }
  assert (Hcount : ∀ k, length (group_rows (key <$> positions) k)
                        = if decide (k ∈ ks) then n else 0).
  { intros k. rewrite length_group_rows.
    apply length_filter_sampled; [apply NoDup_group_keys|].
    eapply Forall2_impl; [exact Hall'|]. simpl. intros k' s [Hlen Hsub].
    split; [done|]. intros p Hp. by apply Hsub. }
  assert (Hsame : ∀ k, Some k ∈ key <$> positions ↔ Some k ∈ keys_in).
  { intros k. rewrite <-(elem_of_group_keys tuple_leb keys_in). fold ks.
    split.
    - intros (p & Hp & Hin)%list_elem_of_fmap.
      destruct (Hpos p Hin) as (_ & k' & Hk' & Hkey). congruence.
    - intros Hk. specialize (Hcount k). rewrite decide_True in Hcount by done.
      destruct (group_rows (key <$> positions) k) as [|i rows] eqn:Hrows;
        [simpl in Hcount; lia|].
      assert (Hi : i ∈ group_rows (key <$> positions) k)
        by (rewrite Hrows; left).
      apply elem_of_group_rows in Hi. by eapply list_elem_of_lookup_2. }
  exists out, (key <$> positions). split; [|split; [done|]].
  { unfold equisample. rewrite bool_decide_eq_false_2 by done.
    unfold frame_keys. rewrite Hcols, !Result_bind_Ok. fold keys_in ks n.
    simpl. by rewrite Hs. }
  split; [done|]. split; [|done].
  intros k Hk. rewrite Hcount, decide_True; [done|].
  apply (elem_of_group_keys tuple_leb). by apply Hsame.
Qed.

End EquisampleClaim.

(** ** fortify *)

Section FortifyFacts.
Import KindaTidy Fortify.

Lemma alist_get_zip_lookup (idx : list Z) (vals : list num) i label :
  NoDup idx → length idx = length vals →
  idx !! i = Some label →
  alist_get label (zip idx vals) = vals !! i.
Proof.
  revert vals i. induction idx as [|x idx IH]; intros [|v vals] i Hnd Hlen Hi;
    simpl in *; try done.
  apply NoDup_cons in Hnd as [Hx Hnd]. injection Hlen as Hlen.
  destruct i as [|i]; simpl in *.
  - injection Hi as ->. by rewrite decide_True.
  - rewrite decide_False.
    + by apply IH.
    + intros ->. apply Hx. by eapply list_elem_of_lookup_2.
Qed.

Lemma alist_get_zip_None (idx : list Z) (vals : list num) label :
  label ∉ idx → alist_get label (zip idx vals) = None.
Proof.
  revert vals. induction idx as [|x idx IH]; intros [|v vals] Hnin;
    simpl; try done.
  apply not_elem_of_cons in Hnin as [Hne Hnin].
  rewrite decide_False by done. by apply IH.
Qed.

(** The fitted value laid out on row [i] of the table. *)
Lemma reindex_for_setitem_lookup s index fitted i label :
  NoDup (s_index s) → length (s_index s) = length (s_values s) →
  reindex_for_setitem s index = Ok fitted →
  index !! i = Some label →
  fitted !! i = Some (default NaN (series_get s label)).
Proof.
  intros Hnd Hlen. unfold reindex_for_setitem.
  case_bool_decide as Heq.
  - intros [= <-] Hi. subst index. unfold series_get.
    rewrite (alist_get_zip_lookup _ _ i label) by done.
    destruct (s_values s !! i) as [v|] eqn:Hv; [done|].
    apply lookup_ge_None in Hv. apply lookup_lt_Some in Hi. lia.
  - case_bool_decide; [done|].
    rewrite bool_decide_eq_true_2 by done. intros [= <-] Hi.
    by rewrite list_lookup_fmap, Hi.
Qed.

Lemma reindex_for_setitem_ok s index :
  NoDup (s_index s) → length (s_index s) = length (s_values s) →
  index ≠ [] →
  ∃ fitted,
    reindex_for_setitem s index = Ok fitted ∧ length fitted = length index.
Proof.
  intros Hnd Hlen Hne. unfold reindex_for_setitem.
  case_bool_decide as Heq.
  - eexists. split; [done|]. by rewrite <-Heq.
  - rewrite bool_decide_eq_false_2, bool_decide_eq_true_2 by done.
    eexists. split; [done|]. by rewrite length_fmap.
Qed.

Lemma omap_lookup_S {A} (x : A) (l : list A) (positions : list nat) :
  omap (λ i, (x :: l) !! i) (S <$> positions) = omap (λ i, l !! i) positions.
Proof.
  induction positions as [|i rest IH]; [done|].
  change (S <$> i :: rest) with (S i :: (S <$> rest)).
  change (omap (λ i, (x :: l) !! i) (S i :: (S <$> rest)))
    with (match l !! i with
          | Some y => y :: omap (λ i, (x :: l) !! i) (S <$> rest)
          | None => omap (λ i, (x :: l) !! i) (S <$> rest)
          end).
  by rewrite IH.
Qed.

Lemma take_positions_all {A} (l : list A) :
  take_positions (seq 0 (length l)) l = l.
Proof.
  unfold take_positions. induction l as [|x l IH]; [done|].
  change (seq 0 (length (x :: l))) with (0 :: seq 1 (length l)).
  rewrite <-fmap_S_seq.
  change (omap (λ i, (x :: l) !! i) (0 :: (S <$> seq 0 (length l))))
    with (x :: omap (λ i, (x :: l) !! i) (S <$> seq 0 (length l))).
  by rewrite omap_lookup_S, IH.
Qed.

(** A run of [fortify] in which the fitted values can be laid out. *)
Lemma fortify_statsmodels_ok σ (self : ResultsWrapper) df cols fitted :
  σ !! model_data_frame self = Some df →
  df_columns df = Index cols →
  reindex_for_setitem (fittedvalues self) (df_index df) = Ok fitted →
  ∃ out,
    fortify_statsmodels self σ = (Ok (length σ), σ ++ [out])
    ∧ df_index out = df_index df
    ∧ (∀ c, c ≠ Name "fitted" → get_column out c = get_column df c)
    ∧ get_column out (Name "fitted") = Some (NumCol fitted).
Proof.
  intros Hself Hcols Hfit.
  set (out := {| df_index := df_index df;
                 df_columns := Index (alist_set "fitted" (NumCol fitted)
                                        cols) |}).
  assert (set_column df (Name "fitted") (NumCol fitted) = Some out) as Hset.
  { unfold set_column. by rewrite Hcols. }
  exists out. split; [|split; [done|split]].
  - unfold fortify_statsmodels, setitem_series.
    rewrite run_bind, (copy_at _ _ _ Hself). cbv beta iota.
    rewrite run_bind, run_bind, read_last. cbv beta iota.
    rewrite run_bind, run_lift, Hfit. cbv beta iota.
    rewrite setitem_last. unfold setitem_frame. by rewrite Hset.
  - intros c Hc. by eapply get_set_column_ne.
  - by eapply get_set_column_eq.
Qed.

(** ** C8 *)

(** C8, for fits whose rows can be told by their labels.  The rows at the
    positions [used] of the fitted-on table took part in the fit, and the
    fitted values are labelled by the labels of these rows.  When every
    row took part, or when the rows that took part carry labels that are
    pairwise distinct and that no excluded row shares (as is the case
    whenever the row labels of the table are distinct), [fortify] returns
    a new table, a copy of the table the model was fitted on (that table
    itself left as it was): the same row labels in the same order, the
    same columns, and the column [fitted], which holds at the position of
    every row that took part the fitted value of that row and at the
    position of every excluded row the missing value. *)
Theorem fortify_aligns_fitted_values σ (self : ResultsWrapper) df cols
    (used : list nat) :
  σ !! model_data_frame self = Some df →
  df_columns df = Index cols →
  Forall (λ i, i < nrows df) used →
  s_index (fittedvalues self) = take_positions used (df_index df) →
  length (s_values (fittedvalues self)) = length used →
  used = seq 0 (nrows df)
  ∨ (NoDup (s_index (fittedvalues self))
     ∧ ∀ i label, i ∉ used → df_index df !! i = Some label →
                  label ∉ s_index (fittedvalues self)) →
  ∃ data out fitted,
    (fortify_statsmodels self σ).1 = Ok data
    ∧ length σ ≤ data
    ∧ (fortify_statsmodels self σ).2 !! data = Some out
    ∧ (∀ l, l < length σ → (fortify_statsmodels self σ).2 !! l = σ !! l)
    ∧ df_index out = df_index df
    ∧ (∀ c, c ≠ Name "fitted" → get_column out c = get_column df c)
    ∧ get_column out (Name "fitted") = Some (NumCol fitted)
    ∧ length fitted = nrows df
    ∧ (∀ i, i < nrows df → i ∉ used → fitted !! i = Some NaN)
    ∧ (∀ j i, used !! j = Some i →
         fitted !! i = s_values (fittedvalues self) !! j
         ∧ is_Some (fitted !! i)).
Proof.
  intros Hself Hcols Hused Hlabels Hvals Hcase.
  set (s := fittedvalues self) in *. unfold nrows in *.
  assert (length (s_index s) = length (s_values s)) as Hlen.
  { by rewrite Hlabels, length_take_positions, Hvals. }
  assert (∃ fitted,
            reindex_for_setitem s (df_index df) = Ok fitted
            ∧ length fitted = length (df_index df)
            ∧ (∀ i, i < length (df_index df) → i ∉ used →
                    fitted !! i = Some NaN)
            ∧ (∀ j i, used !! j = Some i →
                 fitted !! i = s_values s !! j ∧ is_Some (fitted !! i)))
    as (fitted & Hfit & Hflen & Hout & Hin).
  { destruct Hcase as [Hall|[Hnd Hexcl]].
    - (* every row took part *)
      assert (s_index s = df_index df) as Heq.
      { by rewrite Hlabels, Hall, take_positions_all. }
      exists (s_values s). unfold reindex_for_setitem.
      rewrite bool_decide_eq_true_2 by done.
      split; [done|]. split; [by rewrite <-Hlen, Heq|]. split.
      + intros i Hi Hni. exfalso. apply Hni. rewrite Hall.
        apply elem_of_seq. lia.
      + intros j i Hj. rewrite Hall in Hj.
        apply lookup_seq in Hj as [-> Hj]. simpl. split; [done|].
        apply lookup_lt_is_Some_2. rewrite <-Hlen, Heq. lia.
    - (* the rows that took part are told by their labels *)
      assert (∃ fitted, reindex_for_setitem s (df_index df) = Ok fitted
                        ∧ length fitted = length (df_index df))
        as (fitted & Hfit & Hflen).
      { destruct (decide (df_index df = [])) as [Hnil|Hne].
        - exists (s_values s). unfold reindex_for_setitem.
          assert (s_index s = df_index df) as Heq.
          { rewrite Hlabels, Hnil. rewrite Hnil in Hused.
            destruct Hused as [|i ? Hi _]; [done|]. simpl in Hi. lia. }
          rewrite bool_decide_eq_true_2 by done.
          split; [done|]. by rewrite <-Hlen, Heq.
        - by apply reindex_for_setitem_ok. }
      exists fitted. split; [done|]. split; [done|]. split.
      + intros i Hi Hni.
        apply lookup_lt_is_Some_2 in Hi as [label Hlabel].
        rewrite (reindex_for_setitem_lookup s _ _ i label Hnd Hlen Hfit
                   Hlabel).
        unfold series_get. rewrite alist_get_zip_None; [done|].
        by eapply Hexcl.
      + intros j i Hj.
        pose proof (proj1 (Forall_forall _ _) Hused i
                      (list_elem_of_lookup_2 _ _ _ Hj)) as Hi.
        apply lookup_lt_is_Some_2 in Hi as [label Hlabel].
        rewrite (reindex_for_setitem_lookup s _ _ i label Hnd Hlen Hfit
                   Hlabel).
        assert (s_index s !! j = Some label) as Hsj.
        { rewrite Hlabels, (lookup_take_positions _ _ j i) by done.
          exact Hlabel. }
        unfold series_get.
        rewrite (alist_get_zip_lookup _ _ j label) by done.
        destruct (s_values s !! j) as [v|] eqn:Hv.
        * split; [done|by eexists].
        * apply lookup_ge_None in Hv. apply lookup_lt_Some in Hj. lia. }
  destruct (fortify_statsmodels_ok σ self df cols fitted Hself Hcols Hfit)
    as (out & -> & Hidx & Hother & Hcol).
  exists (length σ), out, fitted. simpl.
  split; [done|]. split; [done|]. split; [apply lookup_last|].
  split; [intros l Hl; by apply lookup_app_l|].
  split; [done|]. split; [done|]. split; [done|]. split; [done|].
  split; [done|]. exact Hin.
Qed.

(** X25: the fitted values are laid out by label.  For a fitted result
    whose fitted values carry distinct labels, [fortify] returns a new
    table, a copy of the table the model was fitted on (that table itself
    left as it was): the same row labels in the same order, the same
    columns, and the column [fitted] holding on every row the fitted
    value carried under that row's label, and the missing value on a row
    whose label carries none. *)
Theorem fortify_fitted_by_label σ (self : ResultsWrapper) df cols :
  σ !! model_data_frame self = Some df →
  df_columns df = Index cols →
  df_index df ≠ [] →
  NoDup (s_index (fittedvalues self)) →
  length (s_index (fittedvalues self))
  = length (s_values (fittedvalues self)) →
  ∃ data out fitted,
    (fortify_statsmodels self σ).1 = Ok data
    ∧ length σ ≤ data
    ∧ (fortify_statsmodels self σ).2 !! data = Some out
    ∧ (∀ l, l < length σ → (fortify_statsmodels self σ).2 !! l = σ !! l)
    ∧ df_index out = df_index df
    ∧ (∀ c, c ≠ Name "fitted" → get_column out c = get_column df c)
    ∧ get_column out (Name "fitted") = Some (NumCol fitted)
    ∧ length fitted = nrows df
    ∧ (∀ i label, df_index df !! i = Some label →
         fitted !! i
         = Some (default NaN (series_get (fittedvalues self) label)))
    ∧ (∀ i label, df_index df !! i = Some label →
         label ∉ s_index (fittedvalues self) → fitted !! i = Some NaN)
    ∧ (∀ i j label, df_index df !! i = Some label →
         s_index (fittedvalues self) !! j = Some label →
         fitted !! i = s_values (fittedvalues self) !! j
         ∧ is_Some (fitted !! i)).
Proof.
  intros Hself Hcols Hne Hnd Hlen.
  destruct (reindex_for_setitem_ok _ (df_index df) Hnd Hlen Hne)
    as (fitted & Hfit & Hflen).
  destruct (fortify_statsmodels_ok σ self df cols fitted Hself Hcols Hfit)
    as (out & -> & Hidx & Hother & Hcol).
  exists (length σ), out, fitted. simpl.
  split; [done|]. split; [done|]. split; [apply lookup_last|].
  split; [intros l Hl; by apply lookup_app_l|].
  split; [done|]. split; [done|]. split; [done|]. split; [done|].
  assert (∀ i label, df_index df !! i = Some label →
            fitted !! i
            = Some (default NaN (series_get (fittedvalues self) label)))
    as Hlook.
  { intros i label Hi. by eapply reindex_for_setitem_lookup. }
  split; [done|]. split.
  - intros i label Hi Hnin. rewrite (Hlook _ _ Hi). unfold series_get.
    by rewrite alist_get_zip_None.
  - intros i j label Hi Hj. rewrite (Hlook _ _ Hi). unfold series_get.
    rewrite (alist_get_zip_lookup _ _ j label) by done.
    destruct (s_values (fittedvalues self) !! j) as [v|] eqn:Hv.
    + split; [done|by eexists].
    + apply lookup_ge_None in Hv. apply lookup_lt_Some in Hj. lia.
Qed.

End FortifyFacts.

(** ** The claims on the tables of the tests *)

Section ExampleFacts.
Import KindaTidy Fortify Examples MoreExamples.

Lemma alist_get_elem_of {K V} `{EqDecision K} (k : K) (v : V) l :
  alist_get k l = Some v → (k, v) ∈ l.
Proof.
  induction l as [|[k' v'] l IH]; simpl; [done|].
  destruct (decide (k = k')) as [->|].
  - intros [= ->]. left.
  - intros Hl. right. by apply IH.
Qed.

Lemma wf_frame_Forall df :
  match df_columns df with
  | Index cols => Forall (λ kc, wf_column kc.2) cols
  | MultiIndex cols => Forall (λ kc, wf_column kc.2) cols
  end →
  wf_frame df.
Proof.
  intros Hall c col. unfold get_column.
  destruct (df_columns df) as [cols|cols], c as [s|t]; try done;
    intros Hin%alist_get_elem_of;
    by apply (proj1 (Forall_forall _ _) Hall _ Hin).
Qed.

Lemma wf_column_check cats vals :
  bool_decide (NoDup cats)
  && forallb (λ v, match v with
                   | Some s => bool_decide (s ∈ cats)
                   | None => true
                   end) vals = true →
  wf_column (CatCol cats vals).
Proof.
  intros [Hnd%bool_decide_eq_true Hall]%andb_prop. split; [done|].
  intros s Hs%list_elem_of_In.
  apply (proj1 (forallb_forall _ _) Hall) in Hs.
  by apply bool_decide_eq_true in Hs.
Qed.

Lemma wf_levels_df : wf_frame levels_df.
Proof.
  apply wf_frame_Forall. simpl.
  repeat (apply Forall_cons_2;
            [first [by apply wf_column_check | exact I]|]).
  apply Forall_nil_2.
Qed.

Lemma first_positions_valid : valid_choice first_positions.
Proof.
  intros n m Hn. unfold first_positions.
  split; [apply length_seq|]. split; [apply NoDup_seq|].
  apply Forall_forall. intros i Hi%elem_of_seq. lia.
Qed.

Lemma set_categorical_orders_levels_by_aggregate_witness :
  ∃ df',
    returns (set_categorical "group" (Some "value") np_sum false None false
               "_other" 0) [input_df] df'
    ∧ get_column df' (Name "group")
      = Some (CatCol ["b"; "c"; "a"]
                (Some <$> ["a"; "a"; "a"; "b"; "b"; "c"])).
Proof.
  destruct (set_categorical_orders_levels_by_aggregate "group" "value"
              np_sum None false "_other" [input_df] 0 input_df
              (ObjectCol (Some <$> ["a"; "a"; "a"; "b"; "b"; "c"]))
              (ints [1; 2; 3; 4; 5; 7]%Z))
    as (df' & levels & Hret & _).
  - done.
  - reflexivity.
  - reflexivity.
  - reflexivity.
  - by eexists.
  - reflexivity.
  - exists df'. split; [exact Hret|].
    destruct Hret as (l & Hl & Hdf).
    vm_compute in Hl. injection Hl as <-.
    vm_compute in Hdf. injection Hdf as <-. reflexivity.
Defined.

Lemma set_categorical_top_n_witness :
  (∃ df',
      returns (set_categorical "group" (Some "value") np_sum false
                 (Some 2%Z) false "_other" 0) [input_df] df'
      ∧ df_index df' = [3; 4; 5]%Z)
  ∧ (∃ df',
        returns (set_categorical "group" (Some "value") np_sum false
                   (Some 2%Z) true "_other" 0) [input_df] df'
        ∧ get_column df' (Name "group")
          = Some (CatCol ["b"; "c"; "_other"]
                    (Some <$> ["_other"; "_other"; "_other";
                               "b"; "b"; "c"]))).
Proof.
  destruct (set_categorical_top_n "group" "value" np_sum false 2%Z
              "_other" [input_df] 0 input_df
              (ObjectCol (Some <$> ["a"; "a"; "a"; "b"; "b"; "c"]))
              (ints [1; 2; 3; 4; 5; 7]%Z))
    as (kept & _ & (d1 & l1 & Hret1 & _)
        & (d2 & l2 & ranked & Hret2 & _)).
  - done.
  - lia.
  - reflexivity.
  - reflexivity.
  - by eexists.
  - reflexivity.
  - reflexivity.
  - split.
    + exists d1. split; [exact Hret1|].
      destruct Hret1 as (l & Hl & Hdf).
      vm_compute in Hl. injection Hl as <-.
      vm_compute in Hdf. injection Hdf as <-. reflexivity.
    + exists d2. split; [exact Hret2|].
      destruct Hret2 as (l & Hl & Hdf).
      vm_compute in Hl. injection Hl as <-.
      vm_compute in Hdf. injection Hdf as <-. reflexivity.
Defined.

Lemma set_categorical_reverse_with_value_column_witness :
  ∃ cats vals,
    get_column ranked_df (Name "group") = Some (CatCol cats vals)
    ∧ get_column (alter_column reverse_levels_of (Name "group") ranked_df)
        (Name "group") = Some (CatCol (reverse cats) vals)
    ∧ returns (set_categorical "group" (Some "value") np_sum true None
                 false "_other" 0) [input_df]
        (alter_column reverse_levels_of (Name "group") ranked_df).
Proof.
  apply (set_categorical_reverse_with_value_column "group" (Some "value")
           np_sum None false "_other" [input_df] 0 input_df ranked_df).
  - reflexivity.
  - reflexivity.
  - exists 1. split; reflexivity.
Defined.

(** Without a value column [reverse] is not looked at: on [input_df] the
    levels are ["a"; "b"; "c"] with [reverse] false and with [reverse]
    true, not one order and its opposite. *)
Lemma set_categorical_reverse_ignored_without_value_column :
  category_levels
    (call (set_categorical "group" None np_sum false None false "_other")
       input_df) "group" = Some ["a"; "b"; "c"]
  ∧ category_levels
      (call (set_categorical "group" None np_sum true None false "_other")
         input_df) "group" = Some ["a"; "b"; "c"]
  ∧ ["a"; "b"; "c"] ≠ reverse ["a"; "b"; "c"].
Proof. split; [reflexivity|]. split; [reflexivity|]. discriminate. Qed.

Lemma set_categorical_without_value_column_witness :
  (∃ df',
      returns (set_categorical "group" None np_sum false (Some 1%Z) true
                 "_other" 0) [input_df] df'
      ∧ get_column df' (Name "group")
        = Some (CatCol ["a"; "b"; "c"]
                  (Some <$> ["a"; "a"; "a"; "b"; "b"; "c"])))
  ∧ set_categorical "group" None np_sum false (Some 1%Z) true "_other" 0
      [input_df]
    = set_categorical "group" None np_sum false None false "_other" 0
        [input_df].
Proof.
  destruct (set_categorical_without_value_column "group" None np_sum false
              (Some 1%Z) true "_other" [input_df] 0 input_df
              (ObjectCol (Some <$> ["a"; "a"; "a"; "b"; "b"; "c"])))
    as [(df' & Hret & Hcol & _) Hsame].
  - reflexivity.
  - reflexivity.
  - reflexivity.
  - by eexists.
  - split; [|exact Hsame]. exists df'. split; [exact Hret|].
    rewrite Hcol. reflexivity.
Defined.

Lemma equisample_equal_group_sizes_witness :
  ∃ out keys_out,
    equisample first_positions equisample_df ["l1"] None = Ok out
    ∧ frame_keys out ["l1"] = Ok keys_out
    ∧ length (group_rows keys_out ["a"]) = 3
    ∧ length (group_rows keys_out ["b"]) = 3.
Proof.
  destruct (equisample_equal_group_sizes first_positions equisample_df
              ["l1"]
              (Some <$> [["a"]; ["a"]; ["a"]; ["a"]; ["b"]; ["b"]; ["b"]])
              ["a"])
    as (out & keys_out & Hout & Hkeys & Hsame & Hsize & _).
  - exact first_positions_valid.
  - done.
  - reflexivity.
  - left.
  - exists out, keys_out. split; [exact Hout|]. split; [exact Hkeys|].
    split.
    + rewrite Hsize; [reflexivity|]. apply Hsame. left.
    + rewrite Hsize; [reflexivity|]. apply Hsame.
      do 4 right. left.
Defined.

Lemma fortify_aligns_fitted_values_witness :
  ∃ data out fitted,
    (fortify_statsmodels fit_nan_predictor [df_nan_predictor]).1 = Ok data
    ∧ (fortify_statsmodels fit_nan_predictor [df_nan_predictor]).2 !! data
      = Some out
    ∧ df_index out = [0; 1; 2; 3]%Z
    ∧ get_column out (Name "fitted") = Some (NumCol fitted)
    ∧ fitted !! 2 = Some NaN
    ∧ fitted !! 3 = Some (Fin 4).
Proof.
  destruct (fortify_aligns_fitted_values [df_nan_predictor]
              fit_nan_predictor df_nan_predictor
              [("x", NumCol [Fin 1; Fin 2; NaN; Fin 4]);
               ("y", NumCol (ints [1; 2; 3; 4]%Z))]
              [0; 1; 3])
    as (data & out & fitted & Hdata & _ & Hout & _ & Hidx & _ & Hcol & _
        & Hexcl & Hused).
  - reflexivity.
  - reflexivity.
  - unfold nrows. simpl.
    repeat (apply Forall_cons_2; [lia|]). apply Forall_nil_2.
  - reflexivity.
  - reflexivity.
  - right. split; [simpl; by apply (proj1 (bool_decide_eq_true _))|].
    intros i label Hni Hi Hin. apply Hni.
    destruct i as [|[|[|[|i]]]]; simpl in Hi; [left|right; left| |
      do 2 right; left|discriminate].
    injection Hi as <-. exfalso. simpl in Hin.
    repeat (apply elem_of_cons in Hin as [Hin|Hin]; [discriminate|]).
    inversion Hin.
  - exists data, out, fitted.
    split; [exact Hdata|]. split; [exact Hout|]. split; [exact Hidx|].
    split; [exact Hcol|]. split.
    + apply Hexcl; [unfold nrows; simpl; lia|]. intros Hin.
      repeat (apply elem_of_cons in Hin as [Hin|Hin]; [discriminate|]).
      inversion Hin.
    + by destruct (Hused 2 3 eq_refl) as [-> _].
Defined.

(** Rows that share a label.  On [df_shared_label] the row at position 2
    took no part in the fit and carries the label of the row at position
    1: it gets the fitted value of that row, not the missing value.  On
    [df_shared_fitted_label] two rows that took part carry the same
    label and the call raises [ValueError]. *)
Lemma fortify_excluded_row_with_shared_label :
  (s_index (fittedvalues fit_shared_label)
   = take_positions [0; 1] (df_index df_shared_label)
   ∧ fitted_column (fortify_statsmodels fit_shared_label [df_shared_label])
     = Some (ints [10; 20; 20]%Z)
   ∧ ints [10; 20; 20]%Z !! 2 ≠ Some NaN)
  ∧ (s_index (fittedvalues fit_shared_fitted_label)
     = take_positions [0; 1] (df_index df_shared_fitted_label)
     ∧ (fortify_statsmodels fit_shared_fitted_label
          [df_shared_fitted_label]).1 = Raise ValueError).
Proof.
  split; [split; [reflexivity|split; [reflexivity|discriminate]]|].
  split; reflexivity.
Qed.

Lemma flatten_twice_and_reverse_twice_witness :
  (∃ l1,
      (flatten_columns "_" 0 [multiindex_df]).1 = Ok l1
      ∧ flatten_columns "-" l1 (flatten_columns "_" 0 [multiindex_df]).2
        = (Ok l1, (flatten_columns "_" 0 [multiindex_df]).2))
  ∧ (∃ d1,
        returns (reverse_categories TNone 0) [levels_df] d1
        ∧ returns (reverse_categories TNone 0) [d1] levels_df).
Proof.
  destruct flatten_twice_and_reverse_twice as [Hflat Hrev]. split.
  - destruct (Hflat "_" "-" [multiindex_df] 0 multiindex_df)
      as (l1 & Hl1 & _ & Hagain & _); [reflexivity|].
    exists l1. by split.
  - destruct (Hrev TNone [levels_df] 0 levels_df) as [Hex Hback].
    + reflexivity.
    + exact wf_levels_df.
    + destruct (Hex eq_refl) as [d1 Hd1]. exists d1. split; [exact Hd1|].
      by apply (Hback d1 Hd1 [d1] 0).
Defined.

Lemma copying_methods_leave_input_unchanged_witness :
  (set_categorical "group" (Some "value") np_sum false (Some 2%Z) false
     "_other" 0 [input_df]).2 !! 0 = Some input_df
  ∧ (drop_unused_levels TNone 0 [levels_df]).2 !! 0 = Some levels_df.
Proof.
  split.
  - exact (proj1 (copying_methods_leave_input_unchanged
                    (set_categorical "group" (Some "value") np_sum false
                       (Some 2%Z) false "_other")
                    [input_df] 0 input_df
                    (method_set_categorical _ _ _ _ _ _ _) eq_refl)).
  - exact (proj1 (copying_methods_leave_input_unchanged
                    (drop_unused_levels TNone) [levels_df] 0 levels_df
                    (method_drop_unused_levels _) eq_refl)).
Defined.

End ExampleFacts.

(** ** Loops over the target columns *)

Section AlterLoop.
Import KindaTidy.
Implicit Types (df d : DataFrame) (c : Label) (col : Column).

(** A loop body that applies [f] to the column it is given, on the tables
    that satisfy [Inv]. *)
Variable f : Column → Column.
Variable step : Label → DataFrame → Result DataFrame.
Variable Inv : DataFrame → Prop.
Hypothesis step_alter : ∀ c df, Inv df →
  step c df = match get_column df c with
              | Some _ => Ok (alter_column f c df)
              | None => Raise KeyError
              end.
Hypothesis Inv_alter : ∀ c df, Inv df → Inv (alter_column f c df).

Lemma visits_cons c c' ls :
  visits c (c' :: ls) = if decide (c' = c) then S (visits c ls) else visits c ls.
Proof. unfold visits. rewrite filter_cons. by destruct (decide (c' = c)). Qed.

Lemma visits_0 c ls : c ∉ ls → visits c ls = 0.
Proof.
  induction ls as [|c' ls IH]; [done|]. rewrite not_elem_of_cons.
  intros [Hne Hout]. rewrite visits_cons, decide_False by done. by apply IH.
Qed.

Lemma visits_pos c ls : c ∈ ls → 0 < visits c ls.
Proof.
  induction ls as [|c' ls IH]; [by intros ?%elem_of_nil|].
  rewrite elem_of_cons, visits_cons. intros [->|Hin].
  - rewrite decide_True by done. lia.
  - destruct (decide (c' = c)); [lia|by apply IH].
Qed.

Lemma visits_NoDup c ls : NoDup ls → c ∈ ls → visits c ls = 1.
Proof.
  induction 1 as [|c' ls Hout _ IH]; [by intros ?%elem_of_nil|].
  rewrite elem_of_cons, visits_cons. intros [->|Hin].
  - rewrite decide_True by done. by rewrite visits_0.
  - rewrite decide_False by (by intros ->). by apply IH.
Qed.

Lemma alter_loop_spec ls df :
  Inv df →
  (∀ c, c ∈ ls → is_Some (get_column df c)) →
  ∃ out,
    for_each_frame ls step df = Ok out
    ∧ Inv out
    ∧ df_index out = df_index df
    ∧ labels (df_columns out) = labels (df_columns df)
    ∧ ∀ c, get_column out c = Nat.iter (visits c ls) f <$> get_column df c.
Proof using step_alter Inv_alter.
  revert df. induction ls as [|c0 ls IH]; intros df HInv Hall; simpl.
  - exists df. repeat split; try done.
    intros c. by destruct (get_column df c).
  - rewrite step_alter by done.
    destruct (Hall c0) as [col0 Hcol0]; [by left|]. rewrite Hcol0.
    rewrite Result_bind_Ok.
    destruct (IH (alter_column f c0 df)) as (out & Hout & HI & Hidx & Hlab & Hget).
    { by apply Inv_alter. }
    { intros c Hc. rewrite get_alter_column. apply fmap_is_Some, Hall.
      by right. }
    exists out. split; [done|]. split; [done|]. split; [done|].
    split; [by rewrite Hlab, labels_alter_column|].
    intros c. rewrite Hget, get_alter_column, visits_cons.
    destruct (get_column df c) as [col|]; simpl; [|done].
    destruct (decide (c0 = c)) as [->|Hne]; [|done].
    simpl. by rewrite <-Nat.iter_succ_r.
Qed.

Lemma alter_loop_raise ls df :
  Inv df →
  (∃ c, c ∈ ls ∧ get_column df c = None) →
  for_each_frame ls step df = Raise KeyError.
Proof using step_alter Inv_alter.
  revert df. induction ls as [|c0 ls IH]; intros df HInv (c & Hc & Hnone).
  - by apply elem_of_nil in Hc.
  - simpl. rewrite step_alter by done.
    destruct (get_column df c0) as [col0|] eqn:Hcol0; [|done].
    rewrite Result_bind_Ok. apply IH; [by apply Inv_alter|].
    exists c. apply elem_of_cons in Hc as [->|Hc]; [congruence|].
    split; [done|]. by rewrite get_alter_column, Hnone.
Qed.

Lemma alter_loop_Ok_inv ls df out :
  Inv df →
  for_each_frame ls step df = Ok out →
  ∀ c, c ∈ ls → is_Some (get_column df c).
Proof using step_alter Inv_alter.
  intros HInv Hout c Hc.
  destruct (get_column df c) as [col|] eqn:Hcol; [by eexists|].
  rewrite alter_loop_raise in Hout; [done|done|by exists c].
Qed.

End AlterLoop.

(** ** drop_unused_levels *)

Section DropFacts.
Import KindaTidy.
Implicit Types (df d : DataFrame) (c : Label) (col : Column).

Lemma drop_step_alter c df :
  drop_step c df
  = match get_column df c with
    | Some _ => Ok (alter_column remove_unused_categories c df)
    | None => Raise KeyError
    end.
Proof.
  unfold drop_step, getitem_frame.
  destruct (get_column df c) as [col|] eqn:Hget; [|done].
  rewrite Result_bind_Ok.
  destruct (is_categorical_dtype col) eqn:Hcat.
  - unfold setitem_frame.
    by rewrite (set_column_alter remove_unused_categories _ _ _ Hget).
  - rewrite (alter_column_fixed _ _ _ col); [done|done|].
    by destruct col.
Qed.

Lemma remove_unused_categories_idem col :
  remove_unused_categories (remove_unused_categories col)
  = remove_unused_categories col.
Proof.
  destruct col as [| |cats vals]; simpl; try done. f_equal.
  induction cats as [|s cats IH]; [done|].
  rewrite filter_cons. destruct (decide (Some s ∈ vals)) as [Hin|Hout].
  - rewrite filter_cons, decide_True by done. by rewrite IH.
  - done.
Qed.

Lemma iter_remove_unused n col :
  0 < n → Nat.iter n remove_unused_categories col
          = remove_unused_categories col.
Proof.
  induction n as [|n IH]; [lia|]. intros _. simpl.
  destruct n as [|n]; [done|].
  rewrite IH by lia. apply remove_unused_categories_idem.
Qed.

Lemma drop_loop_fixed ls d :
  (∀ c, c ∈ ls →
     ∃ col, get_column d c = Some col ∧ remove_unused_categories col = col) →
  for_each_frame ls drop_step d = Ok d.
Proof.
  induction ls as [|c ls IH]; intros Hall; simpl; [done|].
  rewrite drop_step_alter.
  destruct (Hall c) as (col & Hcol & Hfix); [by left|]. rewrite Hcol.
  rewrite (alter_column_fixed _ _ _ col) by done.
  rewrite Result_bind_Ok. apply IH. intros c' Hc'. apply Hall. by right.
Qed.

(** X1: [drop_unused_levels] on any table.  When every target column
    exists (always so with the default target, all columns), it returns a
    table with the row labels and the column labels of the input, in which
    each target column has lost the levels that no cell carries, the
    remaining levels keeping their order and the cells their values, and
    every other column is as it was; after the call every level of a
    target column occurs in a cell.  When a target names a column the table
    does not have, the call raises [KeyError]. *)
Theorem drop_unused_levels_spec target_columns σ self df :
  σ !! self = Some df →
  let targets := target_labels target_columns (labels (df_columns df)) in
  ((∀ c, c ∈ targets → is_Some (get_column df c)) →
     ∃ out,
       returns (drop_unused_levels target_columns self) σ out
       ∧ df_index out = df_index df
       ∧ labels (df_columns out) = labels (df_columns df)
       ∧ (∀ c col, get_column df c = Some col →
            get_column out c
            = Some (if decide (c ∈ targets)
                    then remove_unused_categories col else col))
       ∧ (∀ c cats vals,
            c ∈ targets → get_column out c = Some (CatCol cats vals) →
            ∃ cats0,
              get_column df c = Some (CatCol cats0 vals)
              ∧ cats `sublist_of` cats0
              ∧ ∀ s, s ∈ cats ↔ s ∈ cats0 ∧ Some s ∈ vals))
  ∧ ((∃ c, c ∈ targets ∧ get_column df c = None) →
       (drop_unused_levels target_columns self σ).1 = Raise KeyError).
Proof.
  intros Hself targets.
  pose proof (drop_unused_levels_run target_columns σ self df Hself) as Hy.
  unfold drop_unused_levels_frame in Hy. fold targets in Hy. split.
  - intros Hall.
    destruct (alter_loop_spec remove_unused_categories drop_step
                (λ _, True) (λ c d _, drop_step_alter c d) (λ _ _ _, I)
                targets df I Hall)
      as (out & Hout & _ & Hidx & Hlab & Hget).
    rewrite Hout in Hy. exists out.
    split; [by apply returns_of_yields|]. split; [done|]. split; [done|].
    assert (Hcols : ∀ c col, get_column df c = Some col →
              get_column out c
              = Some (if decide (c ∈ targets)
                      then remove_unused_categories col else col)).
    { intros c col Hcol. rewrite Hget, Hcol. simpl. f_equal.
      destruct (decide (c ∈ targets)) as [Hin|Hout'].
      - apply iter_remove_unused. by apply visits_pos.
      - by rewrite visits_0. }
    split; [exact Hcols|].
    intros c cats vals Hc Hcat.
    destruct (Hall c Hc) as [col Hcol].
    rewrite (Hcols c col Hcol), decide_True in Hcat by done.
    destruct col as [| |cats0 vals0]; simpl in Hcat; try done.
    injection Hcat as <- <-. exists cats0. split; [done|].
    split; [apply sublist_filter|].
    intros s. rewrite list_elem_of_filter. tauto.
  - intros Hmiss. eapply yields_raises; [exact Hy|].
    by apply (alter_loop_raise remove_unused_categories drop_step
                (λ _, True) (λ c d _, drop_step_alter c d) (λ _ _ _, I)).
Qed.

(** X2: [drop_unused_levels] is idempotent: called with the same target on
    a table it returned, it returns that table again. *)
Theorem drop_unused_levels_idempotent target_columns σ self df d1 :
  σ !! self = Some df →
  returns (drop_unused_levels target_columns self) σ d1 →
  ∀ σ' self', σ' !! self' = Some d1 →
    returns (drop_unused_levels target_columns self') σ' d1.
Proof.
  intros Hself Hret σ' self' Hself'.
  pose proof (drop_unused_levels_run target_columns σ self df Hself) as Hy.
  pose proof (yields_of_returns _ _ _ _ Hy Hret) as H1.
  unfold drop_unused_levels_frame in H1.
  set (targets := target_labels target_columns (labels (df_columns df))) in *.
  pose proof (alter_loop_Ok_inv remove_unused_categories drop_step
                (λ _, True) (λ c d _, drop_step_alter c d) (λ _ _ _, I)
                targets df d1 I H1) as Hall.
  destruct (alter_loop_spec remove_unused_categories drop_step
              (λ _, True) (λ c d _, drop_step_alter c d) (λ _ _ _, I)
              targets df I Hall)
    as (out & Hout & _ & _ & Hlab & Hget).
  rewrite H1 in Hout. injection Hout as <-.
  apply returns_of_yields.
  pose proof (drop_unused_levels_run target_columns σ' self' d1 Hself') as Hy'.
  unfold drop_unused_levels_frame in Hy'. rewrite Hlab in Hy'.
  fold targets in Hy'. rewrite drop_loop_fixed in Hy'; [done|].
  intros c Hc. destruct (Hall c Hc) as [col Hcol].
  exists (remove_unused_categories col). split.
  - rewrite Hget, Hcol. simpl. f_equal.
    apply iter_remove_unused. by apply visits_pos.
  - apply remove_unused_categories_idem.
Qed.

End DropFacts.

(** ** reverse_categories *)

Section ReverseFacts.
Import KindaTidy.
Implicit Types (df d : DataFrame) (c : Label) (col : Column).

(** X3: [reverse_categories] on a table whose categoricals are well
    formed, with targets named once each and all present (always so with
    the default target on a table with distinct column names): it returns a
    table with the row labels and column labels of the input in which each
    categorical target column has its levels in the opposite order and its
    cells unchanged, and every other column is as it was.  When a target
    names a column the table does not have, the call raises [KeyError]. *)
Theorem reverse_categories_spec target_columns σ self df :
  σ !! self = Some df →
  wf_frame df →
  let targets := target_labels target_columns (labels (df_columns df)) in
  (NoDup targets →
   (∀ c, c ∈ targets → is_Some (get_column df c)) →
     ∃ out,
       returns (reverse_categories target_columns self) σ out
       ∧ df_index out = df_index df
       ∧ labels (df_columns out) = labels (df_columns df)
       ∧ (∀ c cats vals,
            c ∈ targets → get_column df c = Some (CatCol cats vals) →
            get_column out c = Some (CatCol (reverse cats) vals))
       ∧ (∀ c col,
            get_column df c = Some col →
            c ∉ targets ∨ is_categorical_dtype col = false →
            get_column out c = Some col))
  ∧ ((∃ c, c ∈ targets ∧ get_column df c = None) →
       (reverse_categories target_columns self σ).1 = Raise KeyError).
Proof.
  intros Hself Hwf targets.
  pose proof (reverse_categories_run target_columns σ self df Hself) as Hy.
  unfold reverse_categories_frame in Hy. fold targets in Hy. split.
  - intros Hnd Hall.
    destruct (alter_loop_spec reverse_levels_of reverse_step wf_frame
                reverse_step_wf wf_alter_reverse targets df Hwf Hall)
      as (out & Hout & _ & Hidx & Hlab & Hget).
    rewrite Hout in Hy. exists out.
    split; [by apply returns_of_yields|]. split; [done|]. split; [done|].
    split.
    + intros c cats vals Hc Hcol.
      by rewrite Hget, Hcol, (visits_NoDup c targets Hnd Hc).
    + intros c col Hcol [Hout'|Hcat]; rewrite Hget, Hcol; simpl; f_equal.
      * by rewrite visits_0.
      * assert (reverse_levels_of col = col) as Hfix by (by destruct col).
        induction (visits c targets) as [|n IH]; [done|].
        simpl. by rewrite IH.
  - intros Hmiss. eapply yields_raises; [exact Hy|].
    by apply (alter_loop_raise reverse_levels_of reverse_step wf_frame
                reverse_step_wf wf_alter_reverse).
Qed.

End ReverseFacts.

(** ** select_rows *)

Section SelectRowsFacts.
Import KindaTidy.
Implicit Types (df d : DataFrame) (c : Label) (col : Column).

Lemma length_select_true {A} (mask : list bool) (l : list A) :
  length mask = length l →
  length (select mask l) = length (filter (λ b, b = true) mask).
Proof.
  revert l. induction mask as [|m mask IH]; intros [|x l]; simpl; try done.
  intros [= Hlen]. rewrite filter_cons.
  destruct m; simpl; by rewrite IH.
Qed.

Lemma labels_map_columns g cs : labels (map_columns g cs) = labels cs.
Proof.
  destruct cs as [cols|cols]; simpl; f_equal;
    rewrite <-list_fmap_compose; by apply list_fmap_ext; intros ? [].
Qed.

(** X4: [select_rows] with a predicate that gives a list of booleans,
    not empty (an empty list would be read as a list of column names).
    When the list has one boolean per row, the call returns a table with
    exactly the rows where it gives true, in their order: the row labels
    and every column are the input's taken at those positions, so the row
    count is the number of trues; the column labels are the input's, and a
    categorical column keeps all its levels, also those no selected row
    carries.  When the list has another length, the call raises
    [ValueError]. *)
Theorem select_rows_spec predicate σ self df :
  σ !! self = Some df →
  let mask := predicate df in
  mask ≠ [] →
  (length mask = nrows df →
     ∃ out,
       returns (select_rows predicate self) σ out
       ∧ df_index out = select mask (df_index df)
       ∧ nrows out = length (filter (λ b, b = true) mask)
       ∧ labels (df_columns out) = labels (df_columns df)
       ∧ (∀ c, get_column out c = col_select mask <$> get_column df c)
       ∧ (∀ c cats vals,
            get_column df c = Some (CatCol cats vals) →
            get_column out c = Some (CatCol cats (select mask vals))))
  ∧ (length mask ≠ nrows df →
       (select_rows predicate self σ).1 = Raise ValueError).
Proof.
  intros Hself mask _.
  pose proof (select_rows_run predicate σ self df Hself) as Hy.
  unfold select_rows_frame, getitem_mask_frame in Hy. fold mask in Hy.
  split.
  - intros Hlen. rewrite (proj2 (Nat.eqb_eq _ _) Hlen) in Hy.
    exists (filter_rows mask df).
    split; [by apply returns_of_yields|]. split; [done|].
    split; [by apply length_select_true|].
    split; [apply labels_map_columns|].
    split; [intros c; apply get_filter_rows|].
    intros c cats vals Hcol. by rewrite get_filter_rows, Hcol.
  - intros Hlen. rewrite (proj2 (Nat.eqb_neq _ _) Hlen) in Hy.
    by eapply yields_raises.
Qed.

End SelectRowsFacts.

(** ** flatten_columns *)

Section FlattenFacts.
Import KindaTidy.
Implicit Types (s t : list ascii) (chars : string).

Lemma list_ascii_of_string_append (a b : string) :
  list_ascii_of_string (a +:+ b)
  = list_ascii_of_string a ++ list_ascii_of_string b.
Proof. induction a as [|ch a IH]; simpl; [done|]. by f_equal. Qed.

Lemma lstrip_split chars s :
  ∃ pre, s = pre ++ lstrip chars s
         ∧ Forall (λ ch, in_chars chars ch = true) pre.
Proof.
  induction s as [|ch s (pre & Hs & Hpre)]; simpl.
  - by exists [].
  - destruct (in_chars chars ch) eqn:Hch.
    + exists (ch :: pre). split; [simpl; by f_equal|by constructor].
    + by exists [].
Qed.

Lemma lstrip_head chars s ch :
  head (lstrip chars s) = Some ch → in_chars chars ch = false.
Proof.
  induction s as [|ch' s IH]; simpl; [done|].
  destruct (in_chars chars ch') eqn:Hch; [done|]. simpl. by intros [= <-].
Qed.

Lemma lstrip_app_all chars s t :
  Forall (λ ch, in_chars chars ch = true) s →
  lstrip chars (s ++ t) = lstrip chars t.
Proof. induction 1 as [|ch s Hch _ IH]; simpl; [done|]. by rewrite Hch. Qed.

Lemma lstrip_app_keep chars s t :
  lstrip chars s ≠ [] → lstrip chars (s ++ t) = lstrip chars s ++ t.
Proof.
  induction s as [|ch s IH]; simpl; [done|].
  destruct (in_chars chars ch); [done|]. by intros _.
Qed.

Lemma lstrip_all chars s :
  Forall (λ ch, in_chars chars ch = true) s → lstrip chars s = [].
Proof.
  intros Hs. rewrite <-(app_nil_r s), lstrip_app_all by done. done.
Qed.

Lemma lstrip_nil_all chars s :
  lstrip chars s = [] → Forall (λ ch, in_chars chars ch = true) s.
Proof.
  intros Hnil. destruct (lstrip_split chars s) as (pre & Hs & Hpre).
  rewrite Hnil, app_nil_r in Hs. by subst.
Qed.

(** The characters [strip] leaves at the two ends are not in [chars]. *)
Lemma strip_ends chars (x : string) ch :
  head (list_ascii_of_string (strip chars x)) = Some ch
  ∨ last (list_ascii_of_string (strip chars x)) = Some ch →
  in_chars chars ch = false.
Proof.
  unfold strip. rewrite list_ascii_of_string_of_list_ascii.
  set (l := lstrip chars (list_ascii_of_string x)).
  destruct (lstrip_split chars (rev l)) as (pre & Hrev & _).
  set (r := lstrip chars (rev l)) in *.
  intros [Hhead|Hlast].
  - assert (l = rev r ++ rev pre) as Hl.
    { by rewrite <-rev_app_distr, <-Hrev, rev_involutive. }
    destruct (rev r) as [|ch' r'] eqn:Hr; [done|].
    simpl in Hhead. injection Hhead as ->.
    apply (lstrip_head chars (list_ascii_of_string x)).
    fold l. by rewrite Hl.
  - apply (lstrip_head chars (rev l)). fold r.
    destruct r as [|ch' r']; [done|].
    simpl in Hlast. by rewrite last_snoc in Hlast.
Qed.

(** Characters of [chars] appended to a string do not survive [strip]. *)
Lemma strip_app_chars chars (x y : string) :
  Forall (λ ch, in_chars chars ch = true) (list_ascii_of_string y) →
  strip chars (x +:+ y) = strip chars x.
Proof.
  intros Hy. unfold strip. f_equal. f_equal.
  rewrite list_ascii_of_string_append.
  set (s := list_ascii_of_string x). set (t := list_ascii_of_string y) in *.
  destruct (lstrip chars s) as [|ch l] eqn:Hs.
  - apply lstrip_nil_all in Hs.
    by rewrite (lstrip_all chars (s ++ t)) by (by apply Forall_app).
  - rewrite lstrip_app_keep by (by rewrite Hs). rewrite Hs.
    rewrite rev_app_distr. apply lstrip_app_all.
    apply Forall_forall. intros c Hc%list_elem_of_In%in_rev%list_elem_of_In.
    by apply (proj1 (Forall_forall _ _) Hy).
Qed.

Lemma strip_chars_app chars (x y : string) :
  Forall (λ ch, in_chars chars ch = true) (list_ascii_of_string x) →
  strip chars (x +:+ y) = strip chars y.
Proof.
  intros Hx. unfold strip.
  by rewrite list_ascii_of_string_append, lstrip_app_all.
Qed.

Lemma in_chars_self chars :
  Forall (λ ch, in_chars chars ch = true) (list_ascii_of_string chars).
Proof.
  apply Forall_forall. intros ch Hch. unfold in_chars.
  by apply bool_decide_eq_true.
Qed.

Lemma string_append_assoc (a b c : string) :
  (a +:+ b) +:+ c = a +:+ b +:+ c.
Proof.
  induction a as [|ch a IH]; [done|].
  change (String ch ((a +:+ b) +:+ c) = String ch (a +:+ b +:+ c)).
  by f_equal.
Qed.

Lemma string_append_nil_r (a : string) : a +:+ "" = a.
Proof.
  induction a as [|ch a IH]; [done|].
  change (String ch (a +:+ "") = String ch a). by f_equal.
Qed.

Lemma join_snoc_empty sep parts :
  parts ≠ [] → join sep (parts ++ [""]) = join sep parts +:+ sep.
Proof.
  induction parts as [|p parts IH]; [done|]. intros _.
  destruct parts as [|q parts].
  - simpl. by rewrite string_append_nil_r.
  - change (join sep ((p :: q :: parts) ++ [""]))
      with (p +:+ sep +:+ join sep ((q :: parts) ++ [""])).
    rewrite IH by done.
    change (join sep (p :: q :: parts))
      with (p +:+ sep +:+ join sep (q :: parts)).
    by rewrite !string_append_assoc.
Qed.

(** X6: empty levels at either end of a multi-level label leave no trace
    in the flattened name: the separator that [join] puts next to them is
    removed by [strip], so [('col', '')], the label a grouped aggregate
    gives its key column, flattens like [('col',)]. *)
Theorem flat_name_empty_ends sep (col : list Atom) :
  flat_name sep (col ++ [AStr ""]) = flat_name sep col
  ∧ flat_name sep (AStr "" :: col) = flat_name sep col.
Proof.
  unfold flat_name, list_values_to_string. split.
  - rewrite fmap_app. simpl.
    destruct col as [|a col]; [done|].
    rewrite join_snoc_empty by done.
    apply strip_app_chars, in_chars_self.
  - destruct col as [|a col]; [done|].
    change (join sep (py_str_atom <$> AStr "" :: a :: col))
      with (sep +:+ join sep (py_str_atom <$> a :: col)).
    apply strip_chars_app, in_chars_self.
Qed.

(** X5: [flatten_columns] on a table with a flat header hands back the
    object it was called on and leaves the store as it is: no copy is
    made.  On a multi-level header it leaves the input as it was and
    returns a new object with the same rows and the same columns in the
    same order under a flat header, the name of a column being its label's
    parts joined by [sep] and stripped: no name begins or ends with a
    character of [sep]. *)
Theorem flatten_columns_spec sep σ self df :
  σ !! self = Some df →
  match df_columns df with
  | Index _ => flatten_columns sep self σ = (Ok self, σ)
  | MultiIndex cols =>
      ∃ out,
        flatten_columns sep self σ = (Ok (length σ), σ ++ [out])
        ∧ df_index out = df_index df
        ∧ df_columns out = Index (zip (flat_name sep <$> cols.*1) cols.*2)
        ∧ ∀ name ch,
            Name name ∈ labels (df_columns out) →
            head (list_ascii_of_string name) = Some ch
            ∨ last (list_ascii_of_string name) = Some ch →
            ch ∉ list_ascii_of_string sep
  end.
Proof.
  intros Hself. rewrite (flatten_columns_run sep σ self df Hself).
  unfold flatten_columns_frame.
  destruct (df_columns df) as [cols|cols]; [done|].
  eexists. split; [done|]. split; [done|].
  assert (prod_map (flat_name sep) id <$> cols
          = zip (flat_name sep <$> cols.*1) cols.*2) as Hzip.
  { induction cols as [|[k v] cols IH]; [done|]. csimpl. by rewrite IH. }
  split; [simpl; by rewrite Hzip|].
  intros name ch Hname Hends. simpl in Hname.
  apply list_elem_of_fmap in Hname as (name' & [= <-] & Hname).
  apply list_elem_of_fmap in Hname as ([k v] & -> & Hkv).
  apply list_elem_of_fmap in Hkv as ([k' v'] & [= -> ->] & _). simpl in *.
  apply strip_ends in Hends. unfold in_chars in Hends.
  by apply bool_decide_eq_false in Hends.
Qed.

End FlattenFacts.

(** ** equisample with a given size, its rows and its errors *)

Section EquisampleMore.
Import KindaTidy.

Lemma mapM_Result_raise {A B} (f : A → Result B) e l :
  (∀ x, x ∈ l → is_ok (f x) = true ∨ f x = Raise e) →
  (∃ x, x ∈ l ∧ f x = Raise e) →
  mapM f l = Raise e.
Proof.
  induction l as [|x l IH]; intros Hall (y & Hy & Hraise).
  - by apply elem_of_nil in Hy.
  - change (mapM f (x :: l)) with (b ← f x; k ← mapM f l; mret (b :: k)).
    destruct (Hall x) as [Hok| ->]; [by left| |done].
    destruct (f x) as [b|e'] eqn:Hx; [|done].
    rewrite Result_bind_Ok.
    apply elem_of_cons in Hy as [->|Hy]; [congruence|].
    rewrite IH; [done| |by exists y].
    intros z Hz. apply Hall. by right.
Qed.

Lemma NoDup_group_rows {K} `{EqDecision K} (keys : list (option K)) k :
  NoDup (group_rows keys k).
Proof. unfold group_rows. apply NoDup_filter, NoDup_seq. Qed.

Lemma NoDup_take_positions {A} positions (l : list A) :
  NoDup l → NoDup positions →
  Forall (λ p, p < length l) positions →
  NoDup (take_positions positions l).
Proof.
  intros Hl Hps Hlt. destruct l as [|a l'] eqn:El.
  { destruct positions as [|p ps]; [constructor|].
    apply Forall_cons in Hlt as [Hp _]. simpl in Hp. lia. }
  rewrite <-El in *. clear El l'.
  rewrite (take_positions_fmap (λ p, default a (l !! p))).
  - apply NoDup_fmap_2_strong; [|done].
    intros p q Hp Hq.
    apply (proj1 (Forall_forall _ _) Hlt) in Hp, Hq.
    destruct (lookup_lt_is_Some_2 l p Hp) as [x Hx].
    destruct (lookup_lt_is_Some_2 l q Hq) as [y Hy].
    rewrite Hx, Hy. simpl. intros <-.
    exact (NoDup_lookup l p q x Hl Hx Hy).
  - intros p Hp. apply (proj1 (Forall_forall _ _) Hlt) in Hp.
    destruct (lookup_lt_is_Some_2 l p Hp) as [x Hx]. by rewrite Hx.
Qed.

Lemma sample_spec choose n rows :
  valid_choice choose → NoDup rows → n ≤ length rows →
  ∃ s, sample choose n rows = Ok s ∧ length s = n ∧ NoDup s
       ∧ ∀ p, p ∈ s → p ∈ rows.
Proof.
  intros Hchoose Hrows Hn.
  destruct (Hchoose n (length rows) Hn) as (Hlen & Hnd & Hlt).
  unfold sample. rewrite (proj2 (Nat.leb_le _ _) Hn).
  eexists. split; [done|]. split; [by rewrite length_take_positions|].
  split; [by apply NoDup_take_positions|].
  intros p. apply elem_of_take_positions.
Qed.

Lemma sample_too_large choose n rows :
  length rows < n → sample choose n rows = Raise ValueError.
Proof.
  intros Hn. unfold sample. by rewrite (proj2 (Nat.leb_gt _ _) Hn).
Qed.

Lemma sample_ok_or_ValueError choose n rows :
  is_ok (sample choose n rows) = true
  ∨ sample choose n rows = Raise ValueError.
Proof. unfold sample. destruct (n <=? length rows); auto. Qed.

Section disjoint.
Context {K : Type} `{EqDecision K} (key : nat → option K).

Lemma NoDup_concat_sampled (ks : list K) (sampled : list (list nat)) :
  NoDup ks →
  Forall2 (λ k s, NoDup s ∧ ∀ p, p ∈ s → key p = Some k) ks sampled →
  NoDup (concat sampled)
  ∧ ∀ p, p ∈ concat sampled → ∃ k, k ∈ ks ∧ key p = Some k.
Proof.
  intros Hnd Hall. induction Hall as [|k s ks sampled [Hs Hk] _ IH].
  - split; [constructor|]. by intros p ?%elem_of_nil.
  - apply NoDup_cons in Hnd as [Hout Hnd].
    destruct (IH Hnd) as [IHnd IHk]. cbn [concat]. split.
    + apply NoDup_app. split; [done|]. split; [|done].
      intros p Hp Hp'. destruct (IHk p Hp') as (k' & Hk' & Hkey).
      rewrite (Hk p Hp) in Hkey. by injection Hkey as ->.
    + intros p [Hp|Hp]%elem_of_app.
      * exists k. split; [left|by apply Hk].
      * destruct (IHk p Hp) as (k' & Hk' & Hkey). exists k'.
        split; [by right|done].
Qed.
End disjoint.

(** The run of [equisample] once the size [n] to draw is fixed and no
    group is smaller. *)
Lemma equisample_run choose df grouping key_cols size n :
  valid_choice choose →
  grouping ≠ [] →
  mapM (key_column df) grouping = Ok key_cols →
  let keys_in := row_keys df key_cols in
  n = match size with
      | Some (S m) => S m
      | _ => min_size (group_sizes keys_in)
      end →
  Forall (λ s, n ≤ s) (group_sizes keys_in) →
  ∃ positions,
    equisample choose df grouping size = Ok (take_rows positions df)
    ∧ NoDup positions
    ∧ Forall (λ p, p < nrows df) positions
    ∧ frame_keys (take_rows positions df) grouping
      = Ok (row_key key_cols <$> positions)
    ∧ (∀ p, p ∈ positions → ∃ k, keys_in !! p = Some (Some k))
    ∧ ∀ k, length (group_rows (row_key key_cols <$> positions) k)
           = if decide (Some k ∈ keys_in) then n else 0.
Proof.
  intros Hchoose Hgrouping Hcols keys_in Hn Hle.
  set (ks := group_keys tuple_leb keys_in).
  set (key := row_key key_cols).
  destruct (mapM_Result_total (sample choose n)
              (λ g s, length s = n ∧ NoDup s ∧ ∀ p, p ∈ s → p ∈ g)
              ((λ k, group_rows keys_in k) <$> ks)) as (sampled & Hs & Hall).
  { apply Forall_fmap, Forall_forall. intros k Hk. simpl.
    apply sample_spec; [done|apply NoDup_group_rows|].
    unfold group_sizes in Hle. rewrite Forall_fmap in Hle.
    by apply (proj1 (Forall_forall _ _) Hle). }
  apply Forall2_fmap_l in Hall.
  assert (Hall' : Forall2 (λ k s, length s = n ∧ NoDup s ∧
                             ∀ p, p ∈ s → p < nrows df ∧ key p = Some k)
                    ks sampled).
  { eapply Forall2_impl; [exact Hall|]. simpl. intros k s (Hlen & Hnd & Hsub).
    split; [done|]. split; [done|]. intros p Hp%Hsub.
    apply elem_of_group_rows in Hp. by apply lookup_row_keys in Hp. }
  set (positions := concat sampled).
  destruct (NoDup_concat_sampled key ks sampled) as [Hnd Hkeyed].
  { apply NoDup_group_keys. }
  { eapply Forall2_impl; [exact Hall'|]. simpl. intros k s (_ & ? & Hsub).
    split; [done|]. intros p Hp. by apply Hsub. }
  fold positions in Hnd, Hkeyed.
  assert (Hpos : ∀ p, p ∈ positions →
                   p < nrows df ∧ ∃ k, k ∈ ks ∧ key p = Some k).
  { intros p Hp. split; [|by apply Hkeyed].
    unfold positions in Hp. rewrite list_elem_of_In, in_concat in Hp.
    destruct Hp as (s & Hsin%list_elem_of_In & Hp%list_elem_of_In).
    apply list_elem_of_lookup_1 in Hsin as [i Hi].
    destruct (Forall2_lookup_r _ _ _ _ _ Hall' Hi) as (k & _ & _ & _ & Hks).
    by apply Hks. }
  set (out := take_rows positions df).
  assert (Hout_cols : mapM (key_column out) grouping
                      = Ok (take_positions positions <$> key_cols)).
  { apply mapM_Result_Ok, Forall2_fmap_r.
    apply mapM_Result_Ok in Hcols.
    eapply Forall2_impl; [exact Hcols|]. simpl. intros g col.
    apply key_column_take_rows. }
  assert (Hout_rows : nrows out = length positions).
  { unfold nrows, out. simpl. apply length_take_positions.
    apply Forall_forall. intros p Hp. by apply Hpos. }
  exists positions. split.
  { unfold equisample. rewrite bool_decide_eq_false_2 by done.
    unfold frame_keys. rewrite Hcols, !Result_bind_Ok.
    fold keys_in ks. cbv zeta. rewrite <-Hn. by rewrite Hs. }
  split; [done|].
  split; [apply Forall_forall; intros p Hp; by apply Hpos|].
  split.
  { unfold frame_keys. fold out. rewrite Hout_cols, Result_bind_Ok. f_equal.
    unfold row_keys. rewrite Hout_rows. apply row_keys_take_positions.
    apply Forall_forall. intros p Hp.
    destruct (Hpos p Hp) as (_ & k & _ & Hk). by exists k. }
  split.
  { intros p Hp. destruct (Hpos p Hp) as (Hlt & k & _ & Hk). exists k.
    by apply lookup_row_keys. }
  intros k. rewrite length_group_rows.
  rewrite (length_filter_sampled key n ks sampled).
  - destruct (decide (k ∈ ks)) as [Hin|Hout].
    + rewrite decide_True; [done|].
      by apply (elem_of_group_keys tuple_leb).
    + rewrite decide_False; [done|].
      by rewrite <-(elem_of_group_keys tuple_leb).
  - apply NoDup_group_keys.
  - eapply Forall2_impl; [exact Hall'|]. simpl. intros k' s (Hlen & _ & Hsub).
    split; [done|]. intros p Hp. by apply Hsub.
Qed.

(** X7: [equisample] with an explicit size [n >= 1], on a table where some
    row has a group key: when no group is smaller than [n], the call
    returns a table in which every group of the input has exactly [n]
    rows; when a group has fewer than [n] rows, the call raises
    [ValueError] (the draws are without replacement).  The size [0]
    counts as no size. *)
Theorem equisample_explicit_size choose df grouping keys_in k0 n :
  valid_choice choose →
  grouping ≠ [] →
  frame_keys df grouping = Ok keys_in →
  Some k0 ∈ keys_in →
  0 < n →
  (Forall (λ s, n ≤ s) (group_sizes keys_in) →
     ∃ out keys_out,
       equisample choose df grouping (Some n) = Ok out
       ∧ frame_keys out grouping = Ok keys_out
       ∧ (∀ k, Some k ∈ keys_in → length (group_rows keys_out k) = n)
       ∧ (∀ k, Some k ∉ keys_in → length (group_rows keys_out k) = 0))
  ∧ ((∃ s, s ∈ group_sizes keys_in ∧ s < n) →
       equisample choose df grouping (Some n) = Raise ValueError)
  ∧ equisample choose df grouping (Some 0)
    = equisample choose df grouping None.
Proof.
  intros Hchoose Hgrouping Hkeys Hk0 Hn.
  pose proof Hkeys as Hkeys'. unfold frame_keys in Hkeys'.
  destruct (mapM (key_column df) grouping) as [key_cols|e] eqn:Hcols;
    [|done].
  rewrite Result_bind_Ok in Hkeys'. injection Hkeys' as <-.
  split; [|split; [|done]].
  - intros Hle.
    destruct (equisample_run choose df grouping key_cols (Some n) n)
      as (positions & Hout & _ & _ & Hkeys_out & _ & Hcount); try done.
    { destruct n; [lia|done]. }
    eexists _, _. split; [exact Hout|]. split; [exact Hkeys_out|].
    split; intros k Hk; rewrite Hcount.
    + by rewrite decide_True.
    + by rewrite decide_False.
  - intros (s & Hs & Hlt). unfold equisample.
    rewrite bool_decide_eq_false_2 by done.
    rewrite Hkeys, Result_bind_Ok. cbv zeta.
    destruct n as [|m]; [lia|].
    rewrite (mapM_Result_raise (sample choose (S m)) ValueError); [done| |].
    + intros g _. apply sample_ok_or_ValueError.
    + unfold group_sizes in Hs.
      apply list_elem_of_fmap in Hs as (k & -> & Hk).
      exists (group_rows (row_keys df key_cols) k). split.
      * apply list_elem_of_fmap. by exists k.
      * by apply sample_too_large.
Qed.

(** X8: the rows [equisample] returns, with or without a size, are rows
    of the input, each taken at most once and each with a group key: the
    result is the input at distinct row positions.  (Rows with a missing
    cell in a grouping column are never drawn.) *)
Theorem equisample_rows_of_input choose df grouping keys_in size out :
  valid_choice choose →
  frame_keys df grouping = Ok keys_in →
  equisample choose df grouping size = Ok out →
  ∃ positions,
    out = take_rows positions df
    ∧ NoDup positions
    ∧ Forall (λ p, p < nrows df) positions
    ∧ ∀ p, p ∈ positions → ∃ k, keys_in !! p = Some (Some k).
Proof.
  intros Hchoose Hkeys Hout.
  assert (grouping ≠ []) as Hgrouping.
  { intros ->. discriminate Hout. }
  pose proof Hkeys as Hkeys'. unfold frame_keys in Hkeys'.
  destruct (mapM (key_column df) grouping) as [key_cols|e] eqn:Hcols;
    [|done].
  rewrite Result_bind_Ok in Hkeys'. injection Hkeys' as <-.
  set (keys_in := row_keys df key_cols) in *.
  set (n := match size with
            | Some (S m) => S m
            | _ => min_size (group_sizes keys_in)
            end).
  destruct (decide (Forall (λ s, n ≤ s) (group_sizes keys_in)))
    as [Hle|Hnle].
  - destruct (equisample_run choose df grouping key_cols size n)
      as (positions & Hout' & Hnd & Hlt & _ & Hkeyed & _); try done.
    rewrite Hout' in Hout. injection Hout as <-. by exists positions.
  - exfalso. apply not_Forall_Exists in Hnle; [|apply _].
    apply Exists_exists in Hnle as (s & Hs & Hlt).
    revert Hout. unfold equisample.
    rewrite bool_decide_eq_false_2 by done.
    rewrite Hkeys, Result_bind_Ok. cbv zeta. fold keys_in n.
    rewrite (mapM_Result_raise (sample choose n) ValueError); [done| |].
    + intros g _. apply sample_ok_or_ValueError.
    + unfold group_sizes in Hs.
      apply list_elem_of_fmap in Hs as (k & -> & Hk).
      exists (group_rows keys_in k). split.
      * apply list_elem_of_fmap. by exists k.
      * apply sample_too_large, Nat.nle_gt. exact Hlt.
Qed.

(** X9: the errors of [equisample]: an empty list of grouping columns
    raises [ValueError]; a grouping column the table does not have raises
    [KeyError] (the other grouping columns holding strings). *)
Theorem equisample_errors choose df size :
  equisample choose df [] size = Raise ValueError
  ∧ ∀ grouping,
      (∀ g, g ∈ grouping →
         get_column df (Name g) = None
         ∨ ∃ vals, get_column df (Name g) = Some (ObjectCol vals)) →
      (∃ g, g ∈ grouping ∧ get_column df (Name g) = None) →
      equisample choose df grouping size = Raise KeyError.
Proof.
  split; [done|]. intros grouping Hall (g & Hg & Hnone).
  unfold equisample. rewrite bool_decide_eq_false_2.
  2: { intros ->. by apply elem_of_nil in Hg. }
  unfold frame_keys.
  rewrite (mapM_Result_raise (key_column df) KeyError); [done| |].
  - intros g' Hg'. unfold key_column.
    destruct (Hall g' Hg') as [->|[vals ->]]; auto.
  - exists g. split; [done|]. unfold key_column. by rewrite Hnone.
Qed.

End EquisampleMore.

(** ** mean_weighted: mismatched lengths, zero weights *)

Section WeightedMore.
Import Weighted.

Lemma Qdot_zero_weights (vs ws : list Q) :
  Forall (λ w, w == 0)%Q ws → (Qdot vs ws == 0)%Q.
Proof.
  intros Hws. revert vs.
  induction Hws as [|w ws Hw _ IH]; intros [|v vs]; simpl; try done.
  rewrite Hw, IH. ring.
Qed.

Lemma Qsum_zero_weights (ws : list Q) :
  Forall (λ w, w == 0)%Q ws → (Qsum ws == 0)%Q.
Proof.
  induction 1 as [|w ws Hw _ IH]; simpl; [done|]. rewrite Hw, IH. ring.
Qed.

(** X10: [mean_weighted] on operands of different lengths raises
    [ValueError], whatever they hold; on finite operands of equal length,
    not empty, whose weights are all zero, it returns not-a-number (the
    quotient [0 / 0]) and no error. *)
Theorem mean_weighted_mismatch_and_zero_weights :
  (∀ values weights,
      length values ≠ length weights →
      mean_weighted values weights = Raise ValueError)
  ∧ (∀ vs ws : list Q,
      length vs = length ws → vs ≠ [] →
      Forall (λ w, w == 0)%Q ws →
      mean_weighted (Fin <$> vs) (Fin <$> ws) = Ok NaN).
Proof.
  split.
  - intros values weights Hlen. unfold mean_weighted, DescrStatsW_mean.
    destruct (existsb num_lt0 weights); [done|].
    by rewrite (proj2 (Nat.eqb_neq _ _) Hlen).
  - intros vs ws Hlen _ Hws. unfold mean_weighted, DescrStatsW_mean.
    rewrite existsb_lt0_nonneg.
    2: { eapply Forall_impl; [exact Hws|]. simpl. intros w ->.
         apply Qle_refl. }
    rewrite !length_fmap, Hlen, Nat.eqb_refl.
    rewrite num_dot_fin, num_sum_fin. unfold num_div, Qis_zero.
    rewrite (proj2 (Qeq_bool_iff _ _) (Qsum_zero_weights ws Hws)).
    by rewrite (proj2 (Qeq_bool_iff _ _) (Qdot_zero_weights vs ws Hws)).
Qed.

End WeightedMore.

(** ** fortify: where the column goes, repeated labels *)

Section FortifyMore.
Import KindaTidy Fortify.

Lemma alist_set_absent {K V} `{EqDecision K} (k : K) (v : V) l :
  k ∉ l.*1 → alist_set k v l = l ++ [(k, v)].
Proof.
  induction l as [|[k' v'] l IH]; csimpl; [done|].
  rewrite not_elem_of_cons. intros [Hne Hout].
  rewrite decide_False by done. by rewrite IH.
Qed.

Lemma alist_set_keys_present {K V} `{EqDecision K} (k : K) (v : V) l :
  k ∈ l.*1 → (alist_set k v l).*1 = l.*1.
Proof.
  induction l as [|[k' v'] l IH]; csimpl; [by intros ?%elem_of_nil|].
  rewrite elem_of_cons. intros Hin.
  destruct (decide (k = k')) as [->|Hne]; [done|].
  csimpl. rewrite IH; [done|]. by destruct Hin.
Qed.

Lemma fortify_statsmodels_run σ (self : ResultsWrapper) df cols :
  σ !! model_data_frame self = Some df →
  df_columns df = Index cols →
  fortify_statsmodels self σ
  = match reindex_for_setitem (fittedvalues self) (df_index df) with
    | Ok fitted =>
        (Ok (length σ),
         σ ++ [{| df_index := df_index df;
                  df_columns :=
                    Index (alist_set "fitted" (NumCol fitted) cols) |}])
    | Raise e => (Raise e, σ ++ [df])
    end.
Proof.
  intros Hself Hcols. unfold fortify_statsmodels, setitem_series.
  rewrite run_bind, (copy_at _ _ _ Hself). cbv beta iota.
  rewrite run_bind, run_bind, read_last. cbv beta iota.
  rewrite run_bind, run_lift.
  destruct (reindex_for_setitem _ _) as [fitted|e]; [|done].
  cbv beta iota. rewrite setitem_last. unfold setitem_frame, set_column.
  by rewrite Hcols.
Qed.

(** X14: where [fortify] puts the fitted values.  When the call returns,
    the returned table has the column [fitted]: as a new last column after
    the columns of the fitted-on table when that table has no column of
    this name, and in the place of the column [fitted] of the copy when
    it has one, the other columns and their order being the same; the
    fitted-on table itself keeps its columns. *)
Theorem fortify_column_placement σ (self : ResultsWrapper) df cols data :
  σ !! model_data_frame self = Some df →
  df_columns df = Index cols →
  (fortify_statsmodels self σ).1 = Ok data →
  ∃ out fitted,
    (fortify_statsmodels self σ).2 !! data = Some out
    ∧ (fortify_statsmodels self σ).2 !! model_data_frame self = Some df
    ∧ reindex_for_setitem (fittedvalues self) (df_index df) = Ok fitted
    ∧ get_column out (Name "fitted") = Some (NumCol fitted)
    ∧ ("fitted" ∉ cols.*1 →
         df_columns out = Index (cols ++ [("fitted", NumCol fitted)]))
    ∧ ("fitted" ∈ cols.*1 →
         labels (df_columns out) = labels (df_columns df)
         ∧ ∀ c, c ≠ Name "fitted" → get_column out c = get_column df c).
Proof.
  intros Hself Hcols. rewrite (fortify_statsmodels_run _ _ _ _ Hself Hcols).
  destruct (reindex_for_setitem _ _) as [fitted|e]; [|done].
  intros [= <-]. simpl. eexists _, fitted.
  split; [apply lookup_last|].
  split; [apply lookup_app_l_Some, Hself|].
  split; [done|].
  split; [unfold get_column; simpl; apply alist_get_set_eq|].
  split.
  - intros Hout. by rewrite alist_set_absent.
  - intros Hin. rewrite Hcols. simpl. split.
    + by rewrite alist_set_keys_present.
    + intros c Hc. unfold get_column. simpl. rewrite Hcols.
      destruct c as [s|t]; [|done]. apply alist_get_set_ne. congruence.
Qed.

(** X15: fitted values whose labels repeat.  When the labels of the
    fitted values are the row labels of the table, in the same order,
    [fortify] takes the values as they are, repeated labels or not; when
    they are not and a label repeats, the values cannot be laid out on
    the rows: the call raises [ValueError] and the fitted-on table is as
    it was. *)
Theorem fortify_repeated_labels σ (self : ResultsWrapper) df cols :
  σ !! model_data_frame self = Some df →
  df_columns df = Index cols →
  (s_index (fittedvalues self) = df_index df →
     ∃ data out,
       (fortify_statsmodels self σ).1 = Ok data
       ∧ (fortify_statsmodels self σ).2 !! data = Some out
       ∧ get_column out (Name "fitted")
         = Some (NumCol (s_values (fittedvalues self))))
  ∧ (s_index (fittedvalues self) ≠ df_index df →
     df_index df ≠ [] →
     ¬ NoDup (s_index (fittedvalues self)) →
       (fortify_statsmodels self σ).1 = Raise ValueError
       ∧ (fortify_statsmodels self σ).2 !! model_data_frame self = Some df).
Proof.
  intros Hself Hcols. rewrite (fortify_statsmodels_run _ _ _ _ Hself Hcols).
  unfold reindex_for_setitem. split.
  - intros Heq. rewrite bool_decide_eq_true_2 by done.
    eexists _, _. split; [done|]. split; [apply lookup_last|].
    unfold get_column. simpl. apply alist_get_set_eq.
  - intros Hne Hrows Hdup. rewrite !bool_decide_eq_false_2 by done.
    split; [done|]. simpl. by apply lookup_app_l_Some.
Qed.

End FortifyMore.

(** ** set_categorical: more on top_n, categorical input, errors *)

Section SetCategoricalMore.
Import KindaTidy.
Implicit Types (df res : DataFrame) (col : Column).

(** The two runs with a non-zero [top_n], for whatever levels the slice
    [[:top_n]] of the ranking keeps. *)
Lemma set_categorical_sliced category_col v aggregator
    (reverse_levels : bool) n other_label σ self df col nums kept :
  v ≠ "" →
  (n ≠ 0)%Z →
  σ !! self = Some df →
  get_column df (Name category_col) = Some col →
  is_Some (str_values col) →
  col_length col = nrows df →
  get_column df (Name v) = Some (NumCol nums) →
  let pv := plain_values col in
  slice_to (Some n) (ranking aggregator pv nums) = kept →
  (∀ s, s ∈ kept → Some s ∈ pv) →
  let pv' := assign_where (negb <$> isin pv kept) other_label pv in
  let order (l : list string) := if reverse_levels then reverse l else l in
  (∃ df' levels,
      returns (set_categorical category_col (Some v) aggregator
                 reverse_levels (Some n) false other_label self) σ df'
      ∧ df_index df' = select (isin pv kept) (df_index df)
      ∧ get_column df' (Name category_col)
        = Some (CatCol levels (select (isin pv kept) pv))
      ∧ (∀ c', c' ≠ Name category_col →
               get_column df' c'
               = col_select (isin pv kept) <$> get_column df c')
      ∧ (∀ s, Some s ∈ select (isin pv kept) pv ↔ Some s ∈ pv ∧ s ∈ kept)
      ∧ (∀ s, s ∈ levels ↔ s ∈ kept)
      ∧ NoDup levels)
  ∧ (∃ df' levels,
        returns (set_categorical category_col (Some v) aggregator
                   reverse_levels (Some n) true other_label self) σ df'
        ∧ df_index df' = df_index df
        ∧ get_column df' (Name category_col) = Some (CatCol levels pv')
        ∧ (∀ c', c' ≠ Name category_col →
                 get_column df' c' = get_column df c')
        ∧ levels = order (ranking aggregator pv' nums)
        ∧ (∀ s, s ∈ levels ↔ Some s ∈ pv')).
Proof.
  intros Hv Hn0 Hself Hcol Hstr Hlen Hval pv Hslice Hkept pv' order.
  destruct (recast_frame_spec category_col df col Hcol Hstr)
    as (res & Hres & Hk & Hother & Hidx).
  destruct (value_column_after_recast _ _ _ _ _ _ Hcol Hstr Hval Hother)
    as [Hne Hval'].
  assert (length pv = nrows res) as Hlen'.
  { unfold pv, nrows. by rewrite length_plain_values, Hidx. }
  split.
  - pose proof (set_categorical_run category_col (Some v) aggregator
                  reverse_levels (Some n) false other_label σ self df Hself)
      as Hy.
    rewrite set_categorical_frame_value in Hy by done.
    rewrite Hres, Result_bind_Ok in Hy.
    rewrite (truncate_frame_drop category_col aggregator v n other_label res
               pv nums Hn0 Hk Hval' Hlen'), Result_bind_Ok, Hslice in Hy.
    set (mask := isin pv kept) in *.
    assert (get_column (filter_rows mask res) (Name category_col)
            = Some (ObjectCol (select mask pv))) as Hk2.
    { by rewrite get_filter_rows, Hk. }
    assert (get_column (filter_rows mask res) (Name v)
            = Some (NumCol (select mask nums))) as Hv2.
    { by rewrite get_filter_rows, Hval'. }
    destruct (relevel_frame_spec category_col aggregator reverse_levels v
                _ _ _ Hk2 Hv2) as (df' & Hdf' & Hset).
    rewrite Hdf' in Hy. cbv zeta in Hset.
    eexists df', _.
    split; [by apply returns_of_yields|].
    split; [by rewrite (set_column_index _ _ _ _ Hset), <-Hidx|].
    split; [by eapply get_set_column_eq|].
    split.
    { intros c' Hc'. rewrite (get_set_column_ne _ _ _ _ _ Hset) by done.
      rewrite get_filter_rows. by rewrite Hother. }
    split; [intros s; apply elem_of_select_isin|].
    assert (∀ s, s ∈ ranking aggregator (select mask pv) (select mask nums)
                 ↔ s ∈ kept) as Hlev.
    { intros s. rewrite elem_of_ranking. unfold mask.
      rewrite elem_of_select_isin. split; [by intros [_ ?]|].
      intros Hs. split; [by apply Hkept|done]. }
    split.
    { intros s. destruct reverse_levels; rewrite ?elem_of_reverse; apply Hlev. }
    destruct reverse_levels; rewrite ?reverse_Permutation;
      apply NoDup_ranking.
  - pose proof (set_categorical_run category_col (Some v) aggregator
                  reverse_levels (Some n) true other_label σ self df Hself)
      as Hy.
    rewrite set_categorical_frame_value in Hy by done.
    rewrite Hres, Result_bind_Ok in Hy.
    destruct (truncate_frame_keep category_col aggregator v n other_label res
                pv nums Hn0 Hk Hval') as (res' & Hres' & Hset1).
    cbv zeta in Hset1. rewrite Hslice in Hset1. fold pv' in Hset1.
    rewrite Hres', Result_bind_Ok in Hy.
    pose proof (get_set_column_eq _ _ _ _ Hset1) as Hk2.
    assert (get_column res' (Name v) = Some (NumCol nums)) as Hv2.
    { by rewrite (get_set_column_ne _ _ _ _ _ Hset1). }
    destruct (relevel_frame_spec category_col aggregator reverse_levels v
                _ _ _ Hk2 Hv2) as (df' & Hdf' & Hset).
    rewrite Hdf' in Hy. cbv zeta in Hset.
    eexists df', _.
    split; [by apply returns_of_yields|].
    split.
    { rewrite (set_column_index _ _ _ _ Hset).
      by rewrite (set_column_index _ _ _ _ Hset1). }
    split; [by eapply get_set_column_eq|].
    split.
    { intros c' Hc'. rewrite (get_set_column_ne _ _ _ _ _ Hset) by done.
      rewrite (get_set_column_ne _ _ _ _ _ Hset1) by done. by apply Hother. }
    split; [done|].
    intros s. unfold order.
    destruct reverse_levels; rewrite ?elem_of_reverse; apply elem_of_ranking.
Qed.

(** X16: a negative [top_n].  The slice [[:top_n]] of the sorted groups
    then drops the last [-top_n] of them, so [set_categorical] with
    [top_n = -k] keeps all but [k] lowest-ranked levels (none when there
    are no more than [k]): each kept level ranks no later than each level
    left out, and which of several levels of equal aggregate at the cut
    are kept is not said; with [keep_other] false the rows of the levels
    left out are dropped, with [keep_other] true they are relabelled to
    the fallback label and the levels are those of the relabelled
    cells. *)
Theorem set_categorical_negative_top_n category_col v aggregator
    (reverse_levels : bool) (k : nat) other_label σ self df col nums :
  v ≠ "" →
  0 < k →
  σ !! self = Some df →
  get_column df (Name category_col) = Some col →
  is_Some (str_values col) →
  col_length col = nrows df →
  get_column df (Name v) = Some (NumCol nums) →
  let pv := plain_values col in
  let n := (- Z.of_nat k)%Z in
  ∃ kept,
    let pv' := assign_where (negb <$> isin pv kept) other_label pv in
    (length kept = length (inferred_categories pv) - k
     ∧ NoDup kept
     ∧ (∀ s, s ∈ kept → Some s ∈ pv)
     ∧ (∀ a b, a ∈ kept → Some b ∈ pv → b ∉ kept →
               ranks_before aggregator pv nums a b))
    ∧ (∃ df' levels,
          returns (set_categorical category_col (Some v) aggregator
                     reverse_levels (Some n) false other_label self) σ df'
          ∧ df_index df' = select (isin pv kept) (df_index df)
          ∧ get_column df' (Name category_col)
            = Some (CatCol levels (select (isin pv kept) pv))
          ∧ (∀ s, Some s ∈ select (isin pv kept) pv ↔ Some s ∈ pv ∧ s ∈ kept)
          ∧ (∀ s, s ∈ levels ↔ s ∈ kept))
    ∧ (∃ df' levels,
          returns (set_categorical category_col (Some v) aggregator
                     reverse_levels (Some n) true other_label self) σ df'
          ∧ df_index df' = df_index df
          ∧ get_column df' (Name category_col) = Some (CatCol levels pv')
          ∧ (∀ s, s ∈ levels ↔ Some s ∈ pv')).
Proof.
  intros Hv Hk Hself Hcol Hstr Hlen Hval pv n.
  set (ranked := ranking aggregator pv nums).
  set (kept := take (length ranked - k) ranked).
  exists kept. intros pv'.
  destruct (ranking_take (length ranked - k) aggregator pv nums)
    as (Hklen & Hknd & Hkin & Hkrank).
  fold ranked kept in Hklen, Hknd, Hkin, Hkrank.
  assert (length ranked = length (inferred_categories pv)) as Hrl.
  { unfold ranked. by rewrite ranking_Permutation. }
  split; [split; [lia|done]|].
  assert (slice_to (Some n) ranked = kept) as Hslice.
  { unfold slice_to, n. rewrite (proj2 (Z.leb_gt _ _)) by lia.
    unfold kept. do 2 f_equal. lia. }
  destruct (set_categorical_sliced category_col v aggregator reverse_levels
              n other_label σ self df col nums kept Hv ltac:(lia) Hself
              Hcol Hstr Hlen Hval Hslice Hkin)
    as [(d1 & l1 & Hr1 & Hi1 & Hc1 & _ & Hs1 & Hl1 & _)
        (d2 & l2 & Hr2 & Hi2 & Hc2 & _ & _ & Hl2)].
  split.
  - by exists d1, l1.
  - by exists d2, l2.
Qed.

(** *** Asking for at least as many levels as there are *)

Lemma select_all_true {A} (mask : list bool) (l : list A) :
  Forall (λ b, b = true) mask → length l ≤ length mask →
  select mask l = l.
Proof.
  intros Hmask. revert l.
  induction Hmask as [|m mask -> _ IH]; intros [|x l] Hlen; simpl in *;
    try done; [lia|].
  rewrite IH; [done|lia].
Qed.

Lemma col_select_all_true mask col :
  Forall (λ b, b = true) mask → col_length col ≤ length mask →
  col_select mask col = col.
Proof.
  intros Hmask Hlen.
  destruct col; simpl in *; by rewrite select_all_true.
Qed.

Lemma filter_rows_all_true mask df :
  aligned df → Forall (λ b, b = true) mask → length mask = nrows df →
  filter_rows mask df = df.
Proof.
  intros Hal Hmask Hlen. destruct df as [idx cs]. unfold filter_rows.
  unfold aligned, nrows in *. simpl in *. f_equal.
  - apply select_all_true; [done|lia].
  - destruct cs as [cols|cols]; simpl; f_equal;
      (induction Hal as [|[k c] cols Hc _ IH]; csimpl; [done|];
       rewrite IH; f_equal; unfold prod_map; simpl; f_equal;
       apply col_select_all_true; [done|simpl in Hc; lia]).
Qed.

Lemma alist_set_Forall {K V} `{EqDecision K} (P : K * V → Prop) k v
    (l : list (K * V)) :
  Forall P l → P (k, v) → Forall P (alist_set k v l).
Proof.
  intros Hl Hkv. induction Hl as [|[k' v'] l Hx Hl IH]; simpl.
  - by repeat constructor.
  - destruct (decide (k = k')); by constructor.
Qed.

Lemma aligned_set_column df c col df' :
  aligned df → col_length col = nrows df →
  set_column df c col = Some df' → aligned df'.
Proof.
  unfold aligned, set_column, nrows.
  destruct (df_columns df) as [cols|cols], c as [s|t]; try done;
    intros Hal Hlen [= <-]; simpl; by apply alist_set_Forall.
Qed.

Lemma aligned_get_column df c col :
  aligned df → get_column df c = Some col → col_length col = nrows df.
Proof.
  unfold aligned, get_column.
  destruct (df_columns df) as [cols|cols], c as [s|t]; try done;
    intros Hal Hin%alist_get_elem_of;
    by apply (proj1 (Forall_forall _ _) Hal _ Hin).
Qed.

Lemma recast_frame_aligned category_col df res :
  aligned df → recast_frame category_col df = Ok res → aligned res.
Proof.
  intros Hal. unfold recast_frame, getitem_frame.
  destruct (get_column df (Name category_col)) as [col|] eqn:Hcol; [|done].
  rewrite Result_bind_Ok.
  destruct (is_categorical_dtype col) eqn:Hcat; [|by intros [= <-]].
  unfold setitem_frame.
  destruct (set_column df _ _) as [df'|] eqn:Hset; [|done].
  intros [= <-]. eapply aligned_set_column; [done| |done].
  rewrite <-(aligned_get_column df _ col Hal Hcol).
  destruct col; simpl; try done. by rewrite length_fmap.
Qed.

Lemma set_column_same df c col :
  get_column df c = Some col → set_column df c col = Some df.
Proof.
  intros Hget. pose proof (set_column_alter id df c col Hget) as Hset.
  simpl in Hset. by rewrite Hset, alter_column_id.
Qed.

Lemma isin_all (pv : list (option string)) cats :
  (∀ cell, cell ∈ pv → ∃ s, cell = Some s ∧ s ∈ cats) →
  Forall (λ b, b = true) (isin pv cats).
Proof.
  intros Hall. unfold isin. apply Forall_fmap, Forall_forall.
  intros cell Hcell. destruct (Hall cell Hcell) as (s & -> & Hs). simpl.
  by apply bool_decide_eq_true.
Qed.

Lemma assign_where_none label (pv : list (option string)) mask :
  Forall (λ b, b = true) mask → length mask = length pv →
  assign_where (negb <$> mask) label pv = pv.
Proof.
  intros Hmask. revert pv. unfold assign_where.
  induction Hmask as [|m mask -> _ IH]; intros [|x pv] Hlen; simpl in *;
    try done.
  rewrite IH; [done|lia].
Qed.

(** X17: a [top_n] that is at least the number of distinct values of the
    category column changes nothing: on a table whose category column has
    no missing cell, [set_categorical] with such a [top_n] returns, for
    either [keep_other], exactly the tables it returns without
    [top_n]. *)
Theorem set_categorical_top_n_all_levels category_col v aggregator
    reverse_levels n keep_other other_label σ self df col nums :
  v ≠ "" →
  (0 < n)%Z →
  σ !! self = Some df →
  aligned df →
  get_column df (Name category_col) = Some col →
  is_Some (str_values col) →
  get_column df (Name v) = Some (NumCol nums) →
  None ∉ plain_values col →
  length (inferred_categories (plain_values col)) ≤ Z.to_nat n →
  ∀ d,
    returns (set_categorical category_col (Some v) aggregator reverse_levels
               (Some n) keep_other other_label self) σ d
    ↔ returns (set_categorical category_col (Some v) aggregator
                 reverse_levels None keep_other other_label self) σ d.
Proof.
  intros Hv Hn Hself Hal Hcol Hstr Hval Hnone Hlevels d.
  pose proof (set_categorical_run category_col (Some v) aggregator
                reverse_levels (Some n) keep_other other_label σ self df
                Hself) as Hy1.
  pose proof (set_categorical_run category_col (Some v) aggregator
                reverse_levels None keep_other other_label σ self df
                Hself) as Hy2.
  rewrite set_categorical_frame_value in Hy1, Hy2 by done.
  destruct (recast_frame_spec category_col df col Hcol Hstr)
    as (res & Hres & Hk & Hother & Hidx).
  destruct (value_column_after_recast _ _ _ _ _ _ Hcol Hstr Hval Hother)
    as [Hne Hval'].
  pose proof (recast_frame_aligned _ _ _ Hal Hres) as Hal'.
  rewrite Hres, !Result_bind_Ok in Hy1, Hy2.
  set (pv := plain_values col) in *.
  assert (length pv = nrows res) as Hlen.
  { by rewrite <-(aligned_get_column res _ _ Hal' Hk). }
  rewrite (truncate_frame_none category_col aggregator v None keep_other
             other_label res pv nums eq_refl Hk Hval') in Hy2.
  set (kept := slice_to (Some n) (ranking aggregator pv nums)).
  assert (kept = ranking aggregator pv nums) as Hkept.
  { unfold kept, slice_to. rewrite (proj2 (Z.leb_le 0 n)) by lia.
    apply take_ge. by rewrite ranking_Permutation. }
  assert (Forall (λ b, b = true) (isin pv kept)) as Hmask.
  { apply isin_all. intros [s|] Hcell; [|done].
    exists s. split; [done|]. rewrite Hkept. by apply elem_of_ranking. }
  assert (truncate_frame category_col aggregator (Some n) keep_other
            other_label v res = Ok res) as Htr.
  { destruct keep_other.
    - destruct (truncate_frame_keep category_col aggregator v n other_label
                  res pv nums ltac:(lia) Hk Hval') as (res' & -> & Hset).
      cbv zeta in Hset. fold kept in Hset.
      rewrite assign_where_none in Hset by (by rewrite ?length_isin).
      rewrite (set_column_same _ _ _ Hk) in Hset. by injection Hset as <-.
    - rewrite (truncate_frame_drop category_col aggregator v n other_label
                 res pv nums ltac:(lia) Hk Hval' Hlen).
      cbv zeta. fold kept. f_equal.
      apply filter_rows_all_true; [done|done|]. by rewrite length_isin. }
  rewrite Htr in Hy1. rewrite !Result_bind_Ok in Hy1, Hy2.
  split; intros Hret.
  - pose proof (yields_of_returns _ _ _ _ Hy1 Hret) as Hr.
    apply returns_of_yields. by rewrite <-Hr.
  - pose proof (yields_of_returns _ _ _ _ Hy2 Hret) as Hr.
    apply returns_of_yields. by rewrite <-Hr.
Qed.

(** *** A category column that is already categorical *)

Lemma alist_set_twice {K V} `{EqDecision K} (k : K) (v v' : V) l :
  alist_set k v' (alist_set k v l) = alist_set k v' l.
Proof.
  induction l as [|[k0 v0] l IH]; simpl.
  - by rewrite decide_True.
  - destruct (decide (k = k0)) as [->|Hne]; simpl.
    + by rewrite decide_True.
    + rewrite decide_False by done. by rewrite IH.
Qed.

Lemma set_column_twice df c x y d d' :
  set_column df c x = Some d → set_column d c y = Some d' →
  set_column df c y = Some d'.
Proof.
  unfold set_column.
  destruct (df_columns df) as [cols|cols], c as [s|t]; try done;
    intros [= <-]; simpl; intros [= <-]; by rewrite alist_set_twice.
Qed.

(** X18: [set_categorical] without a value column on a column that is
    already categorical.  The column is first read as strings, so the old
    levels and their order are forgotten and a missing cell becomes the
    string ["nan"]: the returned column has no missing cell, its levels
    are the distinct values that occur in a cell, in ascending string
    order, the level ["nan"] among them exactly when a cell was missing
    (or held the string ["nan"]); levels that no cell carries are gone. *)
Theorem set_categorical_on_categorical category_col value_col aggregator
    reverse_levels top_n keep_other other_label σ self df cats vals :
  truthy_str value_col = false →
  σ !! self = Some df →
  get_column df (Name category_col) = Some (CatCol cats vals) →
  ∃ df' levels,
    returns (set_categorical category_col value_col aggregator
               reverse_levels top_n keep_other other_label self) σ df'
    ∧ get_column df' (Name category_col)
      = Some (CatCol levels ((λ cell, Some (default "nan" cell)) <$> vals))
    ∧ StronglySorted str_lt levels
    ∧ (∀ s, s ∈ levels
            ↔ Some s ∈ vals ∨ (s = "nan" ∧ None ∈ vals)).
Proof.
  intros Hv Hself Hcol.
  pose proof (set_categorical_run category_col value_col aggregator
                reverse_levels top_n keep_other other_label σ self df Hself)
    as Hy.
  rewrite set_categorical_frame_no_value in Hy by done.
  destruct (recast_frame_spec category_col df _ Hcol) as
    (res & Hres & Hk & _ & _); [by eexists|].
  rewrite Hres, Result_bind_Ok in Hy.
  destruct (infer_frame_spec category_col res _ Hk) as (df' & Hdf' & Hset).
  rewrite Hdf' in Hy.
  exists df', (inferred_categories (plain_values (CatCol cats vals))).
  split; [by apply returns_of_yields|].
  split; [by eapply get_set_column_eq|].
  split; [apply inferred_categories_sorted|].
  intros s. unfold inferred_categories. rewrite elem_of_group_keys.
  unfold plain_values. simpl. rewrite list_elem_of_fmap. split.
  - intros ([t|] & [= ->] & Hin); simpl; auto.
  - intros [Hin|[-> Hin]].
    + by exists (Some s).
    + by exists None.
Qed.

(** X19: without a value column [set_categorical] is idempotent on
    columns without missing cells: called again, with any arguments that
    name no value column, on a table it returned for a column whose cells
    were all present, it returns that table. *)
Theorem set_categorical_no_value_idempotent category_col value_col
    aggregator reverse_levels top_n keep_other other_label σ self df col d1 :
  truthy_str value_col = false →
  σ !! self = Some df →
  get_column df (Name category_col) = Some col →
  is_Some (str_values col) →
  None ∉ plain_values col →
  returns (set_categorical category_col value_col aggregator
             reverse_levels top_n keep_other other_label self) σ d1 →
  ∀ value_col' aggregator' reverse_levels' top_n' keep_other' other_label'
    σ' self',
    truthy_str value_col' = false →
    σ' !! self' = Some d1 →
    returns (set_categorical category_col value_col' aggregator'
               reverse_levels' top_n' keep_other' other_label' self') σ' d1.
Proof.
  intros Hv Hself Hcol Hstr Hnone Hret value_col' aggregator'
    reverse_levels' top_n' keep_other' other_label' σ' self' Hv' Hself'.
  pose proof (set_categorical_run category_col value_col aggregator
                reverse_levels top_n keep_other other_label σ self df Hself)
    as Hy.
  rewrite set_categorical_frame_no_value in Hy by done.
  destruct (recast_frame_spec category_col df col Hcol Hstr)
    as (res & Hres & Hk & _ & _).
  rewrite Hres, Result_bind_Ok in Hy.
  destruct (infer_frame_spec category_col res _ Hk) as (df' & Hdf' & Hset).
  rewrite Hdf' in Hy.
  pose proof (yields_of_returns _ _ _ _ Hy Hret) as [= ->].
  set (pv := plain_values col) in *.
  pose proof (get_set_column_eq _ _ _ _ Hset) as Hk1.
  (* the second call *)
  apply returns_of_yields.
  pose proof (set_categorical_run category_col value_col' aggregator'
                reverse_levels' top_n' keep_other' other_label' σ' self' d1
                Hself') as Hy'.
  rewrite set_categorical_frame_no_value in Hy' by done.
  assert ((λ cell, Some (default "nan" cell)) <$> pv = pv) as Hpv.
  { clear -Hnone. induction pv as [|[s|] pv IH]; csimpl; [done| |].
    - rewrite IH; [done|]. intros Hin. apply Hnone. by right.
    - exfalso. apply Hnone. left. }
  assert (recast_frame category_col d1
          = setitem_frame d1 (Name category_col) (ObjectCol pv)) as Hrec.
  { unfold recast_frame, getitem_frame. rewrite Hk1, Result_bind_Ok.
    simpl. by rewrite Hpv. }
  rewrite Hrec in Hy'. unfold setitem_frame in Hy'.
  destruct (set_column_is_Some d1 _ _ (ObjectCol pv) Hk1) as [res2 Hres2].
  rewrite Hres2, Result_bind_Ok in Hy'.
  pose proof (get_set_column_eq _ _ _ _ Hres2) as Hk2.
  destruct (infer_frame_spec category_col res2 _ Hk2)
    as (df2 & Hdf2 & Hset2).
  rewrite Hdf2 in Hy'.
  assert (df2 = d1) as ->; [|done].
  pose proof (set_column_twice _ _ _ _ _ _ Hres2 Hset2) as Hagain.
  rewrite (set_column_same d1 _ _ Hk1) in Hagain. by injection Hagain.
Qed.

(** X20: [set_categorical] on a table without the category column raises
    [KeyError], whatever the other arguments, and leaves the table as it
    was. *)
Theorem set_categorical_missing_column category_col value_col aggregator
    reverse_levels top_n keep_other other_label σ self df :
  σ !! self = Some df →
  get_column df (Name category_col) = None →
  (set_categorical category_col value_col aggregator reverse_levels top_n
     keep_other other_label self σ).1 = Raise KeyError
  ∧ (set_categorical category_col value_col aggregator reverse_levels top_n
       keep_other other_label self σ).2 !! self = Some df.
Proof.
  intros Hself Hnone.
  pose proof (set_categorical_run category_col value_col aggregator
                reverse_levels top_n keep_other other_label σ self df Hself)
    as Hy.
  assert (set_categorical_frame category_col value_col aggregator
            reverse_levels top_n keep_other other_label df = Raise KeyError)
    as Hr.
  { unfold set_categorical_frame, recast_frame, getitem_frame.
    by rewrite Hnone. }
  rewrite Hr in Hy. split; [by eapply yields_raises|].
  destruct Hy as (k & -> & _). by apply lookup_app_l_Some.
Qed.

End SetCategoricalMore.

(** ** select_columns *)

Section SelectColumnsFacts.
Import KindaTidy SelectColumns.

Lemma filter_fst_nil {V} (k : string) (cols : list (string * V)) :
  k ∉ cols.*1 → filter (λ kc, kc.1 = k) cols = [].
Proof.
  induction cols as [|[k' v] cols IH]; csimpl; [done|].
  rewrite not_elem_of_cons. intros [Hne Hout].
  rewrite filter_cons, decide_False by done. by apply IH.
Qed.

Lemma bind_ext_elem {A B} (f g : A → list B) (l : list A) :
  (∀ x, x ∈ l → f x = g x) → l ≫= f = l ≫= g.
Proof.
  induction l as [|x l IH]; intros Hfg; csimpl; [done|].
  rewrite (Hfg x) by left. rewrite IH; [done|].
  intros y Hy. apply Hfg. by right.
Qed.

(** Taking the columns named by a selection of the header, on a header
    without repeated names: the selected columns in the order of the
    table. *)
Lemma columns_of_selected {V} (P : string → Prop) `{!∀ n, Decision (P n)}
    (cols : list (string * V)) :
  NoDup cols.*1 →
  filter P cols.*1 ≫= (λ n, filter (λ kc, kc.1 = n) cols)
  = filter (λ kc, P kc.1) cols.
Proof.
  induction cols as [|[k v] cols IH]; csimpl; [done|].
  intros [Hout Hnd]%NoDup_cons.
  assert (∀ l, (∀ n, n ∈ l → n ∈ cols.*1) →
            l ≫= (λ n, filter (λ kc, kc.1 = n) ((k, v) :: cols))
            = l ≫= (λ n, filter (λ kc, kc.1 = n) cols)) as Hrest.
  { intros l Hl. apply bind_ext_elem. intros n Hn.
    rewrite filter_cons, decide_False; [done|].
    simpl. intros ->. by apply Hout, Hl. }
  rewrite !filter_cons. simpl. destruct (decide (P k)) as [HP|HP].
  - csimpl. rewrite filter_cons, decide_True by done.
    rewrite filter_fst_nil by done. simpl. f_equal.
    rewrite Hrest; [by apply IH|].
    intros n Hn. by apply list_elem_of_filter in Hn as [_ ?].
  - rewrite Hrest; [by apply IH|].
    intros n Hn. by apply list_elem_of_filter in Hn as [_ ?].
Qed.

(** X21: [select_columns] on a table with a flat header of distinct
    names, with patterns that compile: it returns a new table with the
    rows of the input and exactly the columns whose name the joined
    pattern matches in full, in the order they have in the table (not in
    the order of the patterns), each once, with their cells; the input
    and every other object are as they were.  When nothing matches the
    result has the rows and no column. *)
Theorem select_columns_spec re_compile reg_ex_list fullmatch σ self df cols :
  re_compile (joined_pattern (patterns_of reg_ex_list)) = Some fullmatch →
  σ !! self = Some df →
  df_columns df = Index cols →
  NoDup cols.*1 →
  ∃ data out,
    (select_columns re_compile reg_ex_list self σ).1 = Ok data
    ∧ length σ ≤ data
    ∧ (select_columns re_compile reg_ex_list self σ).2 !! data = Some out
    ∧ (∀ l, l < length σ →
         (select_columns re_compile reg_ex_list self σ).2 !! l = σ !! l)
    ∧ df_index out = df_index df
    ∧ df_columns out
      = Index (filter (λ kc, fullmatch kc.1 = true) cols)
    ∧ (∀ name col,
         get_column out (Name name) = Some col
         ↔ fullmatch name = true ∧ get_column df (Name name) = Some col).
Proof.
  intros Hre Hself Hcols Hnd.
  set (out := {| df_index := df_index df;
                 df_columns :=
                   Index (filter (λ kc, fullmatch kc.1 = true) cols) |}).
  assert (select_columns re_compile reg_ex_list self σ
          = (Ok (S (length σ)), (σ ++ [out]) ++ [out])) as ->.
  { unfold select_columns. rewrite Hre.
    rewrite run_bind, (read_at _ _ _ Hself). cbv beta iota. rewrite Hcols.
    cbv zeta. rewrite run_bind. unfold getitem_names.
    rewrite run_bind, (read_at _ _ _ Hself). cbv beta iota. rewrite Hcols.
    rewrite (columns_of_selected (λ n, fullmatch n = true)) by done.
    unfold alloc at 1. cbv beta iota. fold out.
    rewrite copy_last. by rewrite length_app, Nat.add_1_r. }
  exists (S (length σ)), out. simpl.
  split; [done|]. split; [lia|].
  split.
  { replace (S (length σ)) with (length (σ ++ [out]))
      by (rewrite length_app; simpl; lia).
    apply lookup_last. }
  split.
  { intros l Hl. rewrite <-app_assoc. by apply lookup_app_l. }
  split; [done|]. split; [done|].
  intros name col. unfold get_column. rewrite Hcols. simpl.
  clear -Hnd. induction cols as [|[k v] cols IH]; csimpl.
  - split; [done|by intros [_ ?]].
  - apply NoDup_cons in Hnd as [Hout Hnd].
    rewrite filter_cons. simpl.
    destruct (decide (name = k)) as [->|Hne].
    + destruct (decide (fullmatch k = true)) as [Hm|Hm].
      * simpl. rewrite decide_True by done. split; [done|by intros [_ ?]].
      * rewrite IH by done. split; [by intros [? _]|by intros [? _]].
    + destruct (decide (fullmatch k = true)) as [Hm|Hm].
      * simpl. rewrite decide_False by done. by apply IH.
      * by apply IH.
Qed.

(** [select_columns] on a table with a multi-level header that has
    a column raises [TypeError]: the labels are tuples, which the pattern
    cannot be matched against.  No object is made and the store is as it
    was. *)
Lemma select_columns_multiindex re_compile reg_ex_list fullmatch σ self
    df c cols :
  re_compile (joined_pattern (patterns_of reg_ex_list)) = Some fullmatch →
  σ !! self = Some df →
  df_columns df = MultiIndex (c :: cols) →
  select_columns re_compile reg_ex_list self σ = (Raise TypeError, σ).
Proof.
  intros Hre Hself Hcols. unfold select_columns. rewrite Hre.
  rewrite run_bind, (read_at _ _ _ Hself). cbv beta iota.
  by rewrite Hcols.
Qed.

End SelectColumnsFacts.

(** ** quarter_labels *)

Section QuarterLabelsFacts.
Import QuarterLabels.

Lemma pretty_N_char_no_Q x : pretty_N_char x ≠ "Q"%char.
Proof. unfold pretty_N_char. by repeat case_match. Qed.

Lemma pretty_N_go_no_Q x s : no_Q s → no_Q (pretty_N_go x s).
Proof.
  revert s. induction (N.lt_wf_0 x) as [x _ IH]; intros s Hs.
  assert (x = 0 ∨ 0 < x)%N as [->|?] by lia.
  - by rewrite pretty_N_go_0.
  - rewrite pretty_N_go_step by done. apply IH.
    { by apply N.div_lt. }
    unfold no_Q. simpl. rewrite not_elem_of_cons. split; [|done].
    intros Heq. by apply (pretty_N_char_no_Q (x `mod` 10)).
Qed.

Lemma pretty_N_no_Q (x : N) : no_Q (pretty x).
Proof.
  unfold pretty, pretty_N. case_decide.
  - unfold no_Q. simpl. rewrite not_elem_of_cons. split; [done|].
    apply not_elem_of_nil.
  - apply pretty_N_go_no_Q. unfold no_Q. simpl. apply not_elem_of_nil.
Qed.

Lemma pretty_Z_no_Q (z : Z) : no_Q (pretty z).
Proof.
  destruct z as [|p|p]; unfold pretty, pretty_Z.
  - unfold no_Q. simpl. rewrite not_elem_of_cons. split; [done|].
    apply not_elem_of_nil.
  - apply (pretty_N_no_Q (N.pos p)).
  - unfold no_Q. change ("-" +:+ pretty p) with (String "-" (pretty p)).
    simpl. rewrite not_elem_of_cons. split; [done|].
    apply (pretty_N_no_Q (N.pos p)).
Qed.

Lemma split_at_Q (a a' b b' : string) :
  no_Q a → no_Q a' →
  a +:+ String "Q" b = a' +:+ String "Q" b' → a = a' ∧ b = b'.
Proof.
  unfold no_Q. revert a'.
  induction a as [|c a IH]; intros [|c' a'] Ha Ha'; simpl in *.
  - by intros [= ->].
  - intros [= <- _]. exfalso. apply Ha'. left.
  - intros [= -> _]. exfalso. apply Ha. left.
  - change (String c a +:+ String "Q" b) with (String c (a +:+ String "Q" b)).
    change (String c' a' +:+ String "Q" b')
      with (String c' (a' +:+ String "Q" b')).
    intros [= -> Heq]. apply not_elem_of_cons in Ha as [_ Ha].
    apply not_elem_of_cons in Ha' as [_ Ha'].
    destruct (IH a' Ha Ha' Heq) as [-> ->]. done.
Qed.

Lemma pretty_four_digits (y : N) :
  (1000 ≤ y ≤ 9999)%N →
  ∃ c1 c2 c3 c4,
    pretty y = String c1 (String c2 (String c3 (String c4 ""))).
Proof.
  intros Hy. unfold pretty, pretty_N. rewrite decide_False by lia.
  assert (0 < y `div` 10 ∧ 0 < (y `div` 10) `div` 10
          ∧ 0 < ((y `div` 10) `div` 10) `div` 10
          ∧ (((y `div` 10) `div` 10) `div` 10) `div` 10 = 0)%N
    as (H1 & H2 & H3 & H4).
  { rewrite !N.Div0.div_div. change (10 * 10)%N with 100%N.
    change (100 * 10)%N with 1000%N. change (1000 * 10)%N with 10000%N.
    repeat split.
    - apply N.div_str_pos. lia.
    - apply N.div_str_pos. lia.
    - apply N.div_str_pos. lia.
    - apply N.div_small. lia. }
  rewrite pretty_N_go_step by lia.
  rewrite pretty_N_go_step by done.
  rewrite pretty_N_go_step by done.
  rewrite pretty_N_go_step by done.
  rewrite H4, pretty_N_go_0. by eexists _, _, _, _.
Qed.

(** X22: [quarter_labels] gives one label per date, the year, the letter
    [Q] and the quarter: the quarter of a month from 1 to 12 is a number
    from 1 to 4, quarter [q] holding the months [3q-2] to [3q]; two dates
    get the same label exactly when they have the same year and the same
    quarter; and for a year of four digits the label has the form
    [ddddQd] the documentation states: six characters, the fifth the
    letter [Q]. *)
Theorem quarter_labels_spec :
  (∀ date_list, length (quarter_labels date_list) = length date_list)
  ∧ (∀ dt q, (1 <= month dt <= 12)%Z →
       (1 <= quarter dt <= 4)%Z
       ∧ (quarter dt = q ↔ (3 * q - 2 <= month dt <= 3 * q)%Z))
  ∧ (∀ d1 d2,
       strftimeq d1 = strftimeq d2
       ↔ year d1 = year d2 ∧ quarter d1 = quarter d2)
  ∧ (∀ dt, (1000 <= year dt <= 9999)%Z → (1 <= month dt <= 12)%Z →
       String.length (strftimeq dt) = 6
       ∧ String.get 4 (strftimeq dt) = Some "Q"%char).
Proof.
  split; [|split; [|split]].
  - intros l. unfold quarter_labels. apply length_fmap.
  - intros dt q Hm. unfold quarter.
    pose proof (Z.div_mod (month dt - 1) 3).
    pose proof (Z.mod_pos_bound (month dt - 1) 3). split; [lia|].
    split; [intros <-; lia|].
    intros Hq. assert ((month dt - 1) / 3 = q - 1)%Z; [|lia].
    symmetry. apply (Z.div_unique _ 3 _ (month dt - 1 - 3 * (q - 1))); lia.
  - intros d1 d2. unfold strftimeq. split.
    + intros Heq.
      change ("Q" +:+ pretty (quarter d1))
        with (String "Q" (pretty (quarter d1))) in Heq.
      change ("Q" +:+ pretty (quarter d2))
        with (String "Q" (pretty (quarter d2))) in Heq.
      apply split_at_Q in Heq as [Hy Hq];
        [|apply pretty_Z_no_Q|apply pretty_Z_no_Q].
      split; by apply (inj pretty).
    + by intros [-> ->].
  - intros dt Hy Hm. unfold strftimeq.
    destruct (year dt) as [|p|p] eqn:Hyear; [lia| |lia].
    destruct (pretty_four_digits (N.pos p)) as (c1 & c2 & c3 & c4 & Hp);
      [lia|].
    change (pretty (Z.pos p)) with (pretty (N.pos p)). rewrite Hp.
    assert (quarter dt = 1 ∨ quarter dt = 2 ∨ quarter dt = 3
            ∨ quarter dt = 4)%Z as Hq.
    { unfold quarter.
      pose proof (Z.div_mod (month dt - 1) 3).
      pose proof (Z.mod_pos_bound (month dt - 1) 3). lia. }
    destruct Hq as [Hq|[Hq|[Hq|Hq]]]; rewrite Hq; by split.
Qed.

End QuarterLabelsFacts.

(** ** The further properties on the tables of the tests *)

Section MoreExampleFacts.
Import KindaTidy Fortify Weighted Plotnine SelectColumns QuarterLabels.
Import Examples MoreExamples.

Lemma drop_unused_levels_spec_witness :
  ∃ out,
    returns (drop_unused_levels TNone 0) [levels_df] out
    ∧ get_column out (Name "group1")
      = Some (CatCol ["a"; "b"; "c"]
                (Some <$> ["a"; "a"; "a"; "b"; "b"; "c"])).
Proof.
  destruct (drop_unused_levels_spec TNone [levels_df] 0 levels_df eq_refl)
    as [Hok _].
  cbv zeta in Hok. destruct Hok as (out & Hret & _ & _ & Hcols & _).
  { intros c Hc. by apply labels_get_column. }
  exists out. split; [exact Hret|].
  rewrite (Hcols (Name "group1") _ eq_refl). reflexivity.
Defined.

Lemma drop_unused_levels_idempotent_witness :
  returns (drop_unused_levels TNone 0) [dropped_df] dropped_df.
Proof.
  apply (drop_unused_levels_idempotent TNone [levels_df] 0 levels_df
           dropped_df eq_refl).
  - exists 1. split; reflexivity.
  - reflexivity.
Defined.

Lemma reverse_categories_spec_witness :
  ∃ out,
    returns (reverse_categories TNone 0) [levels_df] out
    ∧ get_column out (Name "group2")
      = Some (CatCol ["unused"; "c"; "b"; "a"]
                (Some <$> ["a"; "a"; "a"; "b"; "b"; "c"])).
Proof.
  destruct (reverse_categories_spec TNone [levels_df] 0 levels_df eq_refl
              wf_levels_df) as [Hok _].
  cbv zeta in Hok. destruct Hok as (out & Hret & _ & _ & Hcat & _).
  { apply (proj1 (bool_decide_eq_true _)). reflexivity. }
  { intros c Hc. by apply labels_get_column. }
  exists out. split; [exact Hret|].
  apply (Hcat (Name "group2") ["a"; "b"; "c"; "unused"]); [|reflexivity].
  right. left.
Defined.

Lemma select_rows_spec_witness :
  ∃ out,
    returns (select_rows (λ _, [true; false; true; false; false; true]) 0)
      [input_df] out
    ∧ df_index out = [0; 2; 5]%Z
    ∧ nrows out = 3.
Proof.
  destruct (select_rows_spec (λ _, [true; false; true; false; false; true])
              [input_df] 0 input_df eq_refl) as [Hok _].
  { done. }
  destruct (Hok eq_refl) as (out & Hret & Hidx & Hn & _).
  exists out. split; [exact Hret|]. split; [by rewrite Hidx|by rewrite Hn].
Defined.

Lemma flatten_columns_spec_witness :
  ∃ out,
    flatten_columns "_" 0 [multiindex_df] = (Ok 1, [multiindex_df; out])
    ∧ labels (df_columns out) = [Name "col1_level1_1"; Name "col2_level1"].
Proof.
  destruct (flatten_columns_spec "_" [multiindex_df] 0 multiindex_df eq_refl)
    as (out & Hrun & _ & Hcols & _).
  exists out. split; [exact Hrun|]. by rewrite Hcols.
Defined.

Lemma equisample_explicit_size_witness :
  (∃ out keys_out,
      equisample first_positions equisample_df ["l1"] (Some 2) = Ok out
      ∧ frame_keys out ["l1"] = Ok keys_out
      ∧ length (group_rows keys_out ["a"]) = 2
      ∧ length (group_rows keys_out ["b"]) = 2)
  ∧ equisample first_positions equisample_df ["l1"] (Some 4)
    = Raise ValueError.
Proof.
  split.
  - destruct (equisample_explicit_size first_positions equisample_df ["l1"]
                (Some <$> [["a"]; ["a"]; ["a"]; ["a"]; ["b"]; ["b"]; ["b"]])
                ["a"] 2 first_positions_valid)
      as [Hok _]; [done|reflexivity|left|lia|].
    destruct Hok as (out & keys_out & Hout & Hkeys & Hsize & _).
    { repeat constructor; simpl; lia. }
    exists out, keys_out. split; [exact Hout|]. split; [exact Hkeys|].
    split; apply Hsize; [left|do 4 right; left].
  - destruct (equisample_explicit_size first_positions equisample_df ["l1"]
                (Some <$> [["a"]; ["a"]; ["a"]; ["a"]; ["b"]; ["b"]; ["b"]])
                ["a"] 4 first_positions_valid)
      as (_ & Hraise & _); [done|reflexivity|left|lia|].
    apply Hraise. exists 3. split; [right; left|lia].
Defined.

Lemma equisample_rows_of_input_witness :
  ∃ positions,
    take_rows [0; 1; 2; 4; 5; 6] equisample_df
    = take_rows positions equisample_df
    ∧ NoDup positions.
Proof.
  destruct (equisample_rows_of_input first_positions equisample_df ["l1"]
              (Some <$> [["a"]; ["a"]; ["a"]; ["a"]; ["b"]; ["b"]; ["b"]])
              None (take_rows [0; 1; 2; 4; 5; 6] equisample_df)
              first_positions_valid)
    as (positions & Hout & Hnd & _); [reflexivity|reflexivity|].
  by exists positions.
Defined.

Lemma equisample_errors_witness :
  equisample first_positions equisample_df ["l1"; "nope"] None
  = Raise KeyError.
Proof.
  apply (proj2 (equisample_errors first_positions equisample_df None)).
  - intros g [->|[->|Hg%elem_of_nil]%elem_of_cons]%elem_of_cons; [|by left|done].
    right. by eexists.
  - exists "nope". split; [right; left|reflexivity].
Defined.

Lemma mean_weighted_mismatch_and_zero_weights_witness :
  mean_weighted [Fin 1; Fin 2] [Fin 1] = Raise ValueError
  ∧ mean_weighted (Fin <$> [1; 2]%Q) (Fin <$> [0; 0]%Q) = Ok NaN.
Proof.
  destruct mean_weighted_mismatch_and_zero_weights as [Hlen Hzero]. split.
  - apply Hlen. simpl. lia.
  - apply Hzero; [reflexivity|done|]. by repeat constructor.
Defined.

Lemma mean_weighted_negative_weight_witness :
  mean_weighted [Fin 1; Fin 2] [Fin (-3); Fin 4] = Raise ValueError.
Proof.
  apply (mean_weighted_negative_weight _ _ (Fin (-3))); [left|reflexivity].
Defined.

Lemma mean_weighted_nan_propagates_witness :
  mean_weighted [Fin 1; NaN] [Fin 3; Fin 4] = Ok NaN
  ∧ mean_weighted [Fin 1; Fin 2] [NaN; Fin 4] = Ok NaN.
Proof.
  split.
  - apply mean_weighted_nan_propagates; [reflexivity| |left; right; left].
    intros w Hw.
    repeat (apply elem_of_cons in Hw as [->|Hw]; [reflexivity|]).
    inversion Hw.
  - apply mean_weighted_nan_propagates; [reflexivity| |right; left].
    intros w Hw.
    repeat (apply elem_of_cons in Hw as [->|Hw]; [reflexivity|]).
    inversion Hw.
Defined.

Lemma fortify_fitted_by_label_witness :
  ∃ data out fitted,
    (fortify_statsmodels fit_nan_predictor [df_nan_predictor]).1 = Ok data
    ∧ (fortify_statsmodels fit_nan_predictor [df_nan_predictor]).2 !! data
      = Some out
    ∧ df_index out = [0; 1; 2; 3]%Z
    ∧ get_column out (Name "fitted") = Some (NumCol fitted)
    ∧ fitted !! 2 = Some NaN
    ∧ fitted !! 3 = Some (Fin 4).
Proof.
  destruct (fortify_fitted_by_label [df_nan_predictor]
              fit_nan_predictor df_nan_predictor
              [("x", NumCol [Fin 1; Fin 2; NaN; Fin 4]);
               ("y", NumCol (ints [1; 2; 3; 4]%Z))])
    as (data & out & fitted & Hdata & _ & Hout & _ & Hidx & _ & Hcol & _
        & Hget & _).
  - reflexivity.
  - reflexivity.
  - done.
  - simpl. by apply (proj1 (bool_decide_eq_true _)).
  - reflexivity.
  - exists data, out, fitted.
    split; [exact Hdata|]. split; [exact Hout|]. split; [exact Hidx|].
    split; [exact Hcol|]. split.
    + by rewrite (Hget 2 2%Z).
    + by rewrite (Hget 3 3%Z).
Defined.

Lemma fortify_column_placement_witness :
  ∃ out fitted,
    (fortify_statsmodels fit_nan_predictor [df_nan_predictor]).2 !! 1
    = Some out
    ∧ df_columns out
      = Index [("x", NumCol [Fin 1; Fin 2; NaN; Fin 4]);
               ("y", NumCol (ints [1; 2; 3; 4]%Z));
               ("fitted", NumCol fitted)].
Proof.
  destruct (fortify_column_placement [df_nan_predictor] fit_nan_predictor
              df_nan_predictor
              [("x", NumCol [Fin 1; Fin 2; NaN; Fin 4]);
               ("y", NumCol (ints [1; 2; 3; 4]%Z))] 1)
    as (out & fitted & Hout & _ & _ & _ & Hnew & _);
    [reflexivity|reflexivity|reflexivity|].
  exists out, fitted. split; [exact Hout|]. apply Hnew.
  apply (proj1 (bool_decide_eq_true _)). reflexivity.
Defined.

Lemma fortify_repeated_labels_witness :
  (∃ data out,
      (fortify_statsmodels fit_every_row [df_nan_predictor]).1 = Ok data
      ∧ (fortify_statsmodels fit_every_row [df_nan_predictor]).2 !! data
        = Some out
      ∧ get_column out (Name "fitted")
        = Some (NumCol (ints [1; 2; 3; 4]%Z)))
  ∧ (fortify_statsmodels fit_repeated_labels [df_nan_predictor]).1
    = Raise ValueError.
Proof.
  split.
  - apply (proj1 (fortify_repeated_labels [df_nan_predictor] fit_every_row
                    df_nan_predictor
                    [("x", NumCol [Fin 1; Fin 2; NaN; Fin 4]);
                     ("y", NumCol (ints [1; 2; 3; 4]%Z))]
                    eq_refl eq_refl)).
    reflexivity.
  - apply (proj2 (fortify_repeated_labels [df_nan_predictor]
                    fit_repeated_labels df_nan_predictor
                    [("x", NumCol [Fin 1; Fin 2; NaN; Fin 4]);
                     ("y", NumCol (ints [1; 2; 3; 4]%Z))]
                    eq_refl eq_refl)); [done|done|].
    intros [Hnin _]%NoDup_cons. apply Hnin. left.
Defined.

Lemma set_categorical_negative_top_n_witness :
  ∃ df',
    returns (set_categorical "group" (Some "value") np_sum false
               (Some (-1)%Z) false "_other" 0) [input_df] df'
    ∧ df_index df' = [3; 4; 5]%Z.
Proof.
  destruct (set_categorical_negative_top_n "group" "value" np_sum false 1
              "_other" [input_df] 0 input_df
              (ObjectCol (Some <$> ["a"; "a"; "a"; "b"; "b"; "c"]))
              (ints [1; 2; 3; 4; 5; 7]%Z))
    as (kept & _ & (df' & levels & Hret & _) & _);
    [done|lia|reflexivity|reflexivity|by eexists|reflexivity|reflexivity|].
  exists df'. split; [exact Hret|].
  destruct Hret as (l & Hl & Hdf).
  vm_compute in Hl. injection Hl as <-.
  vm_compute in Hdf. injection Hdf as <-. reflexivity.
Defined.

Lemma set_categorical_top_n_all_levels_witness :
  returns (set_categorical "group" (Some "value") np_sum false (Some 5%Z)
             true "_other" 0) [input_df] ranked_df.
Proof.
  apply (set_categorical_top_n_all_levels "group" "value" np_sum false 5
           true "_other" [input_df] 0 input_df
           (ObjectCol (Some <$> ["a"; "a"; "a"; "b"; "b"; "c"]))
           (ints [1; 2; 3; 4; 5; 7]%Z)).
  - done.
  - lia.
  - reflexivity.
  - repeat constructor.
  - reflexivity.
  - by eexists.
  - reflexivity.
  - apply (proj1 (bool_decide_eq_true _)). reflexivity.
  - simpl. lia.
  - exists 1. split; reflexivity.
Defined.

Lemma set_categorical_on_categorical_witness :
  ∃ df' levels,
    returns (set_categorical "group" None np_sum false None false "_other"
               0) [missing_df] df'
    ∧ get_column df' (Name "group")
      = Some (CatCol levels [Some "b"; Some "nan"; Some "a"])
    ∧ "nan" ∈ levels ∧ "unused" ∉ levels.
Proof.
  destruct (set_categorical_on_categorical "group" None np_sum false None
              false "_other" [missing_df] 0 missing_df
              ["b"; "a"; "unused"] [Some "b"; None; Some "a"])
    as (df' & levels & Hret & Hcol & _ & Hmem);
    [reflexivity|reflexivity|reflexivity|].
  exists df', levels. split; [exact Hret|]. split; [exact Hcol|]. split.
  - apply Hmem. right. split; [done|]. right. left.
  - intros [Hin|[Heq _]]%Hmem; [|done].
    repeat (apply elem_of_cons in Hin as [Hin|Hin]; [done|]).
    by apply elem_of_nil in Hin.
Defined.

Lemma set_categorical_no_value_idempotent_witness :
  returns (set_categorical "group" None np_sum true (Some 1%Z) true "_other"
             0) [alphabetical_df] alphabetical_df.
Proof.
  apply (set_categorical_no_value_idempotent "group" None np_sum false None
           false "_other" [input_df] 0 input_df
           (ObjectCol (Some <$> ["a"; "a"; "a"; "b"; "b"; "c"]))
           alphabetical_df).
  - reflexivity.
  - reflexivity.
  - reflexivity.
  - by eexists.
  - apply (proj1 (bool_decide_eq_true _)). reflexivity.
  - exists 1. split; reflexivity.
  - reflexivity.
  - reflexivity.
Defined.

Lemma set_categorical_missing_column_witness :
  (set_categorical "nope" (Some "value") np_sum false None false "_other" 0
     [input_df]).1 = Raise KeyError.
Proof.
  apply (set_categorical_missing_column "nope" (Some "value") np_sum false
           None false "_other" [input_df] 0 input_df); reflexivity.
Defined.

Lemma select_columns_spec_witness :
  ∃ data out,
    (select_columns compile_value_or_group (RList ["value"; "group"]) 0
       [input_df]).1 = Ok data
    ∧ (select_columns compile_value_or_group (RList ["value"; "group"]) 0
         [input_df]).2 !! data = Some out
    ∧ labels (df_columns out) = [Name "group"; Name "value"].
Proof.
  destruct (select_columns_spec compile_value_or_group
              (RList ["value"; "group"])
              (λ name, String.eqb name "value" || String.eqb name "group")
              [input_df] 0 input_df
              [("group", ObjectCol (Some <$> ["a"; "a"; "a"; "b"; "b"; "c"]));
               ("value", NumCol (ints [1; 2; 3; 4; 5; 7]%Z))])
    as (data & out & Hdata & _ & Hout & _ & _ & Hcols & _);
    [reflexivity|reflexivity|reflexivity| |].
  { apply (proj1 (bool_decide_eq_true _)). reflexivity. }
  exists data, out. split; [exact Hdata|]. split; [exact Hout|].
  by rewrite Hcols.
Defined.

Lemma quarter_labels_spec_witness :
  quarter august_2022 = 3%Z
  ∧ String.length (strftimeq august_2022) = 6.
Proof.
  destruct quarter_labels_spec as (_ & Hq & _ & Hform). split.
  - apply (Hq august_2022 3%Z); simpl; lia.
  - apply (Hform august_2022); simpl; lia.
Defined.

End MoreExampleFacts.
